(** * ID-Verification-Agent: field extraction and MRZ fusion

    A shallow embedding of [src/extractor.py] (class [UltraPassportExtractor]),
    [src/patterns.py] (class [PassportPatterns]) and, of
    [src/mrz_processor.py] (class [EnhancedMRZProcessor]), the fusion
    step, the parser of the MRZ text and the MRZ confidence, followed by
    the properties of the extraction engine.

    Conventions of the embedding.
    - A Python [str] is a list of Unicode code points ([str := list N]).
      Literals are written as UTF-8 Rocq strings and decoded by [u].
    - Python floats are rationals ([Q]); the only float operations of the
      engine are comparisons, [* 0.5], a weighted mean and [round(_, 2)].
    - A Python [dict] is a [gmap] keyed by the key's name; the
      [DocumentRecord] dictionary is split by the type of its values.
    - Exceptions are values of [exn]; a function that may raise returns
      a [res]. *)

From Stdlib Require Import List NArith ZArith QArith Bool Lia String Ascii.
From stdpp Require Import base option gmap strings.
Import ListNotations.

Local Open Scope N_scope.
Local Open Scope list_scope.

(** ** Python strings as code-point lists *)

Abbreviation char := N (only parsing).
Abbreviation str := (list N) (only parsing).

(** Decoding of a UTF-8 byte sequence into code points. *)
Fixpoint utf8_decode (bs : list N) : str :=
  match bs with
  | [] => []
  | b :: r =>
      if b <? 128 then b :: utf8_decode r
      else if b <? 224 then
        match r with
        | b1 :: r1 => ((b - 192) * 64 + (b1 - 128)) :: utf8_decode r1
        | _ => []
        end
      else if b <? 240 then
        match r with
        | b1 :: b2 :: r2 =>
            ((b - 224) * 4096 + (b1 - 128) * 64 + (b2 - 128)) :: utf8_decode r2
        | _ => []
        end
      else
        match r with
        | b1 :: b2 :: b3 :: r3 =>
            ((b - 240) * 262144 + (b1 - 128) * 4096 + (b2 - 128) * 64 + (b3 - 128))
              :: utf8_decode r3
        | _ => []
        end
  end.

(** [u "..."] is the Python string written between the quotes. *)
Definition u (s : string) : str :=
  utf8_decode (List.map N_of_ascii (list_ascii_of_string s)).

Definition ch (s : string) : char :=
  match u s with c :: _ => c | [] => 0 end.

Definition newline : char := 10.

Definition in_range (lo hi c : char) : bool := (lo <=? c) && (c <=? hi).

(** [str.isspace] on one code point; also the class [\s] of [re]. *)
Definition is_space (c : char) : bool :=
  in_range 9 13 c || in_range 28 32 c || (c =? 133) || (c =? 160)
  || (c =? 5760) || in_range 8192 8202 c || (c =? 8232) || (c =? 8233)
  || (c =? 8239) || (c =? 8287) || (c =? 12288).

(** First code point of every block of decimal digits (category Nd,
    Unicode 14); each block holds the ten digits 0..9 in order. *)
Definition decimal_zeros : list N :=
  [ 48; 1632; 1776; 1984; 2406; 2534; 2662; 2790; 2918; 3046; 3174; 3302;
    3430; 3558; 3664; 3792; 3872; 4160; 4240; 6112; 6160; 6470; 6608; 6784;
    6800; 6992; 7088; 7232; 7248; 42528; 43216; 43264; 43472; 43504; 43600;
    44016; 65296; 66720; 68912; 69734; 69872; 69942; 70096; 70384; 70736;
    70864; 71248; 71360; 71472; 71904; 72016; 72784; 73040; 73120; 92768;
    92864; 93008; 120782; 120792; 120802; 120812; 120822; 123200; 123632;
    125264; 130032 ].

(** Digit value of a code point, as [int] and [\d] see it. *)
Definition decimal_value (c : char) : option N :=
  match List.find (fun z => in_range z (z + 9) c) decimal_zeros with
  | Some z => Some (c - z)
  | None => None
  end.

Definition is_decimal (c : char) : bool :=
  match decimal_value c with Some _ => true | None => false end.

Definition is_upper_AZ (c : char) : bool := in_range 65 90 c.
Definition is_lower_az (c : char) : bool := in_range 97 122 c.
Definition is_digit_09 (c : char) : bool := in_range 48 57 c.

(** [str.upper] on one code point.  Exact on Basic Latin, on every
    caseless code point (digits, punctuation, the Arabic block) and on
    the letters U+0130, U+0131, U+017F, U+212A; other cased letters are
    outside the alphabet of the model and are left unchanged. *)
Definition upper_char (c : char) : char :=
  if is_lower_az c then c - 32
  else if c =? 305 then 73
  else if c =? 383 then 83
  else c.

Definition upper (s : str) : str := List.map upper_char s.

(** The code points that [re.IGNORECASE] identifies with [c]: the two
    cases of an ASCII letter, plus dotted/dotless i (U+0130, U+0131) for
    i, long s (U+017F) for s and the Kelvin sign (U+212A) for k. *)
Definition case_fold (c : char) : char :=
  if is_upper_AZ c then c + 32
  else if (c =? 304) || (c =? 305) then 105
  else if c =? 383 then 115
  else if c =? 8490 then 107
  else c.

Definition case_variants (c : char) : list char :=
  let f := case_fold c in
  if is_lower_az f then
    f :: (f - 32) ::
      (if f =? 105 then [304; 305]
       else if f =? 115 then [383]
       else if f =? 107 then [8490]
       else [])
  else [c].

Fixpoint str_eqb (a b : str) : bool :=
  match a, b with
  | [], [] => true
  | x :: a', y :: b' => (x =? y) && str_eqb a' b'
  | _, _ => false
  end.

(** [needle in hay] for strings. *)
Fixpoint starts_with (p s : str) : bool :=
  match p, s with
  | [], _ => true
  | a :: p', b :: s' => (a =? b) && starts_with p' s'
  | _ :: _, [] => false
  end.

Fixpoint contains (needle hay : str) : bool :=
  starts_with needle hay ||
  match hay with
  | [] => false
  | _ :: hay' => contains needle hay'
  end.

(** [x in xs] for a list of strings. *)
Definition str_in (x : str) (xs : list str) : bool := existsb (str_eqb x) xs.

Fixpoint lstrip (s : str) : str :=
  match s with
  | c :: s' => if is_space c then lstrip s' else s
  | [] => []
  end.

Definition rstrip (s : str) : str := rev (lstrip (rev s)).

(** [s.strip()] *)
Definition strip (s : str) : str := rstrip (lstrip s).

(** [s.split()]: split on runs of whitespace, no empty pieces. *)
Fixpoint split_ws_aux (cur : str) (s : str) : list str :=
  match s with
  | [] => match cur with [] => [] | _ => [rev cur] end
  | c :: s' =>
      if is_space c
      then match cur with
           | [] => split_ws_aux [] s'
           | _ => rev cur :: split_ws_aux [] s'
           end
      else split_ws_aux (c :: cur) s'
  end.

Definition split_ws (s : str) : list str := split_ws_aux [] s.

(** [s.split(sep)] for a one-character separator. *)
Fixpoint split_on_aux (sep : char) (cur : str) (s : str) : list str :=
  match s with
  | [] => [rev cur]
  | c :: s' =>
      if c =? sep then rev cur :: split_on_aux sep [] s'
      else split_on_aux sep (c :: cur) s'
  end.

Definition split_on (sep : char) (s : str) : list str := split_on_aux sep [] s.

(** [sep.join(parts)] *)
Fixpoint join (sep : str) (parts : list str) : str :=
  match parts with
  | [] => []
  | [p] => p
  | p :: ps => p ++ sep ++ join sep ps
  end.

(** [s.replace(a, b)] for a one-character [a]. *)
Definition replace_char (a : char) (b : str) (s : str) : str :=
  flat_map (fun c => if c =? a then b else [c]) s.

(** [int(s)] on a string of decimal digits; [None] stands for
    [ValueError].  The strings converted by the engine are regex groups
    made of [\d] only, so signs, blanks and underscores do not occur. *)
Fixpoint int_digits (acc : N) (s : str) : option N :=
  match s with
  | [] => Some acc
  | c :: s' =>
      match decimal_value c with
      | Some d => int_digits (acc * 10 + d) s'
      | None => None
      end
  end.

Definition py_int (s : str) : option Z :=
  match s with
  | [] => None
  | _ => option_map Z.of_N (int_digits 0 s)
  end.

(** Decimal rendering of a natural number ([str(n)], format [d]). *)
Fixpoint dec_digits (fuel : nat) (n : N) (acc : str) : str :=
  match fuel with
  | O => acc
  | S f =>
      let acc' := (48 + n mod 10) :: acc in
      if n / 10 =? 0 then acc' else dec_digits f (n / 10) acc'
  end.

Definition str_of_N (n : N) : str := dec_digits (S (N.to_nat (N.log2 n))) n [].

(** [f"{n:02d}"] for a non-negative [n]. *)
Definition fmt_02d (n : N) : str :=
  let s := str_of_N n in
  if (length s <? 2)%nat then 48 :: s else s.

(** ** Regular expressions ([re]) *)

(** Members of a bracketed character class. *)
Inductive citem :=
| CChr (c : char)          (* a literal code point *)
| CRng (lo hi : char)      (* [lo-hi] *)
| CSpace                   (* \s *)
| CDigit.                  (* \d *)

(** The fragment of the [re] syntax used by the pattern catalog: all
    quantifiers are greedy, and no pattern uses the dot, a negated class,
    a back-reference or a look-around. *)
Inductive regex :=
| Eps
| Cls (cs : list citem)                        (* one character of a class *)
| Seq (a b : regex)
| Alt (a b : regex)                            (* a|b, left first *)
| Rep (a : regex) (lo : nat) (hi : option nat) (* a{lo,hi}; [None] = no bound *)
| Grp (i : nat) (a : regex)                    (* capturing group number i *)
| Bol                                          (* ^ *)
| Eol.                                         (* $ *)

Definition citem_raw (it : citem) (c : char) : bool :=
  match it with
  | CChr x => c =? x
  | CRng lo hi => in_range lo hi c
  | CSpace => is_space c
  | CDigit => is_decimal c
  end.

(** With [re.IGNORECASE] a class accepts [c] when it holds a case
    variant of [c]. *)
Definition cls_match (icase : bool) (cs : list citem) (c : char) : bool :=
  existsb (fun it =>
             if icase then existsb (citem_raw it) (case_variants c)
             else citem_raw it c) cs.

(** State of the backtracking matcher: the offset reached, the text
    that is left, and the groups captured so far (latest first). *)
Record mstate := MState {
  pos : nat;
  rest : str;
  caps : list (nat * str)
}.

Definition set_cap (i : nat) (g : str) (st : mstate) : mstate :=
  MState (pos st) (rest st) ((i, g) :: caps st).

Fixpoint cap_lookup (i : nat) (cs : list (nat * str)) : option str :=
  match cs with
  | [] => None
  | (j, g) :: cs' => if Nat.eqb i j then Some g else cap_lookup i cs'
  end.

Definition hi_pred (hi : option nat) : option nat :=
  match hi with Some n => Some (Nat.pred n) | None => None end.

Definition hi_allows (hi : option nat) : bool :=
  match hi with Some O => false | _ => true end.

Section Repeat.
Variable step : mstate -> list mstate.

(** Greedy repetition: one more round of [step] is tried before
    stopping.  A round must consume input, which bounds the number of
    rounds by the length of the text (the patterns of the catalog
    never repeat an expression that can match the empty string). *)
Fixpoint rep_run (fuel : nat) (lo : nat) (hi : option nat) (st : mstate)
  : list mstate :=
  match fuel with
  | O => if Nat.eqb lo 0 then [st] else []
  | S f =>
      (if hi_allows hi
       then flat_map
              (fun st' =>
                 if (length (rest st') <? length (rest st))%nat
                 then rep_run f (Nat.pred lo) (hi_pred hi) st'
                 else [])
              (step st)
       else [])
      ++ (if Nat.eqb lo 0 then [st] else [])
  end.
End Repeat.

(** All the ways [r] can match at [st], in the order in which a
    backtracking matcher tries them; the head is the match [re] finds. *)
Fixpoint run (icase : bool) (r : regex) (st : mstate) : list mstate :=
  match r with
  | Eps => [st]
  | Cls cs =>
      match rest st with
      | c :: s' =>
          if cls_match icase cs c then [MState (S (pos st)) s' (caps st)] else []
      | [] => []
      end
  | Seq a b => flat_map (run icase b) (run icase a st)
  | Alt a b => run icase a st ++ run icase b st
  | Rep a lo hi => rep_run (run icase a) (S (length (rest st))) lo hi st
  | Grp i a =>
      List.map (fun st' => set_cap i (firstn (pos st' - pos st) (rest st)) st')
               (run icase a st)
  | Bol => if Nat.eqb (pos st) 0 then [st] else []
  | Eol =>
      match rest st with
      | [] => [st]
      | [c] => if c =? newline then [st] else []
      | _ => []
      end
  end.

(** Number of capturing groups of a pattern ([len(match.groups())]). *)
Fixpoint ngroups (r : regex) : nat :=
  match r with
  | Seq a b | Alt a b => (ngroups a + ngroups b)%nat
  | Rep a _ _ => ngroups a
  | Grp _ a => S (ngroups a)
  | _ => O
  end.

(** A match object. *)
Record Match := MkMatch {
  m_start : nat;
  m_end : nat;
  m_group0 : str;
  m_caps : list (nat * str)
}.

(** [match.group(i)]; [None] is Python's [None] for a group that did not
    take part in the match. *)
Definition group (m : Match) (i : nat) : option str :=
  match i with
  | O => Some (m_group0 m)
  | _ => cap_lookup i (m_caps m)
  end.

(** The match of [r] that starts at offset [idx], where [suffix] is the
    text from that offset on. *)
Definition match_at (icase : bool) (r : regex) (idx : nat) (suffix : str)
  : option Match :=
  match run icase r (MState idx suffix []) with
  | st :: _ =>
      Some (MkMatch idx (pos st) (firstn (pos st - idx) suffix) (caps st))
  | [] => None
  end.

(** [re.match(r, s)] *)
Definition re_match (icase : bool) (r : regex) (s : str) : option Match :=
  match_at icase r 0 s.

(** [re.search(r, s)] *)
Fixpoint search_from (icase : bool) (r : regex) (idx : nat) (suffix : str)
  : option Match :=
  match match_at icase r idx suffix with
  | Some m => Some m
  | None =>
      match suffix with
      | [] => None
      | _ :: s' => search_from icase r (S idx) s'
      end
  end.

Definition re_search (icase : bool) (r : regex) (s : str) : option Match :=
  search_from icase r 0 s.

(** [re.finditer(r, s)]: the non-overlapping matches, left to right.
    After a match the scan resumes at its end (one character further
    after an empty match). *)
Fixpoint finditer_from (fuel : nat) (icase : bool) (r : regex)
         (idx : nat) (suffix : str) : list Match :=
  match fuel with
  | O => []
  | S f =>
      match match_at icase r idx suffix with
      | Some m =>
          m :: (if Nat.eqb (m_end m) idx
                then match suffix with
                     | [] => []
                     | _ :: s' => finditer_from f icase r (S idx) s'
                     end
                else finditer_from f icase r (m_end m)
                       (skipn (m_end m - idx) suffix))
      | None =>
          match suffix with
          | [] => []
          | _ :: s' => finditer_from f icase r (S idx) s'
          end
      end
  end.

Definition finditer (icase : bool) (r : regex) (s : str) : list Match :=
  finditer_from (S (length s)) icase r 0 s.

(** [re.sub(r, repl, s)] for a replacement without group references. *)
Fixpoint sub_build (repl : str) (ms : list Match) (idx : nat) (suffix : str)
  : str :=
  match ms with
  | [] => suffix
  | m :: ms' =>
      firstn (m_start m - idx) suffix ++ repl
        ++ sub_build repl ms' (m_end m) (skipn (m_end m - idx) suffix)
  end.

Definition re_sub (icase : bool) (r : regex) (repl : str) (s : str) : str :=
  sub_build repl (finditer icase r s) 0 s.

(** Building blocks for writing patterns. *)
Definition lit_char (c : char) : regex := Cls [CChr c].

Fixpoint lit_chars (s : str) : regex :=
  match s with
  | [] => Eps
  | [c] => lit_char c
  | c :: s' => Seq (lit_char c) (lit_chars s')
  end.

(** A run of literal characters. *)
Definition lit (s : string) : regex := lit_chars (u s).

Fixpoint seqs (rs : list regex) : regex :=
  match rs with
  | [] => Eps
  | [r] => r
  | r :: rs' => Seq r (seqs rs')
  end.

Fixpoint alts (rs : list regex) : regex :=
  match rs with
  | [] => Eps
  | [r] => r
  | r :: rs' => Alt r (alts rs')
  end.

Definition star (a : regex) : regex := Rep a 0 None.          (* a* *)
Definition plus (a : regex) : regex := Rep a 1 None.          (* a+ *)
Definition opt (a : regex) : regex := Rep a 0 (Some 1%nat).   (* a? *)
Definition rep (a : regex) (lo hi : nat) : regex := Rep a lo (Some hi). (* a{lo,hi} *)
Definition rep_n (a : regex) (n : nat) : regex := Rep a n (Some n).    (* a{n} *)
Definition rep_min (a : regex) (lo : nat) : regex := Rep a lo None.    (* a{lo,} *)

Definition sp : regex := Cls [CSpace].                        (* \s *)
Definition dg : regex := Cls [CDigit].                        (* \d *)
Definition d09 : regex := Cls [CRng 48 57].                   (* [0-9] *)
Definition AZ : regex := Cls [CRng 65 90].                    (* [A-Z] *)
Definition AZ09 : regex := Cls [CRng 65 90; CRng 48 57].      (* [A-Z0-9] *)
Definition c_ (s : string) : regex := lit_char (ch s).        (* one literal character *)

(** ** The pattern catalog ([PassportPatterns.__init__])

    Every pattern is followed by its source text. *)
Module PassportPatterns.

Definition passport_number : list regex := Eval vm_compute in
  [ seqs [c_ "P"; star sp; rep d09 8 9]
      (* P\s*[0-9]{8,9} *)
  ; seqs [c_ "P"; rep d09 8 9]
      (* P[0-9]{8,9} *)
  ; seqs [lit "Passport"; star sp; lit "No"; opt (c_ "."); star sp;
          opt (c_ ":"); star sp; Grp 1 (rep AZ09 8 10)]
      (* Passport\s*No\.?\s*:?\s*([A-Z0-9]{8,10}) *)
  ; seqs [lit "No"; opt (c_ "."); star sp; opt (c_ ":"); star sp;
          Grp 1 (rep AZ09 8 10)]
      (* No\.?\s*:?\s*([A-Z0-9]{8,10}) *)
  ; Grp 1 (seqs [rep AZ 1 2; star sp; rep d09 6 9])
      (* ([A-Z]{1,2}\s*[0-9]{6,9}) *)
  ; seqs [c_ "P"; star sp; c_ "O"; star sp; rep d09 7 9]
      (* P\s*O\s*[0-9]{7,9} *)
  ; seqs [Cls [CChr (ch "P"); CChr (ch "D")];
          rep (Cls [CRng 48 57; CChr (ch "O")]) 8 9]
      (* [PD][0-9O]{8,9} *)
  ; seqs [lit "جواز"; star sp; lit "رقم"; star sp; opt (c_ ":"); star sp;
          Grp 1 (rep AZ09 8 10)]
      (* جواز\s*رقم\s*:?\s*([A-Z0-9]{8,10}) *)
  ; seqs [c_ "B"; rep_n d09 8]
      (* B[0-9]{8} *)
  ; seqs [AZ; rep_n d09 8]
      (* [A-Z][0-9]{8} *)
  ; seqs [c_ "P"; star sp; rep_n d09 8; star sp; opt d09]
      (* P\s*[0-9]{8}\s*[0-9]? *)
  ; seqs [Cls [CChr (ch "P"); CChr (ch "p")]; rep d09 8 9]
      (* [Pp][0-9]{8,9} *)
  ; seqs [Alt (lit "رقم") (Seq (lit "No") (opt (c_ "."))); star sp;
          opt (c_ ":"); star sp; Grp 1 (rep AZ09 8 10)]
      (* (?:رقم|No\.?)\s*:?\s*([A-Z0-9]{8,10}) *)
  ; seqs [Alt (seqs [lit "Passport"; star sp; lit "No"; opt (c_ ".")])
              (seqs [lit "رقم"; star sp; lit "الجواز"]);
          star sp; opt (c_ ":"); star sp; Grp 1 (Seq AZ (rep_n d09 8))]
      (* (?:Passport\s*No\.?|رقم\s*الجواز)\s*:?\s*([A-Z][0-9]{8}) *)
  ].

Definition dash_or_space : regex := Cls [CChr (ch "-"); CSpace].  (* [-\s] *)
Definition sep3 : regex :=
  Cls [CSpace; CChr (ch "-"); CChr (ch ".")].                     (* [\s\-\.] *)

(** \d{3}[-\s]?\d{4}[-\s]?\d{4,5} *)
Definition id_loose : regex :=
  seqs [rep_n dg 3; opt dash_or_space; rep_n dg 4; opt dash_or_space;
        rep dg 4 5].

Definition national_id : list regex := Eval vm_compute in
  [ id_loose
      (* \d{3}[-\s]?\d{4}[-\s]?\d{4,5} *)
  ; seqs [rep_n dg 3; star sp; opt dash_or_space; star sp; rep_n dg 4;
          star sp; opt dash_or_space; star sp; rep dg 4 5]
      (* \d{3}\s*[-\s]?\s*\d{4}\s*[-\s]?\s*\d{4,5} *)
  ; seqs [lit "National"; star sp; lit "No"; opt (c_ "."); star sp;
          opt (c_ ":"); star sp; Grp 1 id_loose]
      (* National\s*No\.?\s*:?\s*(\d{3}[-\s]?\d{4}[-\s]?\d{4,5}) *)
  ; rep dg 11 12
      (* \d{11,12} *)
  ; seqs [rep_n dg 3; rep_n dg 4; rep dg 4 5]
      (* \d{3}\d{4}\d{4,5} *)
  ; seqs [rep_n d09 3; sep3; rep_n d09 4; sep3; rep d09 4 5]
      (* [0-9]{3}[\s\-\.][0-9]{4}[\s\-\.][0-9]{4,5} *)
  ; seqs [lit "الرقم"; star sp; lit "الوطني"; star sp; opt (c_ ":"); star sp;
          Grp 1 id_loose]
      (* الرقم\s*الوطني\s*:?\s*(\d{3}[-\s]?\d{4}[-\s]?\d{4,5}) *)
  ; Grp 1 (seqs [rep_n dg 3; c_ "-"; rep_n dg 4; c_ "-"; rep_n dg 4])
      (* (\d{3}[-]\d{4}[-]\d{4}) *)
  ; Grp 1 (seqs [rep_n dg 3; rep_n dg 4; rep_n dg 4])
      (* (\d{3}\d{4}\d{4}) *)
  ; seqs [Alt (seqs [lit "National"; star sp; lit "No"; opt (c_ ".")])
              (seqs [lit "الرقم"; star sp; lit "الوطني"]);
          star sp; opt (c_ ":"); star sp;
          Grp 1 (seqs [rep_n dg 3; opt (c_ "-"); rep_n dg 4; opt (c_ "-");
                       rep_n dg 4])]
      (* (?:National\s*No\.?|الرقم\s*الوطني)\s*:?\s*(\d{3}[-]?\d{4}[-]?\d{4}) *)
  ].

Definition date : list regex := Eval vm_compute in
  [ seqs [Grp 1 (rep dg 1 2); c_ "."; Grp 2 (rep dg 1 2); c_ ".";
          Grp 3 (rep_n dg 4)]
      (* (\d{1,2})\.(\d{1,2})\.(\d{4}) *)
  ].

Definition AZsp : regex := Cls [CRng 65 90; CSpace].            (* [A-Z\s] *)

Definition name : list regex := Eval vm_compute in
  [ seqs [rep_min AZ 3; plus sp; rep_min AZ 3;
          star (Seq (plus sp) (rep_min AZ 3))]
      (* [A-Z]{3,}\s+[A-Z]{3,}(?:\s+[A-Z]{3,})* *)
  ; seqs [AZ; rep (Cls [CRng 65 90; CSpace; CChr (ch "-"); CChr 39]) 10 50]
      (* [A-Z][A-Z\s\-\']{10,50} *)
  ; seqs [Alt (lit "Name") (lit "NAME"); star sp; opt (c_ ":"); star sp;
          Grp 1 (plus AZsp)]
      (* (?:Name|NAME)\s*:?\s*([A-Z\s]+) *)
  ; seqs [lit "Full"; star sp; lit "Name"; star sp; opt (c_ ":"); star sp;
          Grp 1 (plus AZsp)]
      (* Full\s*Name\s*:?\s*([A-Z\s]+) *)
  ; seqs [rep (Grp 1 (Seq (rep_min AZ 2) (plus sp))) 2 6; rep_min AZ 2]
      (* ([A-Z]{2,}\s+){2,6}[A-Z]{2,} *)
  ; seqs [plus AZ; rep (Seq (plus sp) (plus AZ)) 1 5]
      (* [A-Z]+(?:\s+[A-Z]+){1,5} *)
  ; seqs [lit "الاسم"; star sp; opt (c_ ":"); star sp; Grp 1 (plus AZsp)]
      (* الاسم\s*:?\s*([A-Z\s]+) *)
  ; seqs [lit "الاسم"; star sp; lit "الكامل"; star sp; opt (c_ ":"); star sp;
          Grp 1 (plus AZsp)]
      (* الاسم\s*الكامل\s*:?\s*([A-Z\s]+) *)
  ; Grp 1 (seqs [rep_min AZ 4; plus sp; rep_min AZ 4; plus sp;
                 rep_min AZ 4; plus sp; rep_min AZ 4])
      (* ([A-Z]{4,}\s+[A-Z]{4,}\s+[A-Z]{4,}\s+[A-Z]{4,}) *)
  ; seqs [Alt (seqs [lit "Full"; star sp; lit "Name"])
              (seqs [lit "الاسم"; star sp; lit "الكامل"]);
          star sp; opt (c_ ":"); star sp; Grp 1 (rep AZsp 15 50)]
      (* (?:Full\s*Name|الاسم\s*الكامل)\s*:?\s*([A-Z\s]{15,50}) *)
  ].

Definition sex_label : regex := Alt (lit "الجنس") (lit "Sex").  (* (?:الجنس|Sex) *)
Definition MF : regex := Cls [CChr (ch "M"); CChr (ch "F")].     (* [MF] *)
Definition male_female : regex := Alt (lit "ذكر") (lit "أنثى").  (* ذكر|أنثى *)

Definition sex : list regex := Eval vm_compute in
  [ seqs [sex_label; star sp; opt (c_ ":"); star sp; Grp 1 male_female;
          star sp; Grp 2 MF]
      (* (?:الجنس|Sex)\s*:?\s*(ذكر|أنثى)\s*([MF]) *)
  ; seqs [sex_label; star sp; opt (c_ ":"); star sp; Grp 1 MF; star sp;
          Grp 2 male_female]
      (* (?:الجنس|Sex)\s*:?\s*([MF])\s*(ذكر|أنثى) *)
  ; seqs [sex_label; star sp; opt (c_ ":"); star sp; Grp 1 MF;
          opt (c_ "/"); star sp; lit "ذكر"]
      (* (?:الجنس|Sex)\s*:?\s*([MF])/?\s*ذكر *)
  ; seqs [sex_label; star sp; opt (c_ ":"); star sp; Grp 1 MF;
          opt (c_ "/"); star sp; lit "أنثى"]
      (* (?:الجنس|Sex)\s*:?\s*([MF])/?\s*أنثى *)
  ; seqs [lit "ذكر"; star sp; Grp 1 MF]       (* ذكر\s*([MF]) *)
  ; seqs [lit "أنثى"; star sp; Grp 1 MF]      (* أنثى\s*([MF]) *)
  ; seqs [Grp 1 MF; star sp; lit "ذكر"]       (* ([MF])\s*ذكر *)
  ; seqs [Grp 1 MF; star sp; lit "أنثى"]      (* ([MF])\s*أنثى *)
  ].

Definition sudan_indicators : list str := Eval vm_compute in
  [ u "SDN"; u "SUDAN"; u "REPUBLIC OF SUDAN"; u "REPUBLIC OF THE SUDAN";
    u "السودان"; u "جمهورية السودان"; u "SUDANESE"; u "سوداني" ].

Definition non_name_words : list str := Eval vm_compute in
  [ u "REPUBLIC"; u "SUDAN"; u "PASSPORT"; u "TYPE"; u "NATIONAL";
    u "NUMBER"; u "DATE"; u "BIRTH"; u "ISSUE"; u "EXPIRY"; u "SEX";
    u "PLACE"; u "NATIONALITY"; u "SIGNATURE"; u "HOLDER"; u "AUTHORITY";
    u "GENDER"; u "COUNTRY"; u "CODE"; u "DOCUMENT"; u "IDENTIFICATION";
    u "جمهورية"; u "السودان"; u "جواز"; u "نوع"; u "رقم";
    u "تاريخ"; u "ميلاد"; u "إصدار"; u "انتهاء"; u "مكان";
    u "SDN" ].

End PassportPatterns.

(** ** Exceptions and results *)

Inductive exn :=
| KeyError (key : string)
| AttributeError (attr : string)
| TypeError.

Inductive res (A : Type) :=
| Ok (a : A)
| Raise (e : exn).
Arguments Ok {A} a.
Arguments Raise {A} e.

#[global] Instance res_ret : MRet res := fun _ a => Ok a.
#[global] Instance res_bind : MBind res := fun _ _ f m =>
  match m with
  | Ok a => f a
  | Raise e => Raise e
  end.

(** ** Floats

    A float is read as the exact rational it is written as: sums,
    products and comparisons are exact, and [round] rounds the exact
    value, where a binary double may lie on the other side of a decimal
    tie. *)

Definition Qltb (a b : Q) : bool := negb (Qle_bool b a).

(** Nearest integer, ties to even. *)
Definition round_half_even (q : Q) : Z :=
  let n := Qnum q in
  let dn := Zpos (Qden q) in
  let f := (n / dn)%Z in
  let r2 := (2 * (n mod dn))%Z in
  if (r2 <? dn)%Z then f
  else if (dn <? r2)%Z then (f + 1)%Z
  else if Z.even f then f else (f + 1)%Z.

(** [round(q, 2)] *)
Definition round2 (q : Q) : Q := (round_half_even (q * 100) # 100)%Q.

(** [min(1.0, q)] *)
Definition min_one (q : Q) : Q := if Qltb q 1 then q else 1%Q.

(** ** Data model *)

(** The result dictionary of the engine.  Its keys are grouped by the
    type of their values: [fields] holds the keys whose value is a string
    or [None] (the twelve document fields, [mrz_text],
    [mrz_extraction_method], [extraction_summary]), [numbers] the keys
    whose value is a float ([extraction_score], [mrz_confidence]); the
    two nested dictionaries are [None] when their key is missing. *)
Record DocumentRecord := Doc {
  fields : gmap string (option str);
  confidence_scores : option (gmap string Q);
  extraction_method : option (gmap string str);
  numbers : gmap string Q
}.

(** [data.get(k)] *)
Definition get (k : string) (data : DocumentRecord) : option str :=
  match fields data !! k with
  | Some v => v
  | None => None
  end.

(** Truth value of a string-or-[None]. *)
Definition truthy (v : option str) : bool :=
  match v with
  | Some (_ :: _) => true
  | _ => false
  end.

(** [data[k] = v] *)
Definition set_field (k : string) (v : option str) (data : DocumentRecord)
  : DocumentRecord :=
  Doc (<[k := v]> (fields data)) (confidence_scores data)
      (extraction_method data) (numbers data).

Definition set_number (k : string) (q : Q) (data : DocumentRecord)
  : DocumentRecord :=
  Doc (fields data) (confidence_scores data) (extraction_method data)
      (<[k := q]> (numbers data)).

(** [data['confidence_scores'][k] = q] *)
Definition set_confidence (k : string) (q : Q) (data : DocumentRecord)
  : res DocumentRecord :=
  match confidence_scores data with
  | Some m =>
      Ok (Doc (fields data) (Some (<[k := q]> m)) (extraction_method data)
              (numbers data))
  | None => Raise (KeyError "confidence_scores")
  end.

(** [data['extraction_method'][k] = v] *)
Definition set_method (k : string) (v : str) (data : DocumentRecord)
  : res DocumentRecord :=
  match extraction_method data with
  | Some m =>
      Ok (Doc (fields data) (confidence_scores data) (Some (<[k := v]> m))
              (numbers data))
  | None => Raise (KeyError "extraction_method")
  end.

(** Recorded confidence and method of a field, if any. *)
Definition confidence_of (k : string) (data : DocumentRecord) : option Q :=
  match confidence_scores data with
  | Some m => m !! k
  | None => None
  end.

Definition method_of (k : string) (data : DocumentRecord) : option str :=
  match extraction_method data with
  | Some m => m !! k
  | None => None
  end.

(** One OCR text block: [(source_name, text)]. *)
Definition Observation : Type := str * str.

(** A confidence reported by the OCR engine: [ConfInt z] when [int(_)]
    yields [z], [ConfBad] when [int(_)] raises [ValueError]. *)
Inductive conf_entry :=
| ConfInt (z : Z)
| ConfBad.

(** [{'text': [...], 'conf': [...]}] *)
Record ocr_data := OcrData {
  ocr_text : list str;
  ocr_conf : list conf_entry
}.

(** [self.ocr_confidence_data]: image identity to token table, in
    insertion order. *)
Definition OcrTable : Type := list (str * ocr_data).

(** The record produced by the MRZ resolver.  [mrz_fields] holds
    [mrz_text] and the eight string-valued fields; [mrz_confidence] and
    [mrz_method] are [None] when the key is missing. *)
Record MRZRecord := MRZ {
  mrz_fields : gmap string (option str);
  mrz_confidence : option Q;
  mrz_method : option str
}.

(** [mrz_data.get(k)] *)
Definition mrz_get (k : string) (m : MRZRecord) : option str :=
  match mrz_fields m !! k with
  | Some v => v
  | None => None
  end.

(** ** Confidence model ([_calculate_dynamic_confidence]) *)

(** The inner loop over [enumerate(ocr_data['text'])], from index [i]. *)
Fixpoint token_confidences (value_words : list str) (conf : list conf_entry)
         (i : nat) (texts : list str) : list Z :=
  match texts with
  | [] => []
  | text :: texts' =>
      let later := token_confidences value_words conf (S i) texts' in
      match text with
      | [] => later
      | _ =>
          if str_in (upper (strip text)) value_words
          then match nth_error conf i with
               | Some (ConfInt z) => if (0 <? z)%Z then z :: later else later
               | Some ConfBad => later       (* ValueError *)
               | None => later               (* IndexError *)
               end
          else later
      end
  end.

Definition matched_confidences (table : OcrTable) (value_words : list str)
  : list Z :=
  flat_map (fun kd => token_confidences value_words (ocr_conf (snd kd)) 0
                        (ocr_text (snd kd))) table.

Definition sumZ (l : list Z) : Z := fold_right Z.add 0%Z l.

Definition _calculate_dynamic_confidence (table : OcrTable)
           (extracted_value : str) (base_confidence : Q) : Q :=
  match extracted_value, table with
  | [], _ | _, [] => (base_confidence * (5 # 10))%Q
  | _, _ =>
      let value_words := split_ws (upper extracted_value) in
      let ocr_confidences := matched_confidences table value_words in
      match ocr_confidences with
      | _ :: _ =>
          let avg_ocr_conf :=
            ((inject_Z (sumZ ocr_confidences)
              / inject_Z (Z.of_nat (length ocr_confidences))) / 100)%Q in
          let dynamic_conf :=
            (avg_ocr_conf * (6 # 10) + base_confidence * (4 # 10))%Q in
          min_one (round2 dynamic_conf)
      | [] => base_confidence
      end
  end.

(** ** Field extractors ([UltraPassportExtractor]) *)

(** [match.group(1) if match.groups() else match.group(0)] *)
Definition group1_or_0 (r : regex) (m : Match) : option str :=
  if (0 <? ngroups r)%nat then group m 1 else group m 0.

(** An element of the list returned by [re.findall]. *)
Inductive findall_item :=
| FStr (s : str)
| FTuple (parts : list str).

(** [re.findall(r, s)]: the whole match without groups, the group with
    one group, the tuple of groups otherwise; a group that took no part
    contributes the empty string. *)
Definition findall (icase : bool) (r : regex) (s : str) : list findall_item :=
  List.map
    (fun m =>
       match ngroups r with
       | O => FStr (m_group0 m)
       | S O => FStr (default [] (group m 1))
       | n => FTuple (List.map (fun i => default [] (group m i)) (seq 1 n))
       end)
    (finditer icase r s).

(** [^[A-Z]?[0-9]{8,9}$] *)
Definition passport_number_format : regex := Eval vm_compute in
  seqs [Bol; opt AZ; rep d09 8 9; Eol].

(** [^\d{3}-\d{4}-\d{4,5}$] *)
Definition national_id_format : regex := Eval vm_compute in
  seqs [Bol; rep_n dg 3; c_ "-"; rep_n dg 4; c_ "-"; rep dg 4 5; Eol].

(** [[\s\.]] and [[\s\.]+] *)
Definition space_or_dot : regex := Eval vm_compute in
  Cls [CSpace; CChr (ch ".")].
Definition spaces_or_dots : regex := Eval vm_compute in plus space_or_dot.

(** [\s*/\s*[\u0600-\u06FF\s]+] *)
Definition arabic_tail : regex := Eval vm_compute in
  seqs [star sp; c_ "/"; star sp; plus (Cls [CRng 1536 1791; CSpace])].

(** [.replace('O', '0').replace(' ', '').upper()] *)
Definition normalize_passport (g : str) : str :=
  upper (replace_char (ch " ") [] (replace_char (ch "O") (u "0") g)).

Definition is_match (o : option Match) : bool :=
  match o with Some _ => true | None => false end.

(** [re.match(r'^[A-Z]?[0-9]{8,9}$', candidate)] as a truth value *)
Definition passport_number_ok (candidate : str) : bool :=
  is_match (re_match false passport_number_format candidate).

Definition national_id_ok (candidate : str) : bool :=
  is_match (re_match false national_id_format candidate).

(** [f'({label})\\s*[:/]?\\s*([A-Z][A-Z\\s/]{{3,25}})'].  The label is
    read character by character, which is what its interpolation into
    the pattern gives for a label without a character that has a
    meaning of its own in a pattern; the labels of the two callers are
    such labels. *)
Definition place_pattern (label : str) : regex :=
  seqs [Grp 1 (lit_chars label); star sp;
        opt (Cls [CChr (ch ":"); CChr (ch "/")]); star sp;
        Grp 2 (Seq AZ (rep (Cls [CRng 65 90; CSpace; CChr (ch "/")]) 3 25))].

(** [collections.Counter]: distinct elements in first-seen order, each
    with its number of occurrences. *)
Fixpoint counter_incr (x : str) (c : list (str * nat)) : list (str * nat) :=
  match c with
  | [] => [(x, 1%nat)]
  | (y, n) :: c' =>
      if str_eqb x y then (y, S n) :: c' else (y, n) :: counter_incr x c'
  end.

Definition Counter (xs : list str) : list (str * nat) :=
  fold_left (fun c x => counter_incr x c) xs [].

(** [max(items, key)]: the first element whose key is maximal. *)
Fixpoint max_by {A : Type} (key : A -> nat) (best : A) (l : list A) : A :=
  match l with
  | [] => best
  | x :: l' => max_by key (if (key best <? key x)%nat then x else best) l'
  end.

(** [Counter(xs).most_common(1)[0][0]] for a non-empty [xs] *)
Definition most_common (xs : list str) : option str :=
  match Counter xs with
  | [] => None
  | item :: items => Some (fst (max_by snd item items))
  end.

Definition in_open_range (lo hi n : nat) : bool := ((lo <? n) && (n <? hi))%nat.
Definition in_closed_range (lo hi n : nat) : bool := ((lo <=? n) && (n <=? hi))%nat.

(** Body of the innermost loop of [_extract_place]: the cleaned-up
    candidate of one match, kept when it passes the filter. *)
Definition place_candidate (m : Match) : res (option str) :=
  match group m 2 with
  | None => Raise (AttributeError "strip")
  | Some g =>
      let c := strip g in
      let c := re_sub false arabic_tail [] c in
      let c := upper (strip (hd [] (split_on newline c))) in
      if in_open_range 3 25 (length c)
         && negb (str_in c PassportPatterns.non_name_words)
      then Ok (Some c) else Ok None
  end.

Fixpoint place_candidates_of_matches (ms : list Match) : res (list str) :=
  match ms with
  | [] => Ok []
  | m :: ms' =>
      c ← place_candidate m;
      cs ← place_candidates_of_matches ms';
      Ok (match c with Some x => x :: cs | None => cs end)
  end.

Fixpoint place_candidates_of_patterns (ps : list regex) (text : str)
  : res (list str) :=
  match ps with
  | [] => Ok []
  | p :: ps' =>
      cs ← place_candidates_of_matches (finditer true p text);
      cs' ← place_candidates_of_patterns ps' text;
      Ok (cs ++ cs')
  end.

Fixpoint place_candidates (ps : list regex) (all_texts : list Observation)
  : res (list str) :=
  match all_texts with
  | [] => Ok []
  | (_, text) :: rest =>
      cs ← place_candidates_of_patterns ps text;
      cs' ← place_candidates ps rest;
      Ok (cs ++ cs')
  end.

Definition _extract_place (all_texts : list Observation)
           (label_patterns : list str) : res (option (str * str)) :=
  let extraction_patterns := List.map place_pattern label_patterns in
  candidates ← place_candidates extraction_patterns all_texts;
  Ok (match most_common candidates with
      | None => None
      | Some c => Some (c, u "regex_candidate_selection")
      end).

(** The loops of [_extract_passport_number]; [Some candidate] is the
    early [return] with an accepted candidate. *)
Fixpoint passport_in_matches (r : regex) (ms : list Match) : res (option str) :=
  match ms with
  | [] => Ok None
  | m :: ms' =>
      match group1_or_0 r m with
      | None => Raise (AttributeError "replace")
      | Some g =>
          let candidate := normalize_passport g in
          if passport_number_ok candidate then Ok (Some candidate)
          else passport_in_matches r ms'
      end
  end.

Fixpoint passport_in_patterns (ps : list regex) (text : str) : res (option str) :=
  match ps with
  | [] => Ok None
  | p :: ps' =>
      c ← passport_in_matches p (finditer true p text);
      match c with
      | Some candidate => Ok (Some candidate)
      | None => passport_in_patterns ps' text
      end
  end.

(** The loops of [_extract_national_id]. *)
Fixpoint national_id_in_matches (r : regex) (ms : list Match) : res (option str) :=
  match ms with
  | [] => Ok None
  | m :: ms' =>
      match group1_or_0 r m with
      | None => Raise TypeError
      | Some g =>
          let candidate := re_sub false space_or_dot (u "-") g in
          if national_id_ok candidate then Ok (Some candidate)
          else national_id_in_matches r ms'
      end
  end.

Fixpoint national_id_in_patterns (ps : list regex) (text : str) : res (option str) :=
  match ps with
  | [] => Ok None
  | p :: ps' =>
      c ← national_id_in_matches p (finditer false p text);
      match c with
      | Some candidate => Ok (Some candidate)
      | None => national_id_in_patterns ps' text
      end
  end.

(** [f"{day:02d}-{month:02d}-{year}"] *)
Definition format_date (day month year : Z) : str :=
  fmt_02d (Z.to_N day) ++ u "-" ++ fmt_02d (Z.to_N month) ++ u "-"
    ++ str_of_N (Z.to_N year).

(** Body of the validation loop of [_extract_dates]: the formatted date
    of one [findall] item, or nothing when it is rejected. *)
Definition valid_date (date_parts : findall_item) : option str :=
  let date_str :=
    match date_parts with
    | FTuple parts => join (u "-") parts
    | FStr s => s
    end in
  let date_str := re_sub false spaces_or_dots (u "-") date_str in
  match split_on (ch "-") date_str with
  | [p0; p1; p2] =>
      match py_int p0, py_int p1, py_int p2 with
      | Some day, Some month, Some year =>
          if ((1 <=? day) && (day <=? 31) && (1 <=? month) && (month <=? 12)
              && (1900 <=? year) && (year <=? 2100))%Z
          then Some (format_date day month year)
          else None
      | _, _, _ => None            (* ValueError: continue *)
      end
  | _ => None
  end.

Definition all_dates (text : str) : list findall_item :=
  flat_map (fun pattern => findall false pattern text) PassportPatterns.date.

Definition valid_dates (text : str) : list str :=
  flat_map (fun date_parts =>
              match valid_date date_parts with
              | Some s => [s]
              | None => []
              end) (all_dates text).

(** The candidate test of [_extract_name]. *)
Definition name_ok (name : str) : bool :=
  negb (existsb (fun word => contains word name) PassportPatterns.non_name_words)
  && in_closed_range 10 60 (length name).

Definition name_candidates_of_text (source_name text : str) : list (str * str) :=
  flat_map
    (fun pattern =>
       flat_map
         (fun item =>
            let name :=
              match item with
              | FTuple parts => join (u " ") parts
              | FStr s => s
              end in
            let name := upper (strip name) in
            if name_ok name then [(name, source_name)] else [])
         (findall false pattern text))
    PassportPatterns.name.

Definition name_candidates (all_texts : list Observation) : list (str * str) :=
  flat_map (fun o => name_candidates_of_text (fst o) (snd o)) all_texts.

(** The loop of [_extract_sex]: the first pattern that is found and
    whose value starts with M or F. *)
Fixpoint sex_in_patterns (ps : list regex) (text : str) : option str :=
  match ps with
  | [] => None
  | p :: ps' =>
      match re_search true p text with
      | Some m =>
          match group1_or_0 p m with
          | Some (c :: _) =>
              let sex_value := [upper_char c] in
              if str_in sex_value [u "M"; u "F"] then Some sex_value
              else sex_in_patterns ps' text
          | _ => sex_in_patterns ps' text
          end
      | None => sex_in_patterns ps' text
      end
  end.

Section Extractors.
(** [self.ocr_confidence_data], read by the confidence model. *)
Variable table : OcrTable.

Fixpoint _extract_passport_number (data : DocumentRecord)
         (all_texts : list Observation) : res DocumentRecord :=
    match all_texts with
    | [] => Ok data
    | (source_name, text) :: rest =>
        c ← passport_in_patterns PassportPatterns.passport_number text;
        match c with
        | Some candidate =>
            let data := set_field "passport_number" (Some candidate) data in
            data ← set_method "passport_number" source_name data;
            set_confidence "passport_number"
              (_calculate_dynamic_confidence table candidate (95 # 100)) data
        | None => _extract_passport_number data rest
        end
    end.

Definition _extract_national_id (data : DocumentRecord) (text : str)
  : res DocumentRecord :=
  match text with
  | [] => Ok data
  | _ =>
      c ← national_id_in_patterns PassportPatterns.national_id text;
      match c with
      | Some candidate =>
          let data := set_field "national_id" (Some candidate) data in
          set_confidence "national_id"
            (_calculate_dynamic_confidence table candidate (9 # 10)) data
      | None => Ok data
      end
  end.

Definition _extract_dates (data : DocumentRecord) (text : str)
  : res DocumentRecord :=
  match text with
  | [] => Ok data
  | _ =>
      let valid_dates := valid_dates text in
      data ←
        match valid_dates with
        | first :: _ =>
            set_confidence "date_of_birth"
              (_calculate_dynamic_confidence table first (85 # 100))
              (set_field "date_of_birth" (Some first) data)
        | [] => Ok data
        end;
      match valid_dates with
      | _ :: ((second :: _) as issue_or_expiry) =>
          data ← set_confidence "date_of_issue"
                   (_calculate_dynamic_confidence table second (8 # 10))
                   (set_field "date_of_issue" (Some second) data);
          if (1 <? length issue_or_expiry)%nat
          then
            let final := List.last issue_or_expiry [] in
            set_confidence "date_of_expiry"
              (_calculate_dynamic_confidence table final (85 # 100))
              (set_field "date_of_expiry" (Some final) data)
          else Ok data
      | _ => Ok data
      end
  end.

Definition _extract_name (data : DocumentRecord) (all_texts : list Observation)
  : res DocumentRecord :=
  match name_candidates all_texts with
  | [] => Ok data
  | c :: cs =>
      let longest := max_by (fun x => length (fst x)) c cs in
      let data := set_field "full_name" (Some (fst longest)) data in
      data ← set_method "full_name" (snd longest) data;
      set_confidence "full_name"
        (_calculate_dynamic_confidence table (fst longest) (85 # 100)) data
  end.

Definition _extract_sex (data : DocumentRecord) (text : str)
  : res DocumentRecord :=
  match text with
  | [] => Ok data
  | _ =>
      match sex_in_patterns PassportPatterns.sex text with
      | Some sex_value =>
          let data := set_field "sex" (Some sex_value) data in
          data ← set_confidence "sex"
                   (_calculate_dynamic_confidence table sex_value (95 # 100))
                   data;
          set_method "sex" (u "regex_search") data
      | None => Ok data
      end
  end.

Definition _extract_place_of_birth (data : DocumentRecord)
           (all_texts : list Observation) : res DocumentRecord :=
  let labels := [u "Place of Birth"; u "مكان الميلاد"] in
  result ← _extract_place all_texts labels;
  match result with
  | Some (place, method) =>
      let data := set_field "place_of_birth" (Some place) data in
      data ← set_method "place_of_birth" method data;
      set_confidence "place_of_birth"
        (_calculate_dynamic_confidence table place (85 # 100)) data
  | None => Ok data
  end.

Definition _extract_place_of_issue (data : DocumentRecord)
           (all_texts : list Observation) : res DocumentRecord :=
  let labels := [u "Place of Issue"; u "Authority"; u "مكان الإصدار";
                 u "جهة الإصدار"] in
  result ← _extract_place all_texts labels;
  match result with
  | Some (place, method) =>
      let data := set_field "place_of_issue" (Some place) data in
      data ← set_method "place_of_issue" method data;
      set_confidence "place_of_issue"
        (_calculate_dynamic_confidence table place (80 # 100)) data
  | None => Ok data
  end.

Definition _extract_nationality (data : DocumentRecord) (text : str)
  : res DocumentRecord :=
  match text with
  | [] => Ok data
  | _ =>
      let text_upper := upper text in
      if existsb (fun indicator => contains indicator text_upper)
                 PassportPatterns.sudan_indicators
      then
        let data := set_field "nationality" (Some (u "SUDANESE")) data in
        let data := set_field "country_code" (Some (u "SDN")) data in
        let data := set_field "passport_type" (Some (u "PC")) data in
        set_confidence "nationality" (98 # 100) data
      else Ok data
  end.

(** The draft record built at the start of [_smart_field_extraction]. *)
Definition field_names : list string :=
  [ "passport_type"; "country_code"; "passport_number"; "full_name";
    "nationality"; "place_of_birth"; "place_of_issue"; "sex";
    "date_of_birth"; "date_of_issue"; "date_of_expiry"; "national_id" ]%string.

Definition empty_record : DocumentRecord :=
  Doc (list_to_map (List.map (fun k => (k, None)) field_names))
      (Some ∅) (Some ∅) ∅.

Definition _smart_field_extraction (all_texts : list Observation)
  : res DocumentRecord :=
  let data := empty_record in
  let combined_text := join [newline] (List.map snd all_texts) in
  data ← _extract_passport_number data all_texts;
  data ← _extract_national_id data combined_text;
  data ← _extract_dates data combined_text;
  data ← _extract_name data all_texts;
  data ← _extract_sex data combined_text;
  data ← _extract_place_of_birth data all_texts;
  data ← _extract_place_of_issue data all_texts;
  _extract_nationality data combined_text.

End Extractors.

(** ** Scoring *)

Definition count_present (keys : list string) (data : DocumentRecord) : nat :=
  length (List.filter (fun k => truthy (get k data)) keys).

Definition important_fields : list string :=
  [ "passport_number"; "full_name"; "nationality"; "date_of_birth";
    "date_of_issue"; "date_of_expiry"; "sex"; "place_of_birth";
    "place_of_issue" ]%string.

Definition _calculate_score (data : DocumentRecord) : Q :=
  let extracted := count_present important_fields data in
  round2 ((inject_Z (Z.of_nat extracted)
           / inject_Z (Z.of_nat (length important_fields))) * 100)%Q.

Definition summary_fields : list string :=
  [ "passport_number"; "full_name"; "nationality"; "national_id";
    "date_of_birth"; "date_of_issue"; "date_of_expiry"; "sex";
    "place_of_birth"; "place_of_issue"; "country_code" ]%string.

Definition _generate_summary (data : DocumentRecord) : str :=
  let extracted := count_present summary_fields data in
  str_of_N (N.of_nat extracted) ++ u "/"
    ++ str_of_N (N.of_nat (length summary_fields)) ++ u " fields extracted".

(** ** MRZ fusion ([EnhancedMRZProcessor.enhance_extraction_with_mrz]) *)

(** MRZ key, record key *)
Definition field_mapping : list (string * string) :=
  [ ("passport_number", "passport_number");
    ("nationality", "nationality");
    ("date_of_birth", "date_of_birth");
    ("date_of_expiry", "date_of_expiry");
    ("sex", "sex");
    ("names", "full_name");
    ("issuing_country", "country_code") ]%string.

(** [mrz_data.get('mrz_confidence', 0.8)] *)
Definition mrz_confidence_or (dflt : Q) (mrz_data : MRZRecord) : Q :=
  default dflt (mrz_confidence mrz_data).

(** [mrz_data.get('extraction_method', dflt)] *)
Definition mrz_method_or (dflt : str) (mrz_data : MRZRecord) : str :=
  default dflt (mrz_method mrz_data).

(** The test that guards an override. *)
Definition overrides (mrz_data : MRZRecord) (enhanced_data : DocumentRecord)
           (extract_field : string) : bool :=
  let current_value := get extract_field enhanced_data in
  let current_confidence := default 0%Q (confidence_of extract_field enhanced_data) in
  let mrz_confidence := mrz_confidence_or (8 # 10) mrz_data in
  negb (truthy current_value) || Qltb current_confidence mrz_confidence.

(** One round of the loop over [field_mapping.items()]. *)
Definition fuse_field (mrz_data : MRZRecord) (enhanced_data : DocumentRecord)
           (entry : string * string) : DocumentRecord :=
  let mrz_field := fst entry in
  let extract_field := snd entry in
  let mrz_value := mrz_get mrz_field mrz_data in
  if truthy mrz_value then
    if overrides mrz_data enhanced_data extract_field then
      Doc (<[extract_field := mrz_value]> (fields enhanced_data))
          (Some (<[extract_field := mrz_confidence_or (8 # 10) mrz_data]>
                   (default ∅ (confidence_scores enhanced_data))))
          (Some (<[extract_field := mrz_method_or (u "mrz") mrz_data]>
                   (default ∅ (extraction_method enhanced_data))))
          (numbers enhanced_data)
    else enhanced_data
  else enhanced_data.

(** The copy made by the source is shallow: the two nested
    dictionaries of the argument are updated in place.  The embedding
    gives the record that is returned. *)
Definition enhance_extraction_with_mrz (extracted_data : DocumentRecord)
           (mrz_data : MRZRecord) : DocumentRecord :=
  let enhanced_data := fold_left (fuse_field mrz_data) field_mapping extracted_data in
  let enhanced_data := set_field "mrz_text" (mrz_get "mrz_text" mrz_data) enhanced_data in
  let enhanced_data :=
    set_number "mrz_confidence" (mrz_confidence_or 0 mrz_data) enhanced_data in
  set_field "mrz_extraction_method"
    (Some (mrz_method_or (u "none") mrz_data)) enhanced_data.

(** ** The engine ([UltraPassportExtractor.extract]) *)

Section Extract.
(** Images, the OCR passes and the MRZ resolver are external: a pass
    over one image returns its [(ocr_method, text)] observations and
    the token table it leaves in [self.ocr_confidence_data]. *)
Variable Image : Type.
Variable _multi_pass_extraction :
  OcrTable -> Image -> list (str * str) * OcrTable.
Variable extract_mrz_data : Image -> MRZRecord.

(** The loop over [preprocessed_images.items()]. *)
Fixpoint collect_texts (table : OcrTable)
         (preprocessed_images : list (str * Image))
  : list Observation * OcrTable :=
  match preprocessed_images with
  | [] => ([], table)
  | (preprocess_name, image) :: others =>
      let (texts, table) := _multi_pass_extraction table image in
      let named :=
        List.map (fun t => (preprocess_name ++ u "_" ++ fst t, snd t)) texts in
      let (later, table) := collect_texts table others in
      (named ++ later, table)
  end.

Definition extract (table : OcrTable)
           (preprocessed_images : list (str * Image)) : res DocumentRecord :=
  let (all_extracted_texts, table) := collect_texts table preprocessed_images in
  extracted_data ← _smart_field_extraction table all_extracted_texts;
  let extracted_data :=
    match preprocessed_images with
    | (_, main_image) :: _ =>
        let mrz_data := extract_mrz_data main_image in
        if truthy (mrz_get "mrz_text" mrz_data)
        then enhance_extraction_with_mrz extracted_data mrz_data
        else extracted_data
    | [] => extracted_data
    end in
  let extracted_data :=
    set_number "extraction_score" (_calculate_score extracted_data)
               extracted_data in
  Ok (set_field "extraction_summary"
                (Some (_generate_summary extracted_data)) extracted_data).

End Extract.

(** ** The date parser ([PassportPatterns.parse_date_string]) *)

(** [(\d{1,2})-(\d{1,2})-(\d{4})] and [(\d{4})-(\d{1,2})-(\d{1,2})] *)
Definition dmy_pattern : regex := Eval vm_compute in
  seqs [Grp 1 (rep dg 1 2); c_ "-"; Grp 2 (rep dg 1 2); c_ "-";
        Grp 3 (rep_n dg 4)].
Definition ymd_pattern : regex := Eval vm_compute in
  seqs [Grp 1 (rep_n dg 4); c_ "-"; Grp 2 (rep dg 1 2); c_ "-";
        Grp 3 (rep dg 1 2)].

Inductive date_format := DD_MM_YYYY | MM_DD_YYYY | YYYY_MM_DD.

Definition formats_to_try : list (regex * date_format) :=
  [ (dmy_pattern, DD_MM_YYYY); (dmy_pattern, MM_DD_YYYY);
    (ymd_pattern, YYYY_MM_DD) ].

(** [/+] *)
Definition slashes : regex := Eval vm_compute in plus (c_ "/").

Section ParseDate.
(** The attribute [self.validate_date]: [Raise (AttributeError _)] when
    the class does not define it. *)
Variable validate_date : res (Z -> Z -> Z -> bool).

Fixpoint try_formats (formats : list (regex * date_format)) (date_str : str)
  : res (option (Z * Z * Z)) :=
  match formats with
  | [] => Ok None
  | (pattern, format_type) :: others =>
      match re_match false pattern date_str with
      | Some m =>
          match group m 1 ≫= py_int, group m 2 ≫= py_int,
                group m 3 ≫= py_int with
          | Some g1, Some g2, Some g3 =>
              let '(day, month, year) :=
                match format_type with
                | DD_MM_YYYY => (g1, g2, g3)
                | MM_DD_YYYY => (g2, g1, g3)
                | YYYY_MM_DD => (g3, g2, g1)
                end in
              match validate_date with
              | Raise e => Raise e
              | Ok validate =>
                  if validate day month year then Ok (Some (day, month, year))
                  else try_formats others date_str
              end
          | _, _, _ => try_formats others date_str   (* ValueError *)
          end
      | None => try_formats others date_str
      end
  end.

Definition parse_date_string_with (date_str : str) : res (option (Z * Z * Z)) :=
  let date_str := re_sub false spaces_or_dots (u "-") (strip date_str) in
  let date_str := re_sub false slashes (u "-") date_str in
  try_formats formats_to_try date_str.
End ParseDate.

(** [PassportPatterns] has no method [validate_date]: the lookup of
    [self.validate_date] raises [AttributeError], which the handler for
    [(ValueError, IndexError)] does not catch. *)
Definition validate_date_attribute : res (Z -> Z -> Z -> bool) :=
  Raise (AttributeError "validate_date").

Definition parse_date_string : str -> res (option (Z * Z * Z)) :=
  parse_date_string_with validate_date_attribute.

(** ** Dates of the MRZ ([_format_date]) *)

(** [int(s)] for any string: blanks around, an optional sign, decimal
    digits of any script with single underscores between them; [None]
    stands for [ValueError].  A blank is an ASCII blank or a blank
    beyond ASCII; the separators U+001C to U+001F are not blanks there.
    (The bound on the number of digits does not matter here: the strings
    converted by the processor have two characters.) *)
Definition is_int_space (c : char) : bool :=
  in_range 9 13 c || (c =? 32) || ((127 <? c) && is_space c).

(** The digits after the first one: a digit, or an underscore followed
    by a digit. *)
Fixpoint int_tail (acc : N) (s : str) : option (N * str) :=
  match s with
  | c :: s' =>
      match decimal_value c with
      | Some d => int_tail (acc * 10 + d) s'
      | None =>
          if c =? 95 then
            match s' with
            | c' :: s'' =>
                match decimal_value c' with
                | Some d => int_tail (acc * 10 + d) s''
                | None => None
                end
            | [] => None
            end
          else Some (acc, s)
      end
  | [] => Some (acc, [])
  end.

Definition int_magnitude (s : str) : option N :=
  match s with
  | c :: s' =>
      match decimal_value c with
      | Some d =>
          match int_tail d s' with
          | Some (n, after) => if forallb is_int_space after then Some n else None
          | None => None
          end
      | None => None
      end
  | [] => None
  end.

Fixpoint skip_int_space (s : str) : str :=
  match s with
  | c :: s' => if is_int_space c then skip_int_space s' else s
  | [] => []
  end.

Definition int_of_str (s : str) : option Z :=
  match skip_int_space s with
  | c :: s' =>
      if c =? 43 then option_map Z.of_N (int_magnitude s')
      else if c =? 45 then option_map (fun n => (- Z.of_N n)%Z) (int_magnitude s')
      else option_map Z.of_N (int_magnitude (c :: s'))
  | [] => None
  end.

(** [date_str[i:j]] *)
Definition slice (i j : nat) (s : str) : str := firstn (j - i) (skipn i s).

(** [_format_date]: from [YYMMDD] to [DD-MM-YYYY]; the three calls of
    [int] are guarded by [except (ValueError, IndexError)]. *)
Definition _format_date (date_str : str) : option str :=
  if negb (Nat.eqb (length date_str) 6) then None
  else
    match int_of_str (slice 0 2 date_str), int_of_str (slice 2 4 date_str),
          int_of_str (slice 4 6 date_str) with
    | Some yy, Some mm, Some dd =>
        let yyyy := if (yy <? 30)%Z then (2000 + yy)%Z else (1900 + yy)%Z in
        if ((1 <=? mm) && (mm <=? 12) && (1 <=? dd) && (dd <=? 31))%Z
        then Some (format_date dd mm yyyy)
        else None
    | _, _, _ => None
    end.

(** ** Reading the MRZ ([_parse_mrz_text], [_calculate_mrz_confidence]) *)

(** [s.split(sep)] for a separator of two characters [a], [b]: the text
    is cut at the occurrences found from left to right, an occurrence
    starting where the one before it has ended. *)
Fixpoint split_on2_aux (a b : char) (cur : str) (s : str) : list str :=
  match s with
  | [] => [rev cur]
  | x :: s' =>
      match s' with
      | y :: s'' =>
          if (x =? a) && (y =? b) then rev cur :: split_on2_aux a b [] s''
          else split_on2_aux a b (x :: cur) s'
      | [] => [rev (x :: cur)]
      end
  end.

Definition split_on2 (a b : char) (s : str) : list str := split_on2_aux a b [] s.

(** [P<([A-Z]{3})] *)
Definition mrz_country : regex :=
  Seq (Cls [CChr 80]) (Seq (Cls [CChr 60]) (Grp 1 (Rep (Cls [CRng 65 90]) 3 (Some 3%nat)))).

(** The entries that the first line contributes to [parsed]. *)
Definition parse_mrz_line1 (line1 : str) (parsed : gmap string (option str))
  : gmap string (option str) :=
  if starts_with (u "P<") line1 then
    let parsed :=
      match re_match false mrz_country line1 with
      | Some country_match => <["issuing_country" := group country_match 1]> parsed
      | None => parsed
      end in
    let name_part := skipn 5 line1 in
    match split_on2 60 60 name_part with
    | p0 :: p1 :: _ =>
        let surname := strip (replace_char 60 (u " ") p0) in
        let given_names := strip (replace_char 60 (u " ") p1) in
        <["names" := Some (strip (given_names ++ u " " ++ surname))]> parsed
    | _ => parsed
    end
  else parsed.

(** [date and date != '<<<<<<'], for a slice of at most six characters. *)
Definition date_is_given (date : str) : bool :=
  negb (str_eqb date []) && negb (str_eqb date (u "<<<<<<")).

(** The entries that the second line contributes to [parsed]. *)
Definition parse_mrz_line2 (line2 : str) (parsed : gmap string (option str))
  : gmap string (option str) :=
  if (44 <=? length line2)%nat then
    let doc_num := replace_char 60 [] (slice 0 9 line2) in
    let parsed :=
      match doc_num with
      | [] => parsed
      | _ => <["passport_number" := Some doc_num]> parsed
      end in
    let birth_date := slice 13 19 line2 in
    let parsed :=
      if date_is_given birth_date
      then <["date_of_birth" := _format_date birth_date]> parsed
      else parsed in
    let sex := slice 20 21 line2 in
    let parsed :=
      if str_in sex [u "M"; u "F"] then <["sex" := Some sex]> parsed else parsed in
    let expiry_date := slice 21 27 line2 in
    if date_is_given expiry_date
    then <["date_of_expiry" := _format_date expiry_date]> parsed
    else parsed
  else parsed.

(** [_parse_mrz_text]; no statement of its [try] block can raise: the
    indices are within the lines, whose lengths are tested first. *)
Definition _parse_mrz_text (mrz_text : str) : gmap string (option str) :=
  match split_on newline mrz_text with
  | line1 :: line2 :: _ => parse_mrz_line2 line2 (parse_mrz_line1 line1 ∅)
  | _ => ∅
  end.

(** [_calculate_mrz_confidence] *)
Definition mrz_confidence_fields : list string :=
  ["passport_number"; "nationality"; "date_of_birth"; "date_of_expiry";
   "sex"; "names"]%string.

Definition filled_fields (mrz_data : MRZRecord) : nat :=
  length (List.filter (fun field => truthy (mrz_get field mrz_data))
                      mrz_confidence_fields).

Definition _calculate_mrz_confidence (mrz_data : MRZRecord) : Q :=
  let base_confidence :=
    (inject_Z (Z.of_nat (filled_fields mrz_data))
     / inject_Z (Z.of_nat (length mrz_confidence_fields)))%Q in
  let base_confidence :=
    if truthy (mrz_get "mrz_text" mrz_data)
    then (base_confidence + (2 # 10))%Q else base_confidence in
  let base_confidence :=
    match mrz_method mrz_data with
    | Some method =>
        if str_eqb method (u "fastmrz")
        then (base_confidence + (1 # 10))%Q else base_confidence
    | None => base_confidence
    end in
  min_one base_confidence.

(** The record with which [extract_mrz_data] starts. *)
Definition empty_mrz_data : MRZRecord :=
  MRZ (list_to_map
         (List.map (fun k => (k, None))
                   ["mrz_text"; "passport_number"; "nationality"; "date_of_birth";
                    "date_of_expiry"; "sex"; "names"; "document_type";
                    "issuing_country"]%string))
      (Some 0%Q) (Some (u "none")).

(** [_extract_with_fallback] from the point where the OCR of the MRZ
    region has returned [mrz_text] ([None] when no region or no text was
    found): the text is recorded and parsed, and the confidence is
    computed from the record so far. *)
Definition fallback_with_text (mrz_text : option str) (mrz_data : MRZRecord)
  : MRZRecord :=
  if truthy mrz_text then
    let fields := <["mrz_text" := mrz_text]> (mrz_fields mrz_data) in
    let parsed_data := _parse_mrz_text (default [] mrz_text) in
    let mrz_data :=
      MRZ (parsed_data ∪ fields) (mrz_confidence mrz_data)
          (Some (u "fallback_ocr")) in
    MRZ (mrz_fields mrz_data) (Some (_calculate_mrz_confidence mrz_data))
        (mrz_method mrz_data)
  else mrz_data.

(** * Vocabulary of the properties

    The notions in which the properties are stated and proved: the
    declarative meaning of a pattern, the static facts about patterns
    that the proofs compute, the passport-number language, and the inputs
    of the worked examples. *)

(** ** Meaning of a pattern *)

(** A location in the text: the offset and the text from there on. *)
Definition loc : Type := nat * str.
Definition loc_of (st : mstate) : loc := (pos st, rest st).

(** [sem icase r p q]: [r] can match the text between locations [p] and
    [q].  This is the declarative reading of a pattern, with no
    reference to the order in which a matcher explores it. *)
Inductive sem (icase : bool) : regex -> loc -> loc -> Prop :=
| sem_eps p : sem icase Eps p p
| sem_cls cs i c s :
    cls_match icase cs c = true -> sem icase (Cls cs) (i, c :: s) (S i, s)
| sem_seq a b p q r :
    sem icase a p q -> sem icase b q r -> sem icase (Seq a b) p r
| sem_alt_l a b p q : sem icase a p q -> sem icase (Alt a b) p q
| sem_alt_r a b p q : sem icase b p q -> sem icase (Alt a b) p q
| sem_rep_stop a hi p : sem icase (Rep a 0 hi) p p
| sem_rep_more a lo hi p q r :
    hi_allows hi = true ->
    sem icase a p q ->
    (length (snd q) < length (snd p))%nat ->
    sem icase (Rep a (Nat.pred lo) (hi_pred hi)) q r ->
    sem icase (Rep a lo hi) p r
| sem_grp i a p q : sem icase a p q -> sem icase (Grp i a) p q
| sem_bol s : sem icase Bol (O, s) (O, s)
| sem_eol i : sem icase Eol (i, []) (i, [])
| sem_eol_nl i : sem icase Eol (i, [newline]) (i, [newline]).

(** ** Static facts about a pattern *)

(** The bodies of the groups numbered [i] in a pattern. *)
Fixpoint group_bodies (i : nat) (r : regex) : list regex :=
  match r with
  | Seq a b | Alt a b => group_bodies i a ++ group_bodies i b
  | Rep a _ _ => group_bodies i a
  | Grp j a => (if Nat.eqb i j then [a] else []) ++ group_bodies i a
  | _ => []
  end.

(** [g] is a piece of text matched by one of the patterns [bs]. *)
Definition word_of (icase : bool) (bs : list regex) (g : str) : Prop :=
  exists a p q, In a bs /\ sem icase a p q /\ snd p = g ++ snd q.

(** Group [i] is set by every match of the pattern. *)
Fixpoint defines (i : nat) (r : regex) : bool :=
  match r with
  | Seq a b => defines i a || defines i b
  | Alt a b => defines i a && defines i b
  | Rep a lo _ => (0 <? lo)%nat && defines i a
  | Grp j a => Nat.eqb i j || defines i a
  | _ => false
  end.

Definition captured (i : nat) (st : mstate) : Prop :=
  cap_lookup i (caps st) <> None.

Definition within (hi : option nat) (n : nat) : Prop :=
  match hi with Some h => (n <= h)%nat | None => True end.

(** May the pattern match the empty string?  A repetition with a
    positive lower bound cannot, since every round consumes input. *)
Fixpoint nullable (r : regex) : bool :=
  match r with
  | Cls _ => false
  | Seq a b => nullable a && nullable b
  | Alt a b => nullable a || nullable b
  | Rep _ lo _ => Nat.eqb lo 0
  | Grp _ a => nullable a
  | _ => true
  end.

(** May a match of the pattern end with one of the characters [bad]? *)
Fixpoint ends_in (icase : bool) (bad : list char) (r : regex) : bool :=
  match r with
  | Cls cs => existsb (cls_match icase cs) bad
  | Seq a b => ends_in icase bad b || (nullable b && ends_in icase bad a)
  | Alt a b => ends_in icase bad a || ends_in icase bad b
  | Rep a _ _ | Grp _ a => ends_in icase bad a
  | _ => false
  end.

(** The text is empty or its last character is not in [bad]. *)
Definition clean_end (bad : list char) (w : str) : Prop :=
  w = [] \/ exists w' c, w = w' ++ [c] /\ ~ In c bad.

(** ** Characters *)

(** A character that is not a letter has no other variant. *)
Definition caseless (x : char) : Prop :=
  x < 65 \/ 90 < x < 97 \/ (122 < x /\ x <> 304 /\ x <> 305 /\ x <> 383 /\ x <> 8490).

(** ** Passport numbers *)

(** The regular language [[A-Z]?[0-9]{8,9}], written out directly. *)
Definition all_digits_09 (s : str) : bool := forallb is_digit_09 s.

Definition eight_or_nine (n : nat) : bool := Nat.eqb n 8 || Nat.eqb n 9.

Definition in_passport_language (v : str) : bool :=
  (all_digits_09 v && eight_or_nine (length v))
  || match v with
     | c :: ds => is_upper_AZ c && all_digits_09 ds && eight_or_nine (length ds)
     | [] => false
     end.

(** What [normalize_passport] does to one character. *)
Definition norm_char (c : char) : str :=
  if c =? 79 then [48] else if c =? 32 then [] else [upper_char c].

(** The blanks with which a candidate must not end: the space, which
    normalization removes, and the line feed, which [$] tolerates. *)
Definition blank_end : list char := [32; newline].

(** The text selected by [group1_or_0] cannot end with a blank. *)
Definition candidate_ends_clean (r : regex) : bool :=
  if (0 <? ngroups r)%nat
  then forallb (fun a => negb (ends_in true blank_end a)) (group_bodies 1 r)
  else negb (ends_in true blank_end r).

(** Group 1 takes part in every match of the pattern, if it has groups. *)
Definition candidate_defined (r : regex) : bool :=
  Nat.eqb (ngroups r) 0 || defines 1 r.

(** The first and the eleventh pattern of the catalog:
    [P\s*[0-9]{8,9}] and [P\s*[0-9]{8}\s*[0-9]?]. *)
Definition pattern_P_digits : regex :=
  Seq (Cls [CChr 80])
      (Seq (Rep (Cls [CSpace]) 0 None) (Rep (Cls [CRng 48 57]) 8 (Some 9%nat))).

Definition pattern_P_digits_blank : regex :=
  Seq (Cls [CChr 80])
      (Seq (Rep (Cls [CSpace]) 0 None)
           (Seq (Rep (Cls [CRng 48 57]) 8 (Some 8%nat))
                (Seq (Rep (Cls [CSpace]) 0 None)
                     (Rep (Cls [CRng 48 57]) 0 (Some 1%nat))))).

(** The candidates of one text, in the order in which the loops visit
    them: by pattern, then by position of the match. *)
Definition passport_candidates_of_pattern (p : regex) (text : str) : list str :=
  flat_map (fun m => match group1_or_0 p m with
                     | Some g => [normalize_passport g]
                     | None => []
                     end)
           (finditer true p text).

Definition passport_candidates (text : str) : list str :=
  flat_map (fun p => passport_candidates_of_pattern p text)
           PassportPatterns.passport_number.

(** The first candidate that passes the validation. *)
Definition first_accepted (candidates : list str) : option str :=
  List.find passport_number_ok candidates.

(** An observation list with passport numbers in its second and in its
    fifth observation. *)
Definition C4_observations_before : list Observation :=
  [ (u "original_standard", u "REPUBLIC OF THE SUDAN") ].

Definition C4_observations_after : list Observation :=
  [ (u "original_uniform_block", u "Type PC");
    (u "original_eng_lang", u "Sex M");
    (u "original_region_bottom", u "P<SDN B00013285") ].

(** ** Confidence model *)

(** An OCR token corroborates a value when, stripped and upper-cased, it
    is one of the whitespace-delimited words of the upper-cased value. *)
Definition corroborates (value text : str) : bool :=
  str_in (upper (strip text)) (split_ws (upper value)).

(** No token of the table corroborates the value. *)
Definition uncorroborated (table : OcrTable) (value : str) : Prop :=
  forall k dat text,
    In (k, dat) table -> In text (ocr_text dat) -> corroborates value text = false.

Definition is_nil {A : Type} (l : list A) : bool :=
  match l with [] => true | _ => false end.

(** A token table that holds tokens, none of them a passport number. *)
Definition C1_table : OcrTable :=
  [(u "140230", OcrData [u "REPUBLIC"; u "SUDAN"] [ConfInt 91; ConfInt 88])].

(** ** Fusion *)

(** What the record holds about one field: its entry, its recorded
    confidence and its recorded method. *)
Definition view (f : string) (data : DocumentRecord)
  : option (option str) * option Q * option str :=
  (fields data !! f, confidence_of f data, method_of f data).

Definition mapped_fields : list string := List.map snd field_mapping.

(** The first example of the specification: [sex] is null in the draft
    record and the MRZ supplies M with confidence 0.7. *)
Definition C7_draft : DocumentRecord := empty_record.

Definition C7_mrz : MRZRecord :=
  MRZ (<["sex" := Some (u "M")]> (<["mrz_text" := Some (u "P<SDN")]> ∅))
      (Some (7 # 10)%Q) (Some (u "fallback_ocr")).

(** The second example of the specification: a recorded confidence of
    0.9 is not overridden by an MRZ confidence of 0.7. *)
Definition draft_with_sex_F : DocumentRecord :=
  Doc (<["sex" := Some (u "F")]> (fields empty_record))
      (Some {["sex" := (9 # 10)%Q]}) (Some {["sex" := u "regex_search"]}) ∅.

(** ** Majority vote *)

(** Number of occurrences of a candidate. *)
Definition count (x : str) (xs : list str) : nat :=
  length (List.filter (str_eqb x) xs).

Definition keys (c : list (str * nat)) : list str := List.map fst c.

(** The count that a counter holds for [x]. *)
Definition counted (x : str) (c : list (str * nat)) : nat :=
  match List.find (fun p => str_eqb x (fst p)) c with
  | Some p => snd p
  | None => O
  end.

(** The example of the specification, run through the whole extractor
    on three observations. *)
Definition place_observations : list Observation :=
  [ (u "original_standard", u "Place of Issue: KHARTOUM");
    (u "enhanced_standard", u "Place of Issue : RIYADH");
    (u "binarized_standard", u "place of issue KHARTOUM") ].

(** The labels that the two place extractors pass to [_extract_place]. *)
Definition place_of_birth_labels : list str :=
  [u "Place of Birth"; u "مكان الميلاد"].

Definition place_of_issue_labels : list str :=
  [u "Place of Issue"; u "Authority"; u "مكان الإصدار"; u "جهة الإصدار"].

(** The characters that have a meaning of their own in a pattern; a
    label without them stands for itself when it is interpolated. *)
Definition is_metachar (c : char) : bool :=
  existsb (N.eqb c) [46; 94; 36; 42; 43; 63; 123; 125; 91; 93; 92; 124; 40; 41].

Definition literal_label (label : str) : bool :=
  forallb (fun c => negb (is_metachar c)) label.

(** The candidate that one match contributes to the vote: the
    cleaned-up text of its second group when it passes the filter. *)
Definition surviving_candidate (m : Match) : list str :=
  match place_candidate m with
  | Ok (Some c) => [c]
  | _ => []
  end.

(** The votes cast by one text: for every label in turn, the surviving
    candidates of the matches of its pattern, from left to right. *)
Definition votes_of_text (labels : list str) (text : str) : list str :=
  flat_map (fun label =>
              flat_map surviving_candidate
                       (finditer true (place_pattern label) text))
           labels.

(** The pool of the vote: the votes of every observation, in the order
    of the observations. *)
Definition place_pool (labels : list str) (all_texts : list Observation)
  : list str :=
  flat_map (fun o => votes_of_text labels (snd o)) all_texts.

(** [outcome] is the result of a majority vote over [pool]: nothing for
    an empty pool; otherwise a candidate with the largest number of
    votes, every candidate cast before its first vote having strictly
    fewer. *)
Definition majority_vote (pool : list str) (outcome : res (option (str * str)))
  : Prop :=
  match pool with
  | [] => outcome = Ok None
  | _ :: _ =>
      exists winner l1 l2,
        outcome = Ok (Some (winner, u "regex_candidate_selection"))
        /\ (forall c, (count c pool <= count winner pool)%nat)
        /\ pool = l1 ++ winner :: l2
        /\ (forall c, In c l1 -> (count c pool < count winner pool)%nat)
  end.

(** The example of the specification: three observations that cast
    the votes KHARTOUM, KHARTOUM and RIYADH, in this order. *)
Definition place_votes : list Observation :=
  [ (u "original_standard", u "Place of Issue: KHARTOUM");
    (u "binarized_standard", u "place of issue KHARTOUM");
    (u "enhanced_standard", u "Place of Issue : RIYADH") ].

(** ** Dates *)

(** The distinct elements of a list of dates. *)
Definition distinct (l : list str) : list str := List.nodup list_eq_dec l.

(** Matches that follow one another without overlap. *)
Fixpoint matches_in_order (ms : list Match) : Prop :=
  match ms with
  | a :: ((b :: _) as later) => (m_end a <= m_start b)%nat /\ matches_in_order later
  | _ => True
  end.

(** [(\d{1,2})\.(\d{1,2})\.(\d{4})], the one pattern of the catalog. *)
Definition date_pattern : regex :=
  Seq (Grp 1 (Rep (Cls [CDigit]) 1 (Some 2%nat)))
      (Seq (Cls [CChr 46])
           (Seq (Grp 2 (Rep (Cls [CDigit]) 1 (Some 2%nat)))
                (Seq (Cls [CChr 46])
                     (Grp 3 (Rep (Cls [CDigit]) 4 (Some 4%nat)))))).

(** A date written in a text: the offset of its first digit and its
    three runs of digits. *)
Record written_date := Written {
  wd_offset : nat;
  wd_day : str;
  wd_month : str;
  wd_year : str
}.

Definition wd_text (w : written_date) : str :=
  wd_day w ++ [46] ++ wd_month w ++ [46] ++ wd_year w.

Definition wd_end (w : written_date) : nat :=
  (wd_offset w + length (wd_text w))%nat.

(** The digits of a written date have the expected form: one or two
    digits, one or two digits, four digits. *)
Definition date_shaped (w : written_date) : Prop :=
  forallb is_decimal (wd_day w ++ wd_month w ++ wd_year w) = true
  /\ (1 <= length (wd_day w) <= 2)%nat
  /\ (1 <= length (wd_month w) <= 2)%nat
  /\ length (wd_year w) = 4%nat.

(** At its offset the text reads the day, a dot, the month, a dot and
    the year. *)
Definition written_at (text : str) (w : written_date) : Prop :=
  date_shaped w
  /\ exists pre post,
       text = pre ++ wd_text w ++ post /\ length pre = wd_offset w.

(** The dates of a list follow one another in the text, without
    overlap. *)
Fixpoint in_text_order (ws : list written_date) : Prop :=
  match ws with
  | a :: ((b :: _) as later) => (wd_end a <= wd_offset b)%nat /\ in_text_order later
  | _ => True
  end.

(** The date that the digits denote, formatted, when it is valid: a
    day from 1 to 31, a month from 1 to 12, a year from 1900 to 2100. *)
Definition reading (w : written_date) : option str :=
  match py_int (wd_day w), py_int (wd_month w), py_int (wd_year w) with
  | Some day, Some month, Some year =>
      if ((1 <=? day) && (day <=? 31) && (1 <=? month) && (month <=? 12)
          && (1900 <=? year) && (year <=? 2100))%Z
      then Some (format_date day month year)
      else None
  | _, _, _ => None
  end.

Definition valid_readings (ws : list written_date) : list str :=
  flat_map (fun w => match reading w with Some s => [s] | None => [] end) ws.

(** The date that a match of the date pattern spans. *)
Definition written_of (m : Match) : written_date :=
  Written (m_start m) (default [] (group m 1)) (default [] (group m 2))
          (default [] (group m 3)).

(** The dates that the scan of a text reports. *)
Definition found_dates (text : str) : list written_date :=
  List.map written_of (finditer false date_pattern text).

(** [found] is the scan of [text] for dates: each of its dates is written
    in the text at its offset; they follow one another from left to
    right without overlap; and a date written in the text is missing
    only when it begins inside one of them. *)
Definition scan_of (text : str) (found : list written_date) : Prop :=
  Forall (written_at text) found
  /\ in_text_order found
  /\ (forall w, written_at text w ->
        exists f, In f found
                  /\ (f = w \/ (wd_offset f < wd_offset w < wd_end f)%nat)).

(** Each date of [l] is one of [l'] or begins inside one of them. *)
Definition covered_by (l l' : list written_date) : Prop :=
  forall w, In w l ->
    exists f, In f l' /\ (f = w \/ (wd_offset f < wd_offset w < wd_end f)%nat).

(** The code points that [\d] accepts, listed. *)
Definition decimal_chars : list char :=
  flat_map (fun z => List.map (fun k => z + N.of_nat k) (seq 0 10)) decimal_zeros.

(** A page that prints the expiry first and the birth second. *)
Definition dates_out_of_order : str :=
  u "Expiry 28.02.2030 Birth 15.06.1985 Issue 01.03.2020".

(** One observation with a national number, a date and the name of
    the country. *)
Definition C8_observations : list Observation :=
  [ (u "original_standard",
     u "REPUBLIC OF THE SUDAN" ++ [newline] ++ u "National No 242-9135-0472"
       ++ [newline] ++ u "15.06.1985") ].

(** The ranges of a valid date. *)
Definition days : list Z := List.map Z.of_nat (seq 1 31).
Definition months : list Z := List.map Z.of_nat (seq 1 12).
Definition years : list Z := List.map Z.of_nat (seq 1900 201).

(** The string that [parse_date_string] matches its formats against. *)
Definition cleaned (date_str : str) : str :=
  re_sub false slashes (u "-")
         (re_sub false spaces_or_dots (u "-") (strip date_str)).

(** The first format matches the formatted date and its three groups
    convert back to the triple. *)
Definition first_format_reads (day month year : Z) : bool :=
  match re_match false dmy_pattern (cleaned (format_date day month year)) with
  | Some m =>
      match group m 1 ≫= py_int, group m 2 ≫= py_int, group m 3 ≫= py_int with
      | Some g1, Some g2, Some g3 =>
          ((g1 =? day) && (g2 =? month) && (g3 =? year))%Z
      | _, _, _ => false
      end
  | None => false
  end.

(** ** Further vocabulary *)

(** What [re.sub] with a one-character class makes of one character. *)
Definition sub_char (icase : bool) (cs : list citem) (repl : str) (c : char) : str :=
  if cls_match icase cs c then repl else [c].

(** The form [DDD-DDDD-DDDD] or [DDD-DDDD-DDDDD], where D is a decimal
    digit of any script. *)
Definition national_id_form (v : str) : Prop :=
  exists a b c,
    v = a ++ u "-" ++ b ++ u "-" ++ c
    /\ forallb is_decimal (a ++ b ++ c) = true
    /\ length a = 3%nat /\ length b = 4%nat
    /\ (length c = 4%nat \/ length c = 5%nat).

(** A probability. *)
Definition unit_interval (q : Q) : Prop := (0 <= q /\ q <= 1)%Q.

(** ** Draft records *)

(** The two nested dictionaries are present. *)
Definition has_tables (d : DocumentRecord) : Prop :=
  confidence_scores d <> None /\ extraction_method d <> None.

(** [writes ok d d']: [d'] is [d] after a series of assignments: a
    non-empty value [v] to a field [k], where [ok k v]; a confidence
    between 0 and 1, or a method, to a field that holds such a value. *)
Inductive writes (ok : string -> str -> Prop)
  : DocumentRecord -> DocumentRecord -> Prop :=
| writes_nothing d : writes ok d d
| writes_field d d' k v :
    writes ok d d' -> ok k v -> v <> [] ->
    writes ok d (set_field k (Some v) d')
| writes_confidence d d' d'' k v q :
    writes ok d d' -> ok k v -> get k d' = Some v -> v <> [] ->
    unit_interval q ->
    set_confidence k q d' = Ok d'' ->
    writes ok d d''
| writes_method d d' d'' k v m :
    writes ok d d' -> ok k v -> get k d' = Some v -> v <> [] ->
    set_method k m d' = Ok d'' ->
    writes ok d d''.

(** Every recorded confidence is a probability and belongs, like every
    recorded method, to a field that holds a value. *)
Definition scores_sound (d : DocumentRecord) : Prop :=
  (forall k q, confidence_of k d = Some q ->
               truthy (get k d) = true /\ unit_interval q)
  /\ (forall k m, method_of k d = Some m -> truthy (get k d) = true).

(** A date as the engine writes it: [DD-MM-YYYY] with the day, the
    month and the year in the given ranges. *)
Definition canonical_date (ylo yhi : Z) (s : str) : Prop :=
  exists day month year,
    s = format_date day month year
    /\ (1 <= day <= 31)%Z /\ (1 <= month <= 12)%Z /\ (ylo <= year <= yhi)%Z.

(** The filter of [_extract_place]. *)
Definition place_ok (c : str) : bool :=
  in_open_range 3 25 (length c)
  && negb (str_in c PassportPatterns.non_name_words).

(** What each extractor may store, as a relation between a key and a
    value. *)
Definition passport_number_value (k : string) (v : str) : Prop :=
  k = "passport_number"%string /\ in_passport_language v = true.

Definition national_id_value (k : string) (v : str) : Prop :=
  k = "national_id"%string /\ national_id_form v.

Definition date_keys : list string :=
  ["date_of_birth"; "date_of_issue"; "date_of_expiry"]%string.

Definition date_value (k : string) (v : str) : Prop :=
  In k date_keys /\ canonical_date 1900 2100 v.

Definition name_value (all_texts : list Observation) (k : string) (v : str)
  : Prop :=
  k = "full_name"%string
  /\ name_ok v = true
  /\ (exists source, In (v, source) (name_candidates all_texts))
  /\ (forall c, In c (name_candidates all_texts) ->
                (length (fst c) <= length v)%nat).

Definition sex_value (k : string) (v : str) : Prop :=
  k = "sex"%string /\ (v = u "M" \/ v = u "F").

Definition place_value (k : string) (v : str) : Prop :=
  (k = "place_of_birth"%string \/ k = "place_of_issue"%string)
  /\ place_ok v = true.

Definition nationality_value (k : string) (v : str) : Prop :=
  (k = "nationality"%string /\ v = u "SUDANESE")
  \/ (k = "country_code"%string /\ v = u "SDN")
  \/ (k = "passport_type"%string /\ v = u "PC").

(** The values of the fields that are read from the text before the
    nationality. *)
Definition text_value (all_texts : list Observation) (k : string) (v : str)
  : Prop :=
  passport_number_value k v \/ national_id_value k v \/ date_value k v
  \/ name_value all_texts k v \/ sex_value k v \/ place_value k v.

Definition draft_value (all_texts : list Observation) (k : string) (v : str)
  : Prop :=
  text_value all_texts k v \/ nationality_value k v.

(** [combined_text] of [_smart_field_extraction]. *)
Definition combined_text (all_texts : list Observation) : str :=
  join [newline] (List.map snd all_texts).


(** ** Dates of the MRZ *)

(** The six digits [YYMMDD] of a date. *)
Definition mrz_date (day month year : Z) : str :=
  fmt_02d (Z.to_N (year mod 100)) ++ fmt_02d (Z.to_N month)
    ++ fmt_02d (Z.to_N day).

(** The year that [_format_date] reads back: two digits below 30 are
    taken to the years 2000 to 2029, the others to 1930 to 1999. *)
Definition century_window (year : Z) : Z :=
  if (year mod 100 <? 30)%Z then (2000 + year mod 100)%Z
  else (1900 + year mod 100)%Z.

(** ** Records of the MRZ *)

(** What [_parse_mrz_text] may store under a key: three capital
    letters for the country; names without a filler; a non-empty
    document number of at most nine characters without a filler; a date
    of the window 1930 to 2029, or null; M or F. *)
Definition parsed_value (k : string) (v : option str) : Prop :=
  (k = "issuing_country"%string
   /\ exists c, v = Some c /\ length c = 3%nat /\ forallb is_upper_AZ c = true)
  \/ (k = "names"%string /\ exists n, v = Some n /\ ~ In 60 n)
  \/ (k = "passport_number"%string
      /\ exists n, v = Some n /\ n <> [] /\ (length n <= 9)%nat /\ ~ In 60 n)
  \/ ((k = "date_of_birth"%string \/ k = "date_of_expiry"%string)
      /\ (v = None \/ exists d, v = Some d /\ canonical_date 1930 2029 d))
  \/ (k = "sex"%string /\ (v = Some (u "M") \/ v = Some (u "F"))).

(** Every entry of a parsed record is such a value. *)
Definition parsed_ok (parsed : gmap string (option str)) : Prop :=
  forall k v, parsed !! k = Some v -> parsed_value k v.

(** The two lines of a machine-readable zone. *)
Definition mrz_sample : str :=
  u "P<SDNELTAYEB<<AHMED<MOHAMED<<<<<<<<<<<<<<<<<" ++ [newline]
    ++ u "P012345674SDN8506159M3103010<<<<<<<<<<<<<<04".

(** The second line of the MRZ of a passport: the document number (9
    characters), a check digit, the nationality (3), the date of birth
    (6), a check digit, the sex (1), the date of expiry (6), and the rest
    of the line (17 characters or more). *)
Definition mrz_line2 (number check1 nationality birth check2 sex expiry rest : str)
  : str :=
  number ++ check1 ++ nationality ++ birth ++ check2 ++ sex ++ expiry ++ rest.

Definition mrz_line2_shaped
           (number check1 nationality birth check2 sex expiry rest : str) : Prop :=
  length number = 9%nat /\ length check1 = 1%nat /\ length nationality = 3%nat
  /\ length birth = 6%nat /\ length check2 = 1%nat /\ length sex = 1%nat
  /\ length expiry = 6%nat /\ (17 <= length rest)%nat.

(** * Properties *)

(** ** The matcher and the language of a pattern *)

Lemma in_flat_map_iff {A B : Type} (f : A -> list B) (l : list A) (y : B) :
  In y (flat_map f l) <-> exists x, In x l /\ In y (f x).
Proof. apply List.in_flat_map. Qed.

Lemma rep_run_fuel step : forall f1 f2 lo hi st,
  (length (rest st) < f1)%nat -> (length (rest st) < f2)%nat ->
  rep_run step f1 lo hi st = rep_run step f2 lo hi st.
Proof.
  induction f1 as [|f1 IH]; intros f2 lo hi st H1 H2; [lia|].
  destruct f2 as [|f2]; [lia|]. cbn [rep_run].
  f_equal. destruct (hi_allows hi); [|reflexivity].
  apply List.flat_map_ext. intros st'.
  destruct (Nat.ltb_spec (length (rest st')) (length (rest st))); [|reflexivity].
  apply IH; lia.
Qed.

Lemma run_rep_eq icase a lo hi st :
  run icase (Rep a lo hi) st
  = rep_run (run icase a) (S (length (rest st))) lo hi st.
Proof. reflexivity. Qed.

(** One round of a repetition. *)
Lemma run_rep_unfold icase a lo hi st :
  run icase (Rep a lo hi) st =
  (if hi_allows hi
   then flat_map
          (fun st' =>
             if (length (rest st') <? length (rest st))%nat
             then run icase (Rep a (Nat.pred lo) (hi_pred hi)) st'
             else [])
          (run icase a st)
   else [])
  ++ (if Nat.eqb lo 0 then [st] else []).
Proof.
  rewrite run_rep_eq. cbn [rep_run]. f_equal.
  destruct (hi_allows hi); [|reflexivity].
  apply List.flat_map_ext. intros st'.
  destruct (Nat.ltb_spec (length (rest st')) (length (rest st))); [|reflexivity].
  rewrite run_rep_eq. apply rep_run_fuel; lia.
Qed.

Lemma run_rep_sound icase a
      (IHa : forall st st', In st' (run icase a st) ->
                            sem icase a (loc_of st) (loc_of st')) :
  forall n lo hi st st',
    (length (rest st) < n)%nat ->
    In st' (run icase (Rep a lo hi) st) ->
    sem icase (Rep a lo hi) (loc_of st) (loc_of st').
Proof.
  induction n as [|n IH]; intros lo hi st st' Hn Hin; [lia|].
  rewrite run_rep_unfold in Hin. apply List.in_app_or in Hin.
  destruct Hin as [Hin|Hin].
  - destruct (hi_allows hi) eqn:Hhi; [|destruct Hin].
    apply in_flat_map_iff in Hin. destruct Hin as (st1 & H1 & H2).
    destruct (Nat.ltb_spec (length (rest st1)) (length (rest st))) as [Hlt|];
      [|destruct H2].
    eapply sem_rep_more; [exact Hhi | apply IHa, H1 | exact Hlt |].
    apply IH; [lia | exact H2].
  - destruct (Nat.eqb_spec lo 0) as [->|]; [|destruct Hin].
    destruct Hin as [<-|[]]. apply sem_rep_stop.
Qed.

(** Every result of the matcher is a match of the pattern. *)
Lemma run_sound icase r : forall st st',
  In st' (run icase r st) -> sem icase r (loc_of st) (loc_of st').
Proof.
  induction r as [|cs|a IHa b IHb|a IHa b IHb|a IHa lo hi|i a IHa| |];
    intros st st' Hin.
  - destruct Hin as [<-|[]]. constructor.
  - cbn [run] in Hin. destruct st as [p [|c s] cp]; cbn in Hin; [destruct Hin|].
    destruct (cls_match icase cs c) eqn:Hc; [|destruct Hin].
    destruct Hin as [<-|[]]. now constructor.
  - cbn [run] in Hin. apply in_flat_map_iff in Hin.
    destruct Hin as (st1 & H1 & H2). eapply sem_seq; eauto.
  - cbn [run] in Hin. apply List.in_app_or in Hin.
    destruct Hin; [apply sem_alt_l | apply sem_alt_r]; auto.
  - eapply run_rep_sound; [exact IHa | apply Nat.lt_succ_diag_r | exact Hin].
  - cbn [run] in Hin. apply List.in_map_iff in Hin.
    destruct Hin as (st1 & <- & H1). apply sem_grp. exact (IHa st st1 H1).
  - cbn [run] in Hin. destruct st as [[|p] s cp]; cbn in Hin; [|destruct Hin].
    destruct Hin as [<-|[]]. constructor.
  - cbn [run] in Hin. destruct st as [p [|c [|c' s]] cp]; cbn in Hin.
    + destruct Hin as [<-|[]]. constructor.
    + destruct (N.eqb_spec c newline) as [->|]; [|destruct Hin].
      destruct Hin as [<-|[]]. constructor.
    + destruct Hin.
Qed.

(** Every match of the pattern is among the results of the matcher. *)
Lemma run_complete icase r p q :
  sem icase r p q ->
  forall st, loc_of st = p -> exists st', In st' (run icase r st) /\ loc_of st' = q.
Proof.
  induction 1 as [p|cs i c s Hc|a b p q r _ IHa _ IHb|a b p q _ IH|a b p q _ IH
                  |a hi p|a lo hi p q r Hhi _ IHa Hlt _ IHr|i a p q _ IH|s|i|i];
    intros st Hst.
  - exists st. split; [now left|exact Hst].
  - destruct st as [ps rs cp]. injection Hst as -> ->.
    exists (MState (S i) s cp). cbn. rewrite Hc. split; [now left|reflexivity].
  - destruct (IHa st Hst) as (st1 & H1 & E1).
    destruct (IHb st1 E1) as (st2 & H2 & E2).
    exists st2. split; [|exact E2]. cbn [run]. apply in_flat_map_iff. eauto.
  - destruct (IH st Hst) as (st1 & H1 & E1). exists st1. split; [|exact E1].
    cbn [run]. apply List.in_or_app. now left.
  - destruct (IH st Hst) as (st1 & H1 & E1). exists st1. split; [|exact E1].
    cbn [run]. apply List.in_or_app. now right.
  - exists st. split; [|exact Hst]. rewrite run_rep_unfold.
    apply List.in_or_app. right. now left.
  - destruct (IHa st Hst) as (st1 & H1 & E1).
    destruct (IHr st1 E1) as (st2 & H2 & E2).
    exists st2. split; [|exact E2]. rewrite run_rep_unfold, Hhi.
    apply List.in_or_app. left. apply in_flat_map_iff. exists st1.
    split; [exact H1|].
    subst p q. cbn [snd loc_of] in Hlt.
    apply Nat.ltb_lt in Hlt. now rewrite Hlt.
  - destruct (IH st Hst) as (st1 & H1 & E1).
    eexists. split; [cbn [run]; apply List.in_map; exact H1|exact E1].
  - destruct st as [ps rs cp]. injection Hst as -> ->.
    eexists. split; [now left|reflexivity].
  - destruct st as [ps rs cp]. injection Hst as -> ->.
    eexists. split; [now left|reflexivity].
  - destruct st as [ps rs cp]. injection Hst as -> ->.
    eexists. split; [now left|reflexivity].
Qed.

(** A match consumes a prefix of the remaining text. *)
Lemma sem_consumes icase r p q :
  sem icase r p q ->
  exists w, snd p = w ++ snd q /\ fst q = (fst p + length w)%nat.
Proof.
  induction 1 as [p|cs i c s Hc|a b p q r _ IHa _ IHb|a b p q _ IH|a b p q _ IH
                  |a hi p|a lo hi p q r Hhi _ IHa Hlt _ IHr|i a p q _ IH|s|i|i];
    try (exists []; split; [reflexivity | cbn; lia]); try exact IH.
  - exists [c]. split; [reflexivity | cbn; lia].
  - destruct IHa as (w1 & E1 & L1), IHb as (w2 & E2 & L2).
    exists (w1 ++ w2). rewrite <- List.app_assoc, <- E2, List.length_app.
    split; [exact E1 | lia].
  - destruct IHa as (w1 & E1 & L1), IHr as (w2 & E2 & L2).
    exists (w1 ++ w2). rewrite <- List.app_assoc, <- E2, List.length_app.
    split; [exact E1 | lia].
Qed.

(** A reflexive and transitive relation between states that holds
    across every round of a repetition holds across the repetition. *)
Lemma run_rep_preorder icase (R : mstate -> mstate -> Prop) a
      (R_refl : forall st, R st st)
      (R_trans : forall x y z, R x y -> R y z -> R x z)
      (IHa : forall st st', In st' (run icase a st) -> R st st') :
  forall n lo hi st st',
    (length (rest st) < n)%nat ->
    In st' (run icase (Rep a lo hi) st) -> R st st'.
Proof.
  induction n as [|n IH]; intros lo hi st st' Hn Hin; [lia|].
  rewrite run_rep_unfold in Hin. apply List.in_app_or in Hin.
  destruct Hin as [Hin|Hin].
  - destruct (hi_allows hi); [|destruct Hin].
    apply in_flat_map_iff in Hin. destruct Hin as (st1 & H1 & H2).
    destruct (Nat.ltb_spec (length (rest st1)) (length (rest st))) as [Hlt|];
      [|destruct H2].
    apply R_trans with st1; [now apply IHa|]. eapply IH; [|exact H2]. lia.
  - destruct (Nat.eqb lo 0); [|destruct Hin].
    destruct Hin as [<-|[]]. apply R_refl.
Qed.

Lemma firstn_consumed icase a st st1 :
  sem icase a (loc_of st) (loc_of st1) ->
  rest st = firstn (pos st1 - pos st) (rest st) ++ rest st1.
Proof.
  intros Hsem. destruct (sem_consumes _ _ _ _ Hsem) as (w & Hw & Hp).
  cbn [loc_of fst snd] in Hw, Hp. rewrite Hp, Hw.
  replace (pos st + length w - pos st)%nat with (length w + 0)%nat by lia.
  rewrite List.firstn_app_2. cbn. now rewrite List.app_nil_r.
Qed.

(** A group captured during a match holds text matched by its body;
    the other captures are those the matcher started with. *)
Lemma run_captures icase i bs r :
  incl (group_bodies i r) bs ->
  forall st st', In st' (run icase r st) ->
  forall g, cap_lookup i (caps st') = Some g ->
            cap_lookup i (caps st) = Some g \/ word_of icase bs g.
Proof.
  set (R := fun st st' : mstate =>
              forall g, cap_lookup i (caps st') = Some g ->
                        cap_lookup i (caps st) = Some g \/ word_of icase bs g).
  assert (R_refl : forall st, R st st) by (intros st g Hg; now left).
  assert (R_trans : forall x y z, R x y -> R y z -> R x z).
  { intros x y z Hxy Hyz g Hg. destruct (Hyz g Hg) as [H|H]; [auto|now right]. }
  induction r as [|cs|a IHa b IHb|a IHa b IHb|a IHa lo hi|j a IHa| |];
    intros Hincl st st' Hin; fold (R st st'); cbn [group_bodies] in Hincl.
  - destruct Hin as [<-|[]]. apply R_refl.
  - cbn [run] in Hin. destruct st as [p [|c s] cp]; cbn in Hin; [destruct Hin|].
    destruct (cls_match icase cs c); [|destruct Hin].
    destruct Hin as [<-|[]]. intros g Hg. now left.
  - cbn [run] in Hin. apply in_flat_map_iff in Hin.
    destruct Hin as (st1 & H1 & H2).
    assert (Ha : incl (group_bodies i a) bs)
      by (intros x Hx; apply Hincl, List.in_or_app; now left).
    assert (Hb : incl (group_bodies i b) bs)
      by (intros x Hx; apply Hincl, List.in_or_app; now right).
    apply R_trans with st1; [exact (IHa Ha st st1 H1) | exact (IHb Hb st1 st' H2)].
  - cbn [run] in Hin. apply List.in_app_or in Hin.
    assert (Ha : incl (group_bodies i a) bs)
      by (intros x Hx; apply Hincl, List.in_or_app; now left).
    assert (Hb : incl (group_bodies i b) bs)
      by (intros x Hx; apply Hincl, List.in_or_app; now right).
    destruct Hin as [Hin|Hin]; [exact (IHa Ha st st' Hin) | exact (IHb Hb st st' Hin)].
  - eapply (run_rep_preorder icase R a R_refl R_trans);
      [exact (IHa Hincl) | apply Nat.lt_succ_diag_r | exact Hin].
  - cbn [run] in Hin. apply List.in_map_iff in Hin.
    destruct Hin as (st1 & <- & H1).
    intros g Hg. cbn [set_cap caps cap_lookup] in Hg.
    destruct (Nat.eqb_spec i j) as [->|Hne].
    + injection Hg as <-. right. exists a, (loc_of st), (loc_of st1).
      split; [apply Hincl; now left|].
      pose proof (run_sound _ _ _ _ H1) as Hsem.
      split; [exact Hsem|]. now apply firstn_consumed with (icase := icase) (a := a).
    + assert (Ha : incl (group_bodies i a) bs)
        by (intros x Hx; apply Hincl, List.in_or_app; now right).
      exact (IHa Ha st st1 H1 g Hg).
  - cbn [run] in Hin. destruct (Nat.eqb (pos st) 0); [|destruct Hin].
    destruct Hin as [<-|[]]. apply R_refl.
  - cbn [run] in Hin. destruct (rest st) as [|c [|c' s]]; cbn in Hin.
    + destruct Hin as [<-|[]]. apply R_refl.
    + destruct (c =? newline); [|destruct Hin].
      destruct Hin as [<-|[]]. apply R_refl.
    + destruct Hin.
Qed.

Lemma run_keeps_captured icase i r : forall st st',
  In st' (run icase r st) -> captured i st -> captured i st'.
Proof.
  set (R := fun st st' : mstate => captured i st -> captured i st').
  assert (R_refl : forall st, R st st) by (intros st H; exact H).
  assert (R_trans : forall x y z, R x y -> R y z -> R x z)
    by (intros x y z Hxy Hyz H; auto).
  induction r as [|cs|a IHa b IHb|a IHa b IHb|a IHa lo hi|j a IHa| |];
    intros st st' Hin; fold (R st st').
  - destruct Hin as [<-|[]]. apply R_refl.
  - cbn [run] in Hin. destruct st as [p [|c s] cp]; cbn in Hin; [destruct Hin|].
    destruct (cls_match icase cs c); [|destruct Hin].
    destruct Hin as [<-|[]]. intros H. exact H.
  - cbn [run] in Hin. apply in_flat_map_iff in Hin.
    destruct Hin as (st1 & H1 & H2).
    apply R_trans with st1; [exact (IHa st st1 H1) | exact (IHb st1 st' H2)].
  - cbn [run] in Hin. apply List.in_app_or in Hin.
    destruct Hin as [Hin|Hin]; [exact (IHa st st' Hin) | exact (IHb st st' Hin)].
  - eapply (run_rep_preorder icase R a R_refl R_trans);
      [exact IHa | apply Nat.lt_succ_diag_r | exact Hin].
  - cbn [run] in Hin. apply List.in_map_iff in Hin.
    destruct Hin as (st1 & <- & H1). intros H.
    unfold captured. cbn [set_cap caps cap_lookup].
    destruct (Nat.eqb i j); [discriminate|]. exact (IHa st st1 H1 H).
  - cbn [run] in Hin. destruct (Nat.eqb (pos st) 0); [|destruct Hin].
    destruct Hin as [<-|[]]. apply R_refl.
  - cbn [run] in Hin. destruct (rest st) as [|c [|c' s]]; cbn in Hin.
    + destruct Hin as [<-|[]]. apply R_refl.
    + destruct (c =? newline); [|destruct Hin].
      destruct Hin as [<-|[]]. apply R_refl.
    + destruct Hin.
Qed.

Lemma run_defines icase i r : defines i r = true ->
  forall st st', In st' (run icase r st) -> captured i st'.
Proof.
  induction r as [|cs|a IHa b IHb|a IHa b IHb|a IHa lo hi|j a IHa| |];
    intros Hdef st st' Hin; cbn [defines] in Hdef; try discriminate.
  - cbn [run] in Hin. apply in_flat_map_iff in Hin.
    destruct Hin as (st1 & H1 & H2).
    apply orb_true_iff in Hdef. destruct Hdef as [Hd|Hd].
    + eapply run_keeps_captured; [exact H2|]. now apply (IHa Hd st).
    + now apply (IHb Hd st1).
  - cbn [run] in Hin. apply andb_true_iff in Hdef. destruct Hdef as [Hda Hdb].
    apply List.in_app_or in Hin.
    destruct Hin; [apply (IHa Hda st) | apply (IHb Hdb st)]; assumption.
  - apply andb_true_iff in Hdef. destruct Hdef as [Hlo Hd].
    rewrite run_rep_unfold in Hin. apply List.in_app_or in Hin.
    destruct Hin as [Hin|Hin].
    + destruct (hi_allows hi); [|destruct Hin].
      apply in_flat_map_iff in Hin. destruct Hin as (st1 & H1 & H2).
      destruct (length (rest st1) <? length (rest st))%nat; [|destruct H2].
      eapply run_keeps_captured; [exact H2|]. now apply (IHa Hd st).
    + destruct lo; [discriminate|]. destruct Hin.
  - cbn [run] in Hin. apply List.in_map_iff in Hin.
    destruct Hin as (st1 & <- & H1).
    unfold captured. cbn [set_cap caps cap_lookup].
    destruct (Nat.eqb i j) eqn:E; [discriminate|].
    cbn [orb] in Hdef. now apply (IHa Hdef st st1).
Qed.

(** *** Match objects *)

Lemma match_at_spec icase r idx suffix m :
  match_at icase r idx suffix = Some m ->
  exists post st,
    suffix = m_group0 m ++ post
    /\ m_start m = idx
    /\ m_end m = (idx + length (m_group0 m))%nat
    /\ sem icase r (idx, suffix) (m_end m, post)
    /\ In st (run icase r (MState idx suffix []))
    /\ m_caps m = caps st.
Proof.
  unfold match_at. destruct (run icase r (MState idx suffix [])) as [|st l] eqn:Hrun;
    [discriminate|].
  intros Hm. injection Hm as <-. cbn [m_group0 m_start m_end m_caps].
  assert (Hin : In st (run icase r (MState idx suffix []))) by (rewrite Hrun; now left).
  pose proof (run_sound _ _ _ _ Hin) as Hsem. cbn [loc_of pos rest] in Hsem.
  destruct (sem_consumes _ _ _ _ Hsem) as (w & Hw & Hp).
  cbn [loc_of pos rest fst snd] in Hw, Hp.
  exists (rest st), st.
  assert (Hfirst : firstn (pos st - idx) suffix = w).
  { rewrite Hp, Hw. replace (idx + length w - idx)%nat with (length w + 0)%nat by lia.
    rewrite List.firstn_app_2. cbn. apply List.app_nil_r. }
  rewrite Hfirst. repeat split; auto. now left.
Qed.

Lemma match_at_complete icase r idx suffix q :
  sem icase r (idx, suffix) q -> exists m, match_at icase r idx suffix = Some m.
Proof.
  intros Hsem.
  destruct (run_complete _ _ _ _ Hsem (MState idx suffix []) eq_refl) as (st & Hin & _).
  unfold match_at. destruct (run icase r (MState idx suffix [])); [destruct Hin|eauto].
Qed.

(** Every match reported by [finditer] is the match found at its own
    start offset. *)
Lemma finditer_from_in icase r : forall fuel idx suffix m,
  In m (finditer_from fuel icase r idx suffix) ->
  exists a b, suffix = a ++ b /\ m_start m = (idx + length a)%nat
              /\ match_at icase r (idx + length a) b = Some m.
Proof.
  induction fuel as [|fuel IH]; intros idx suffix m Hin; [destruct Hin|].
  cbn [finditer_from] in Hin.
  assert (Hnext : forall c s', suffix = c :: s' ->
            In m (finditer_from fuel icase r (S idx) s') ->
            exists a b, suffix = a ++ b /\ m_start m = (idx + length a)%nat
                        /\ match_at icase r (idx + length a) b = Some m).
  { intros c s' -> H. destruct (IH _ _ _ H) as (a & b & -> & Hs & Hm).
    exists (c :: a), b. cbn [length].
    replace (idx + S (length a))%nat with (S idx + length a)%nat by lia. auto. }
  destruct (match_at icase r idx suffix) as [m0|] eqn:Hm0.
  - destruct Hin as [<-|Hin].
    + exists [], suffix. cbn [length]. rewrite Nat.add_0_r.
      destruct (match_at_spec _ _ _ _ _ Hm0) as (? & ? & ? & Hs & _). auto.
    + destruct (Nat.eqb_spec (m_end m0) idx) as [He|Hne].
      * destruct suffix as [|c s']; [destruct Hin|]. eapply Hnext; eauto.
      * destruct (match_at_spec _ _ _ _ _ Hm0) as (post & st & Hsuf & Hs & He & _).
        destruct (IH _ _ _ Hin) as (a & b & Hab & Hsa & Hm).
        assert (Hskip : skipn (m_end m0 - idx) suffix = post).
        { rewrite He, Hsuf.
          replace (idx + length (m_group0 m0) - idx)%nat
            with (length (m_group0 m0)) by lia.
          now rewrite List.skipn_app, List.skipn_all, Nat.sub_diag. }
        rewrite Hskip in Hab. subst post.
        exists (m_group0 m0 ++ a), b. rewrite List.length_app.
        replace (idx + (length (m_group0 m0) + length a))%nat
          with (m_end m0 + length a)%nat by lia.
        rewrite <- List.app_assoc. auto.
  - destruct suffix as [|c s']; [destruct Hin|]. eapply Hnext; eauto.
Qed.

Lemma finditer_in icase r s m :
  In m (finditer icase r s) ->
  exists a b, s = a ++ b /\ m_start m = length a
              /\ match_at icase r (length a) b = Some m.
Proof. intros H. apply finditer_from_in in H. exact H. Qed.

Lemma app_split_le {A : Type} (v y : list A) : forall w x,
  x ++ y = w ++ v -> (length w <= length x)%nat ->
  exists t, x = w ++ t /\ v = t ++ y.
Proof.
  induction w as [|c w IH]; intros x Heq Hle.
  - exists x. split; [reflexivity | now symmetry].
  - destruct x as [|c' x]; [cbn in Hle; lia|].
    cbn in Heq. injection Heq as -> Heq.
    destruct (IH x Heq) as (t & -> & ->); [cbn in Hle; lia|].
    exists t. split; reflexivity.
Qed.

(** When the pattern matches at some offset, the scan of [finditer]
    either reports the match found at that offset or reports one that
    starts before it and ends after it. *)
Lemma finditer_from_cover icase r : forall fuel idx a b m',
  (length (a ++ b) < fuel)%nat ->
  match_at icase r (idx + length a) b = Some m' ->
  exists m, In m (finditer_from fuel icase r idx (a ++ b))
            /\ (m = m' \/ (m_start m < idx + length a < m_end m)%nat).
Proof.
  induction fuel as [|fuel IH]; intros idx a b m' Hfuel Hm'; [lia|].
  cbn [finditer_from].
  destruct a as [|c a'].
  - cbn [app length] in *. rewrite Nat.add_0_r in Hm'. rewrite Hm'.
    exists m'. split; [now left | now left].
  - assert (Hnext : exists m, In m (finditer_from fuel icase r (S idx) (a' ++ b))
                      /\ (m = m' \/ (m_start m < idx + length (c :: a') < m_end m)%nat)).
    { cbn [length]. replace (idx + S (length a'))%nat with (S idx + length a')%nat by lia.
      apply IH; [cbn [app length] in Hfuel; lia|].
      cbn [length] in Hm'.
      now replace (S idx + length a')%nat with (idx + S (length a'))%nat by lia. }
    destruct (match_at icase r idx ((c :: a') ++ b)) as [m0|] eqn:Hm0.
    + destruct (match_at_spec _ _ _ _ _ Hm0) as (post & st & Hsuf & Hs & He & _).
      destruct (Nat.eqb_spec (m_end m0) idx) as [Heq|Hne].
      * destruct Hnext as (m & Hin & Hm). exists m. split; [now right|exact Hm].
      * destruct (Nat.le_gt_cases (length (m_group0 m0)) (length (c :: a'))) as [Hle|Hgt].
        -- (* the match ends at or before the offset: the scan goes on *)
           assert (Hsplit : exists a2, c :: a' = m_group0 m0 ++ a2 /\ post = a2 ++ b)
             by (apply app_split_le; [exact Hsuf | exact Hle]).
           destruct Hsplit as (a2 & Ha2 & Hpost).
           assert (Hskip : skipn (m_end m0 - idx) ((c :: a') ++ b) = a2 ++ b).
           { rewrite He, Hsuf.
             replace (idx + length (m_group0 m0) - idx)%nat
               with (length (m_group0 m0)) by lia.
             rewrite List.skipn_app, List.skipn_all, Nat.sub_diag. cbn. exact Hpost. }
           rewrite Hskip.
           assert (Hlen : length (c :: a') = (length (m_group0 m0) + length a2)%nat).
           { rewrite Ha2 at 1. apply List.length_app. }
           destruct (IH (m_end m0) a2 b m') as (m & Hin & Hm).
           { rewrite List.length_app in *. lia. }
           { replace (m_end m0 + length a2)%nat with (idx + length (c :: a'))%nat by lia.
             exact Hm'. }
           exists m. split; [now right|].
           destruct Hm as [Hm|Hm]; [now left|right]. lia.
        -- (* the match runs over the offset *)
           exists m0. split; [now left|]. right. cbn [length] in *. lia.
    + destruct Hnext as (m & Hin & Hm). exists m. split; [exact Hin|exact Hm].
Qed.

Lemma finditer_cover icase r a b m' :
  match_at icase r (length a) b = Some m' ->
  exists m, In m (finditer icase r (a ++ b))
            /\ (m = m' \/ (m_start m < length a < m_end m)%nat).
Proof.
  intros H. unfold finditer.
  apply (finditer_from_cover icase r (S (length (a ++ b))) 0 a b m'); [lia|exact H].
Qed.

(** *** Repetition of a character class *)

Lemma sem_rep_cls icase cs lo hi p q :
  sem icase (Rep (Cls cs) lo hi) p q ->
  exists w, snd p = w ++ snd q
            /\ fst q = (fst p + length w)%nat
            /\ Forall (fun c => cls_match icase cs c = true) w
            /\ (lo <= length w)%nat /\ within hi (length w).
Proof.
  remember (Rep (Cls cs) lo hi) as r eqn:Hr. intros H. revert lo hi Hr.
  induction H as [p|cs' i c s Hc|a b p q r _ _ _ _|a b p q _ _|a b p q _ _
                  |a hi' p|a lo' hi' p q r Hhi Ha _ Hlt _ IHr|i a p q _ _|s|i|i];
    intros lo hi Hr; try discriminate.
  - injection Hr as -> <- <-. exists []. cbn.
    split; [reflexivity|]. split; [lia|]. split; [constructor|].
    split; [lia | destruct hi'; cbn; lia].
  - injection Hr as -> -> ->.
    destruct (IHr _ _ eq_refl) as (w & Hw & Hp & Hall & Hlo & Hhi').
    inversion Ha as [|cs' i c s Hc| | | | | | | | |]; subst.
    exists (c :: w). cbn [snd fst length app] in *.
    split; [now rewrite Hw|]. split; [lia|]. split; [now constructor|].
    split; [lia|].
    destruct hi as [[|h]|]; cbn in *; try discriminate; lia.
Qed.

Lemma sem_rep_cls_intro icase cs : forall w lo hi i s,
  Forall (fun c => cls_match icase cs c = true) w ->
  (lo <= length w)%nat -> within hi (length w) ->
  sem icase (Rep (Cls cs) lo hi) (i, w ++ s) ((i + length w)%nat, s).
Proof.
  induction w as [|c w IH]; intros lo hi i s Hall Hlo Hhi.
  - cbn in *. rewrite Nat.add_0_r.
    replace lo with O by lia. apply sem_rep_stop.
  - inversion Hall as [|c' w' Hc Hw]; subst.
    eapply sem_rep_more with (q := (S i, w ++ s)).
    + destruct hi as [[|h]|]; cbn in *; [lia|reflexivity|reflexivity].
    + now constructor.
    + cbn. lia.
    + replace (i + length (c :: w))%nat with (S i + length w)%nat by (cbn; lia).
      apply IH; [exact Hw | cbn in Hlo; lia |].
      destruct hi as [h|]; cbn in *; lia.
Qed.

(** *** How a match can end *)

Lemma clean_end_app bad w1 w2 :
  clean_end bad w2 -> (w2 = [] -> clean_end bad w1) -> clean_end bad (w1 ++ w2).
Proof.
  intros [->|(w' & c & -> & Hc)] H1.
  - rewrite List.app_nil_r. now apply H1.
  - right. exists (w1 ++ w'), c. now rewrite List.app_assoc.
Qed.

Lemma sem_nonnull icase r p q :
  sem icase r p q -> nullable r = false ->
  (length (snd q) < length (snd p))%nat.
Proof.
  induction 1 as [p|cs i c s Hc|a b p q r Ha IHa Hb IHb|a b p q _ IH|a b p q _ IH
                  |a hi p|a lo hi p q r Hhi _ IHa Hlt Hr IHr|i a p q _ IH|s|i|i];
    cbn [nullable]; intros Hn; try discriminate.
  - cbn. lia.
  - apply andb_false_iff in Hn.
    destruct (sem_consumes _ _ _ _ Ha) as (w1 & E1 & _).
    destruct (sem_consumes _ _ _ _ Hb) as (w2 & E2 & _).
    assert (L1 : length (snd p) = (length w1 + length (snd q))%nat)
      by (rewrite E1; apply List.length_app).
    assert (L2 : length (snd q) = (length w2 + length (snd r))%nat)
      by (rewrite E2; apply List.length_app).
    destruct Hn as [Hn|Hn]; [specialize (IHa Hn) | specialize (IHb Hn)]; lia.
  - apply orb_false_iff in Hn. now apply IH.
  - apply orb_false_iff in Hn. now apply IH.
  - destruct (sem_consumes _ _ _ _ Hr) as (w2 & E2 & _).
    assert (L2 : length (snd q) = (length w2 + length (snd r))%nat)
      by (rewrite E2; apply List.length_app).
    lia.
  - now apply IH.
Qed.

Lemma sem_clean_end icase bad r p q :
  sem icase r p q -> ends_in icase bad r = false ->
  forall w, snd p = w ++ snd q -> clean_end bad w.
Proof.
  assert (Hnil : forall (x : str) w, x = w ++ x -> w = []).
  { intros x w H. apply (f_equal (@length _)) in H.
    rewrite List.length_app in H. destruct w; [reflexivity|cbn in H; lia]. }
  induction 1 as [p|cs i c s Hc|a b p q r Ha IHa Hb IHb|a b p q _ IH|a b p q _ IH
                  |a hi p|a lo hi p q r Hhi Ha IHa Hlt Hr IHr|i a p q _ IH|s|i|i];
    cbn [ends_in]; intros He w Hw;
    try (left; now apply (Hnil _ _ Hw)).
  - cbn [snd] in Hw. destruct w as [|c' [|c'' w]].
    + apply (f_equal (@length _)) in Hw. cbn in Hw. lia.
    + injection Hw as <-. right. exists [], c. split; [reflexivity|].
      intros Hin.
      assert (existsb (cls_match icase cs) bad = true)
        by (apply existsb_exists; eauto).
      congruence.
    + apply (f_equal (@length _)) in Hw. cbn in Hw.
      rewrite List.length_app in Hw. lia.
  - apply orb_false_iff in He. destruct He as [Heb Hea].
    destruct (sem_consumes _ _ _ _ Ha) as (w1 & E1 & _).
    destruct (sem_consumes _ _ _ _ Hb) as (w2 & E2 & _).
    assert (w = w1 ++ w2).
    { rewrite E1, E2, List.app_assoc in Hw. now apply List.app_inv_tail in Hw. }
    subst w. apply clean_end_app; [now apply IHb|].
    intros ->. apply IHa; [|exact E1].
    destruct (nullable b) eqn:Hnb; [exact Hea|].
    pose proof (sem_nonnull _ _ _ _ Hb Hnb) as Hlt. rewrite E2 in Hlt. cbn in Hlt. lia.
  - apply orb_false_iff in He. now apply IH.
  - apply orb_false_iff in He. now apply IH.
  - destruct (sem_consumes _ _ _ _ Ha) as (w1 & E1 & _).
    destruct (sem_consumes _ _ _ _ Hr) as (w2 & E2 & _).
    assert (w = w1 ++ w2).
    { rewrite E1, E2, List.app_assoc in Hw. now apply List.app_inv_tail in Hw. }
    subst w. apply clean_end_app; [now apply IHr|].
    intros _. now apply IHa.
  - now apply IH.
Qed.

(** *** Characters *)

Ltac bools_to_props H :=
  unfold is_space, is_digit_09, is_upper_AZ, is_lower_az, in_range in H;
  rewrite ?orb_true_iff, ?andb_true_iff, ?N.leb_le, ?N.eqb_eq in H.

Lemma is_space_not_digit c : is_space c = true -> is_digit_09 c = false.
Proof.
  intros H. apply not_true_is_false. intros Hd.
  bools_to_props H. bools_to_props Hd. lia.
Qed.

Lemma case_fold_cases c :
  case_fold c = c
  \/ (97 <= case_fold c <= 122
      /\ (65 <= c <= 90 \/ c = 304 \/ c = 305 \/ c = 383 \/ c = 8490)
      /\ (case_fold c = 112 -> c = 80)).
Proof.
  unfold case_fold, is_upper_AZ, in_range.
  destruct (N.leb_spec 65 c); destruct (N.leb_spec c 90); cbn [andb];
    try (right; lia).
  all: destruct (N.eqb_spec c 304); cbn [orb]; try (right; lia).
  all: destruct (N.eqb_spec c 305); try (right; lia).
  all: destruct (N.eqb_spec c 383); try (right; lia).
  all: destruct (N.eqb_spec c 8490); try (right; lia).
  all: now left.
Qed.

(** The variants of a character fold to the same character. *)
Lemma case_variants_fold c x :
  In x (case_variants c) -> case_fold x = case_fold c.
Proof.
  unfold case_variants.
  destruct (is_lower_az (case_fold c)) eqn:Hl.
  - bools_to_props Hl. set (f := case_fold c) in *.
    assert (Hff : case_fold f = f).
    { unfold case_fold, is_upper_AZ, in_range.
      destruct (N.leb_spec 65 f); destruct (N.leb_spec f 90); cbn [andb]; try lia.
      all: destruct (N.eqb_spec f 304); try lia.
      all: destruct (N.eqb_spec f 305); try lia.
      all: destruct (N.eqb_spec f 383); try lia.
      all: destruct (N.eqb_spec f 8490); try lia.
      all: reflexivity. }
    assert (Hfu : case_fold (f - 32) = f).
    { unfold case_fold, is_upper_AZ, in_range.
      destruct (N.leb_spec 65 (f - 32)); destruct (N.leb_spec (f - 32) 90);
        cbn [andb]; lia. }
    intros [<-|[<-|Hx]]; [exact Hff | exact Hfu |].
    destruct (N.eqb_spec f 105) as [E|].
    { rewrite E. destruct Hx as [<-|[<-|[]]]; reflexivity. }
    destruct (N.eqb_spec f 115) as [E|].
    { rewrite E. destruct Hx as [<-|[]]; reflexivity. }
    destruct (N.eqb_spec f 107) as [E|].
    { rewrite E. destruct Hx as [<-|[]]; reflexivity. }
    destruct Hx.
  - intros [<-|[]]. reflexivity.
Qed.

Lemma caseless_variant c x :
  In x (case_variants c) -> caseless x -> x = c.
Proof.
  intros Hin Hx. apply case_variants_fold in Hin.
  destruct (case_fold_cases x) as [Ex|Ex]; [|unfold caseless in Hx; lia].
  destruct (case_fold_cases c) as [Ec|Ec]; [congruence|].
  unfold caseless in Hx. lia.
Qed.

Lemma self_variant c : In c (case_variants c).
Proof.
  unfold case_variants. destruct (is_lower_az (case_fold c)) eqn:Hl; [|now left].
  bools_to_props Hl.
  destruct (case_fold_cases c) as [E|(_ & [H|[H|[H|[H|H]]]] & _)].
  - left. exact E.
  - right. left. unfold case_fold, is_upper_AZ, in_range.
    destruct (N.leb_spec 65 c); destruct (N.leb_spec c 90); cbn [andb]; lia.
  - subst c. cbn. auto.
  - subst c. cbn. auto.
  - subst c. cbn. auto.
  - subst c. cbn. auto.
Qed.

Lemma cls_match_icase_intro cs c :
  cls_match false cs c = true -> cls_match true cs c = true.
Proof.
  unfold cls_match. rewrite !existsb_exists.
  intros (it & Hit & Hc). exists it. split; [exact Hit|].
  apply existsb_exists. exists c. split; [apply self_variant | exact Hc].
Qed.

Lemma space_class icase c :
  cls_match icase [CSpace] c = true <-> is_space c = true.
Proof.
  destruct icase.
  - split.
    + unfold cls_match. cbn [existsb]. rewrite orb_false_r, existsb_exists.
      intros (x & Hx & Hs). cbn [citem_raw] in Hs.
      replace c with x; [exact Hs|]. apply (caseless_variant c x Hx).
      bools_to_props Hs. unfold caseless. lia.
    + intros H. apply cls_match_icase_intro. cbn. now rewrite H.
  - cbn. now rewrite orb_false_r.
Qed.

Lemma digit_class icase c :
  cls_match icase [CRng 48 57] c = true <-> is_digit_09 c = true.
Proof.
  destruct icase.
  - split.
    + unfold cls_match. cbn [existsb]. rewrite orb_false_r, existsb_exists.
      intros (x & Hx & Hs). cbn [citem_raw] in Hs.
      replace c with x; [exact Hs|]. apply (caseless_variant c x Hx).
      bools_to_props Hs. unfold caseless, in_range in *. lia.
    + intros H. apply cls_match_icase_intro. cbn. unfold is_digit_09 in H.
      now rewrite H.
  - cbn. now rewrite orb_false_r.
Qed.

(** With IGNORECASE the literal P matches exactly P and p. *)
Lemma letter_P_class c :
  cls_match true [CChr 80] c = true <-> c = 80 \/ c = 112.
Proof.
  split.
  - unfold cls_match. cbn [existsb]. rewrite orb_false_r, existsb_exists.
    intros (x & Hx & Hs). cbn [citem_raw] in Hs. apply N.eqb_eq in Hs. subst x.
    apply case_variants_fold in Hx. change (case_fold 80) with 112 in Hx.
    destruct (case_fold_cases c) as [E|(_ & _ & E)]; [right; congruence|].
    left. now apply E.
  - intros [->| ->]; reflexivity.
Qed.

Lemma upper_class c :
  cls_match false [CRng 65 90] c = is_upper_AZ c.
Proof. cbn. apply orb_false_r. Qed.

Lemma upper_char_digit c : is_digit_09 c = true -> upper_char c = c.
Proof.
  intros H. bools_to_props H. unfold upper_char, is_lower_az, in_range.
  destruct (N.leb_spec 97 c); destruct (N.leb_spec c 122); cbn [andb]; try lia.
  all: destruct (N.eqb_spec c 305); try lia.
  all: destruct (N.eqb_spec c 383); try lia.
  all: reflexivity.
Qed.

Lemma upper_char_space c : is_space c = true -> upper_char c = c.
Proof.
  intros H. bools_to_props H. unfold upper_char, is_lower_az, in_range.
  destruct (N.leb_spec 97 c); destruct (N.leb_spec c 122); cbn [andb]; try lia.
  all: destruct (N.eqb_spec c 305); try lia.
  all: destruct (N.eqb_spec c 383); try lia.
  all: reflexivity.
Qed.

Lemma upper_char_newline c : upper_char c = newline -> c = newline.
Proof.
  unfold upper_char, is_lower_az, in_range, newline.
  destruct (N.leb_spec 97 c); destruct (N.leb_spec c 122); cbn [andb]; try lia.
  all: destruct (N.eqb_spec c 305); try lia.
  all: destruct (N.eqb_spec c 383); try lia.
Qed.

(** ** Passport number *)

Ltac invert H := inversion H; subst; clear H.

(** Right-nest the appends of the goal. *)
Ltac norm_app :=
  repeat (progress (rewrite <- ?List.app_assoc; cbn [app])).

Ltac destruct_locs :=
  repeat match goal with
         | p : loc |- _ => destruct p
         | p : (nat * str)%type |- _ => destruct p
         end.

(** Decompose a match of a sequence of character classes, repetitions
    of character classes and groups into the pieces of text it spans. *)
Ltac inv_sem :=
  repeat match goal with
         | H : sem _ (Seq _ _) _ _ |- _ => invert H
         | H : sem _ (Cls _) _ _ |- _ => invert H
         | H : sem _ Bol _ _ |- _ => invert H
         | H : sem _ (Grp _ _) _ _ |- _ => invert H
         | H : sem _ (Rep (Cls _) _ _) _ _ |- _ =>
             let w := fresh "w" in
             let Hw := fresh "Hw" in
             let Hp := fresh "Hp" in
             let Hall := fresh "Hall" in
             let Hlo := fresh "Hlo" in
             let Hhi := fresh "Hhi" in
             apply sem_rep_cls in H;
             destruct H as (w & Hw & Hp & Hall & Hlo & Hhi);
             destruct_locs; cbn [fst snd within] in Hw, Hp, Hhi
         end.

Lemma sem_eol_inv icase i s j post :
  sem icase Eol (i, s) (j, post) ->
  s = post /\ i = j /\ (post = [] \/ post = [newline]).
Proof. intros H. inversion H; subst; auto. Qed.

Lemma Forall_digits icase w :
  Forall (fun c => cls_match icase [CRng 48 57] c = true) w <->
  all_digits_09 w = true.
Proof.
  unfold all_digits_09. rewrite forallb_forall, List.Forall_forall.
  split; intros H x Hx; apply (digit_class icase), H, Hx.
Qed.

Lemma Forall_spaces icase w :
  Forall (fun c => cls_match icase [CSpace] c = true) w <->
  forallb is_space w = true.
Proof.
  rewrite forallb_forall, List.Forall_forall.
  split; intros H x Hx; apply (space_class icase), H, Hx.
Qed.

Lemma eight_or_nine_iff n : eight_or_nine n = true <-> (8 <= n <= 9)%nat.
Proof.
  unfold eight_or_nine. rewrite orb_true_iff, !Nat.eqb_eq. lia.
Qed.

Lemma passport_number_format_eq :
  passport_number_format =
  Seq Bol (Seq (Rep (Cls [CRng 65 90]) 0 (Some 1%nat))
               (Seq (Rep (Cls [CRng 48 57]) 8 (Some 9%nat)) Eol)).
Proof. reflexivity. Qed.

(** What the validation accepts: a word of the language, possibly
    followed by one line feed (the meaning of [$]). *)
Lemma passport_number_ok_sound c :
  passport_number_ok c = true ->
  exists w tail, c = w ++ tail /\ in_passport_language w = true
                 /\ (tail = [] \/ tail = [newline]).
Proof.
  unfold passport_number_ok, re_match.
  destruct (match_at false passport_number_format 0 c) as [m|] eqn:Hm;
    [intros _|discriminate].
  destruct (match_at_spec _ _ _ _ _ Hm) as (post & st & Hc & _ & _ & Hsem & _).
  rewrite passport_number_format_eq in Hsem. inv_sem.
  match goal with H : sem _ Eol _ _ |- _ =>
    apply sem_eol_inv in H; destruct H as (Hs & _ & Htail)
  end.
  subst. exists (w0 ++ w), post. rewrite <- List.app_assoc.
  split; [exact Hw0|]. split; [|exact Htail].
  apply Forall_digits in Hall.
  assert (Hlen : eight_or_nine (length w) = true)
    by (apply eight_or_nine_iff; lia).
  unfold in_passport_language.
  destruct w0 as [|x [|y w0]]; cbn [length] in *; try lia.
  - cbn [app]. rewrite Hall, Hlen. reflexivity.
  - inversion Hall0 as [|? ? Hx _]; subst. rewrite upper_class in Hx.
    cbn [app]. rewrite Hx, Hall, Hlen. cbn. apply orb_true_r.
Qed.

Lemma passport_number_ok_complete w :
  in_passport_language w = true -> passport_number_ok w = true.
Proof.
  intros Hin.
  assert (Hsem : exists q, sem false passport_number_format (O, w) q).
  { rewrite passport_number_format_eq. unfold in_passport_language in Hin.
    apply orb_true_iff in Hin. destruct Hin as [Hin|Hin].
    - apply andb_true_iff in Hin. destruct Hin as [Hd Hl].
      apply eight_or_nine_iff in Hl. apply (Forall_digits false) in Hd.
      exists ((0 + length w)%nat, []).
      eapply sem_seq; [apply sem_bol|].
      eapply sem_seq; [apply sem_rep_stop|].
      eapply sem_seq; [|apply sem_eol].
      rewrite <- (List.app_nil_r w) at 1.
      apply sem_rep_cls_intro; [exact Hd | lia | cbn; lia].
    - destruct w as [|c ds]; [discriminate|].
      apply andb_true_iff in Hin. destruct Hin as [Hin Hl].
      apply andb_true_iff in Hin. destruct Hin as [Hc Hd].
      apply eight_or_nine_iff in Hl. apply (Forall_digits false) in Hd.
      exists ((1 + length ds)%nat, []).
      eapply sem_seq; [apply sem_bol|].
      eapply sem_seq.
      { apply (sem_rep_cls_intro false [CRng 65 90] [c] 0 (Some 1%nat) 0 ds);
          [|cbn; lia|cbn; lia].
        constructor; [|constructor]. now rewrite upper_class. }
      eapply sem_seq; [|apply sem_eol].
      rewrite <- (List.app_nil_r ds) at 1.
      apply sem_rep_cls_intro; [exact Hd | lia | cbn; lia]. }
  destruct Hsem as (q & Hsem).
  destruct (match_at_complete _ _ _ _ _ Hsem) as (m & Hm).
  unfold passport_number_ok, re_match. now rewrite Hm.
Qed.

(** *** Normalization of a candidate *)

Lemma normalize_passport_flat g : normalize_passport g = flat_map norm_char g.
Proof.
  unfold normalize_passport, upper, replace_char.
  change (ch " ") with 32. change (ch "O") with 79. change (u "0") with [48].
  induction g as [|c g IH]; [reflexivity|].
  cbn [flat_map]. rewrite List.flat_map_app, List.map_app, IH. f_equal.
  unfold norm_char. destruct (N.eqb_spec c 79) as [->|H79]; [reflexivity|].
  cbn [flat_map app]. destruct (N.eqb_spec c 32); reflexivity.
Qed.

Lemma normalize_passport_app x y :
  normalize_passport (x ++ y) = normalize_passport x ++ normalize_passport y.
Proof. rewrite !normalize_passport_flat. apply List.flat_map_app. Qed.

Lemma normalize_passport_cons c g :
  normalize_passport (c :: g) = norm_char c ++ normalize_passport g.
Proof. rewrite !normalize_passport_flat. reflexivity. Qed.

Lemma norm_char_digit c : is_digit_09 c = true -> norm_char c = [c].
Proof.
  intros H. unfold norm_char. rewrite (upper_char_digit c H).
  bools_to_props H.
  destruct (N.eqb_spec c 79); [lia|]. destruct (N.eqb_spec c 32); [lia|reflexivity].
Qed.

Lemma normalize_passport_digits w :
  all_digits_09 w = true -> normalize_passport w = w.
Proof.
  unfold all_digits_09. induction w as [|c w IH]; [reflexivity|].
  cbn [forallb]. intros H. apply andb_true_iff in H. destruct H as [Hc Hw].
  rewrite normalize_passport_cons, norm_char_digit, IH by assumption. reflexivity.
Qed.

Lemma norm_char_space c :
  is_space c = true -> norm_char c = if c =? 32 then [] else [c].
Proof.
  intros H. unfold norm_char. rewrite (upper_char_space c H).
  bools_to_props H. destruct (N.eqb_spec c 79); [lia|reflexivity].
Qed.

(** Normalizing blanks leaves blanks, and nothing when they are all
    plain spaces. *)
Lemma normalize_passport_spaces w :
  forallb is_space w = true ->
  forallb is_space (normalize_passport w) = true
  /\ (normalize_passport w = [] -> forallb (N.eqb 32) w = true).
Proof.
  induction w as [|c w IH]; [split; reflexivity|].
  cbn [forallb]. intros H. apply andb_true_iff in H. destruct H as [Hc Hw].
  destruct (IH Hw) as [IH1 IH2].
  rewrite normalize_passport_cons, (norm_char_space c Hc).
  destruct (N.eqb_spec c 32) as [->|Hne]; cbn [app forallb].
  - split; [exact IH1|]. intros E. now rewrite (IH2 E).
  - rewrite Hc, IH1. split; [reflexivity|discriminate].
Qed.

Lemma normalize_passport_plain_spaces w :
  forallb (N.eqb 32) w = true -> normalize_passport w = [].
Proof.
  induction w as [|c w IH]; [reflexivity|].
  cbn [forallb]. intros H. apply andb_true_iff in H. destruct H as [Hc Hw].
  apply N.eqb_eq in Hc. subst c. rewrite normalize_passport_cons. now apply IH.
Qed.

Lemma norm_char_P c : c = 80 \/ c = 112 -> norm_char c = [80].
Proof. intros [->| ->]; reflexivity. Qed.

Lemma clean_end_normalize g w :
  clean_end blank_end g -> normalize_passport g <> w ++ [newline].
Proof.
  intros [->|(g' & c & -> & Hc)] E.
  - cbn in E. destruct w; discriminate.
  - rewrite normalize_passport_app, normalize_passport_cons in E.
    cbn [normalize_passport upper replace_char flat_map List.map] in E.
    rewrite List.app_nil_r in E. unfold norm_char in E.
    destruct (N.eqb_spec c 79) as [->|H79].
    + apply List.app_inj_tail in E. destruct E as [_ E]. discriminate.
    + destruct (N.eqb_spec c 32) as [->|H32]; [apply Hc; now left|].
      apply List.app_inj_tail in E. destruct E as [_ E].
      apply upper_char_newline in E. apply Hc. right. now left.
Qed.

(** *** The candidate of a match *)

Lemma finditer_match icase r text m :
  In m (finditer icase r text) ->
  exists a post st,
    text = a ++ m_group0 m ++ post
    /\ sem icase r (length a, m_group0 m ++ post) (m_end m, post)
    /\ match_at icase r (length a) (m_group0 m ++ post) = Some m
    /\ In st (run icase r (MState (length a) (m_group0 m ++ post) []))
    /\ m_caps m = caps st.
Proof.
  intros Hin. destruct (finditer_in _ _ _ _ Hin) as (a & b & -> & Hs & Hm).
  destruct (match_at_spec _ _ _ _ _ Hm) as (post & st & -> & _ & _ & Hsem & Hst & Hc).
  exists a, post, st. auto.
Qed.

Lemma candidate_is_defined r text m :
  candidate_defined r = true -> In m (finditer true r text) ->
  exists g, group1_or_0 r m = Some g.
Proof.
  unfold candidate_defined, group1_or_0. intros Hd Hin.
  destruct (ngroups r) as [|n]; [cbn; eauto|]. cbn in Hd |- *.
  destruct (finditer_match _ _ _ _ Hin) as (a & post & st & _ & _ & _ & Hst & Hc).
  pose proof (run_defines true 1 r Hd _ _ Hst) as Hcap. unfold captured in Hcap.
  rewrite Hc. destruct (cap_lookup 1 (caps st)); [eauto|contradiction].
Qed.

Lemma candidate_clean_end r text m g :
  candidate_ends_clean r = true -> In m (finditer true r text) ->
  group1_or_0 r m = Some g -> clean_end blank_end g.
Proof.
  unfold candidate_ends_clean, group1_or_0. intros Hclean Hin Hg.
  destruct (finditer_match _ _ _ _ Hin) as (a & post & st & _ & Hsem & _ & Hst & Hc).
  destruct (0 <? ngroups r)%nat.
  - cbn in Hg. rewrite Hc in Hg.
    destruct (run_captures true 1 (group_bodies 1 r) r (fun x H => H) _ _ Hst g Hg)
      as [Hnone|(b & p & q & Hb & Hsb & Hw)]; [discriminate|].
    rewrite forallb_forall in Hclean. specialize (Hclean b Hb).
    apply negb_true_iff in Hclean.
    exact (sem_clean_end _ _ _ _ _ Hsb Hclean g Hw).
  - cbn in Hg. injection Hg as <-. apply negb_true_iff in Hclean.
    exact (sem_clean_end _ _ _ _ _ Hsem Hclean _ eq_refl).
Qed.

(** *** The search loops *)

Lemma passport_in_matches_some r ms c :
  passport_in_matches r ms = Ok (Some c) ->
  exists m g, In m ms /\ group1_or_0 r m = Some g
              /\ c = normalize_passport g /\ passport_number_ok c = true.
Proof.
  induction ms as [|m ms IH]; cbn [passport_in_matches]; [discriminate|].
  destruct (group1_or_0 r m) as [g|] eqn:Hg; [|discriminate].
  destruct (passport_number_ok (normalize_passport g)) eqn:Hok.
  - intros E. injection E as <-. exists m, g. repeat split; auto. now left.
  - intros E. destruct (IH E) as (m' & g' & Hin & H). exists m', g'.
    split; [now right|exact H].
Qed.

Lemma passport_in_matches_none r ms :
  passport_in_matches r ms = Ok None ->
  forall m g, In m ms -> group1_or_0 r m = Some g ->
              passport_number_ok (normalize_passport g) = false.
Proof.
  induction ms as [|m ms IH]; cbn [passport_in_matches]; [intros _ ? ? []|].
  destruct (group1_or_0 r m) as [g|] eqn:Hg; [|discriminate].
  destruct (passport_number_ok (normalize_passport g)) eqn:Hok; [discriminate|].
  intros E m' g' [<-|Hin] Hg'; [congruence|]. now apply (IH E m').
Qed.

Lemma passport_in_patterns_some text c : forall ps,
  passport_in_patterns ps text = Ok (Some c) ->
  exists pre p post,
    ps = pre ++ p :: post
    /\ (forall q, In q pre ->
                  passport_in_matches q (finditer true q text) = Ok None)
    /\ passport_in_matches p (finditer true p text) = Ok (Some c).
Proof.
  induction ps as [|p ps IH]; cbn [passport_in_patterns]; [discriminate|].
  destruct (passport_in_matches p (finditer true p text)) as [[c'|]|e] eqn:Hp;
    cbn [mbind res_bind]; try discriminate.
  - intros E. injection E as <-. exists [], p, ps.
    split; [reflexivity|]. split; [intros q []|exact Hp].
  - intros E. destruct (IH E) as (pre & p' & post & -> & Hnone & Hsome).
    exists (p :: pre), p', post. split; [reflexivity|].
    split; [|exact Hsome]. intros q [<-|Hq]; [exact Hp|now apply Hnone].
Qed.

(** *** The two patterns [P\s*[0-9]{8,9}] and [P\s*[0-9]{8}\s*[0-9]?] *)

Lemma pattern_P_digits_shape i b j post :
  sem true pattern_P_digits (i, b) (j, post) ->
  exists x ws ds,
    b = (x :: ws ++ ds) ++ post
    /\ (x = 80 \/ x = 112)
    /\ forallb is_space ws = true
    /\ all_digits_09 ds = true /\ (8 <= length ds <= 9)%nat.
Proof.
  unfold pattern_P_digits. intros H. inv_sem.
  match goal with H : cls_match true [CChr 80] ?x = true |- _ =>
    apply letter_P_class in H; exists x end.
  exists w0, w. subst. cbn [app]. rewrite <- List.app_assoc.
  split; [reflexivity|]. split; [assumption|].
  split; [now apply (Forall_spaces true)|].
  split; [now apply (Forall_digits true)|lia].
Qed.

Lemma pattern_P_digits_intro i x ws ds post :
  (x = 80 \/ x = 112) -> forallb is_space ws = true ->
  all_digits_09 ds = true -> (8 <= length ds <= 9)%nat ->
  exists q, sem true pattern_P_digits (i, (x :: ws ++ ds) ++ post) q.
Proof.
  intros Hx Hws Hds Hlen. unfold pattern_P_digits.
  exists ((S i + length ws + length ds)%nat, post).
  cbn [app]. rewrite <- List.app_assoc.
  eapply sem_seq; [apply sem_cls; now apply letter_P_class|].
  eapply sem_seq.
  - apply sem_rep_cls_intro; [now apply Forall_spaces | lia | exact I].
  - apply sem_rep_cls_intro; [now apply Forall_digits | lia | cbn; lia].
Qed.

Lemma pattern_P_digits_blank_shape i b j post :
  sem true pattern_P_digits_blank (i, b) (j, post) ->
  exists x ws1 d8 ws2 d1,
    b = (x :: ws1 ++ d8 ++ ws2 ++ d1) ++ post
    /\ (x = 80 \/ x = 112)
    /\ forallb is_space ws1 = true
    /\ all_digits_09 d8 = true /\ length d8 = 8%nat
    /\ forallb is_space ws2 = true
    /\ all_digits_09 d1 = true.
Proof.
  unfold pattern_P_digits_blank. intros H. inv_sem.
  match goal with H : cls_match true [CChr 80] ?x = true |- _ =>
    apply letter_P_class in H; exists x end.
  exists w2, w1, w0, w. subst. cbn [app]. rewrite <- !List.app_assoc.
  split; [reflexivity|]. split; [assumption|].
  split; [now apply (Forall_spaces true)|].
  split; [now apply (Forall_digits true)|]. split; [lia|].
  split; [now apply (Forall_spaces true)|now apply (Forall_digits true)].
Qed.

(** Two runs of blanks that are both followed by a non-blank and start
    at the same place are the same run. *)
Lemma blank_run_unique (P : char -> bool) : forall ws ws' x r x' r',
  forallb P ws = true -> forallb P ws' = true ->
  P x = false -> P x' = false ->
  ws ++ x :: r = ws' ++ x' :: r' -> ws = ws'.
Proof.
  induction ws as [|c ws IH]; intros [|c' ws'] x r x' r' Hws Hws' Hx Hx' E;
    cbn [app forallb] in *.
  - reflexivity.
  - injection E as -> _. apply andb_true_iff in Hws'. destruct Hws'. congruence.
  - injection E as -> _. apply andb_true_iff in Hws. destruct Hws. congruence.
  - injection E as -> E. apply andb_true_iff in Hws, Hws'.
    destruct Hws as [_ Hws], Hws' as [_ Hws']. f_equal.
    exact (IH ws' x r x' r' Hws Hws' Hx Hx' E).
Qed.

(** A character in the middle of a piece of text that starts before it
    and ends after it. *)
Lemma straddled_char (a rest_b a0 g post0 : str) x :
  a ++ x :: rest_b = a0 ++ g ++ post0 ->
  (length a0 < length a < length a0 + length g)%nat ->
  exists k, nth_error g (S k) = Some x.
Proof.
  intros E Hlen.
  assert (H1 : nth_error (a ++ x :: rest_b) (length a) = Some x).
  { rewrite List.nth_error_app2 by lia. now rewrite Nat.sub_diag. }
  rewrite E, List.nth_error_app2, List.nth_error_app1 in H1 by lia.
  exists (Nat.pred (length a - length a0)).
  now replace (S (Nat.pred (length a - length a0))) with (length a - length a0)%nat
    by lia.
Qed.

Lemma in_passport_language_length w :
  in_passport_language w = true -> (8 <= length w)%nat.
Proof.
  unfold in_passport_language. intros H. apply orb_true_iff in H.
  destruct H as [H|H].
  - apply andb_true_iff in H. destruct H as [_ H].
    apply eight_or_nine_iff in H. lia.
  - destruct w as [|c ds]; [discriminate|].
    apply andb_true_iff in H. destruct H as [_ H].
    apply eight_or_nine_iff in H. cbn. lia.
Qed.

(** An accepted candidate that starts with P and a run of normalized
    blanks has no blank there at all. *)
Lemma accepted_after_P nws x r :
  forallb is_space nws = true -> is_digit_09 x = true ->
  passport_number_ok (80 :: nws ++ x :: r) = true -> nws = [].
Proof.
  intros Hws Hx Hok.
  destruct (passport_number_ok_sound _ Hok) as (w & tail & E & Hlang & _).
  pose proof (in_passport_language_length _ Hlang) as Hlen.
  destruct nws as [|y nws]; [reflexivity|exfalso].
  cbn [forallb] in Hws. apply andb_true_iff in Hws. destruct Hws as [Hy _].
  destruct w as [|c0 [|c1 w]]; cbn [length] in Hlen; try lia.
  cbn [app] in E. injection E as <- <- _.
  unfold in_passport_language in Hlang. cbn [all_digits_09 forallb] in Hlang.
  rewrite (is_space_not_digit y Hy) in Hlang.
  cbn in Hlang. discriminate.
Qed.

(** Whenever [P\s*[0-9]{8}\s*[0-9]?] yields an accepted candidate,
    so does [P\s*[0-9]{8,9}], which comes first in the catalog. *)
Lemma pattern_P_digits_first text m :
  In m (finditer true pattern_P_digits_blank text) ->
  passport_number_ok (normalize_passport (m_group0 m)) = true ->
  exists m0, In m0 (finditer true pattern_P_digits text)
             /\ passport_number_ok (normalize_passport (m_group0 m0)) = true.
Proof.
  intros Hin Hok.
  destruct (finditer_match _ _ _ _ Hin) as (a & post & st & Htext & Hsem & _).
  destruct (pattern_P_digits_blank_shape _ _ _ _ Hsem)
    as (x & ws1 & d8 & ws2 & d1 & Hb & Hx & Hws1 & Hd8 & Hl8 & Hws2 & Hd1).
  apply List.app_inv_tail in Hb.
  (* the blanks after P are plain spaces *)
  destruct d8 as [|dg8 d8']; [discriminate|].
  assert (Hdg8 : is_digit_09 dg8 = true).
  { unfold all_digits_09 in Hd8. cbn [forallb] in Hd8.
    apply andb_true_iff in Hd8. tauto. }
  assert (Hplain : forallb (N.eqb 32) ws1 = true).
  { rewrite Hb, normalize_passport_cons, (norm_char_P x Hx) in Hok.
    rewrite normalize_passport_app in Hok. cbn [app] in Hok.
    rewrite normalize_passport_cons, (norm_char_digit dg8 Hdg8) in Hok.
    cbn [app] in Hok.
    destruct (normalize_passport_spaces ws1 Hws1) as [Hn1 Hn2].
    apply Hn2. eapply accepted_after_P; [exact Hn1 | exact Hdg8 | exact Hok]. }
  (* so the first pattern matches at the same offset *)
  assert (Hb' : m_group0 m ++ post
                = (x :: ws1 ++ dg8 :: d8') ++ (ws2 ++ d1) ++ post).
  { rewrite Hb. now norm_app. }
  destruct (pattern_P_digits_intro (length a) x ws1 (dg8 :: d8') ((ws2 ++ d1) ++ post)
              Hx Hws1 Hd8 ltac:(lia)) as (q & Hsem0).
  rewrite <- Hb' in Hsem0.
  destruct (match_at_complete _ _ _ _ _ Hsem0) as (m' & Hm').
  destruct (finditer_cover true pattern_P_digits a _ m' Hm') as (m0 & Hin0 & Hcase).
  rewrite <- Htext in Hin0. exists m0. split; [exact Hin0|].
  destruct (finditer_match _ _ _ _ Hin0) as (a0 & post0 & st0 & Htext0 & Hsem1 & _).
  destruct (pattern_P_digits_shape _ _ _ _ Hsem1)
    as (x0 & ws0 & ds0 & Hg0 & Hx0 & Hws0 & Hds0 & Hl0).
  apply List.app_inv_tail in Hg0.
  destruct Hcase as [->|Hstraddle].
  - (* the match found at the offset of P *)
    destruct (match_at_spec _ _ _ _ _ Hm') as (post' & st' & Hpost' & _).
    rewrite Hb', Hg0 in Hpost'. cbn [app] in Hpost'.
    rewrite <- !List.app_assoc in Hpost'. injection Hpost' as <- Hrest.
    destruct ds0 as [|dg0 ds0']; [cbn in Hl0; lia|].
    assert (Hdg0 : is_digit_09 dg0 = true).
    { unfold all_digits_09 in Hds0. cbn [forallb] in Hds0.
      apply andb_true_iff in Hds0. tauto. }
    cbn [app] in Hrest.
    assert (ws1 = ws0).
    { eapply (blank_run_unique is_space); [exact Hws1 | exact Hws0 | | | exact Hrest].
      - destruct (is_space dg8) eqn:E; [|reflexivity].
        apply is_space_not_digit in E. congruence.
      - destruct (is_space dg0) eqn:E; [|reflexivity].
        apply is_space_not_digit in E. congruence. }
    subst ws0. rewrite Hg0, normalize_passport_cons, (norm_char_P x Hx).
    rewrite normalize_passport_app, (normalize_passport_plain_spaces ws1 Hplain).
    rewrite (normalize_passport_digits _ Hds0). cbn [app].
    apply passport_number_ok_complete. unfold in_passport_language.
    change (is_upper_AZ 80) with true. rewrite Hds0.
    replace (eight_or_nine (length (dg0 :: ds0'))) with true
      by (symmetry; apply eight_or_nine_iff; lia).
    cbn; rewrite ?orb_true_r; reflexivity.
  - (* a match that runs over the offset of P would contain P *)
    exfalso.
    assert (Hlen : m_start m0 = length a0 /\ m_end m0 = (length a0 + length (m_group0 m0))%nat).
    { destruct (finditer_in _ _ _ _ Hin0) as (a1 & b1 & E1 & Hs1 & Hm1).
      destruct (match_at_spec _ _ _ _ _ Hm1) as (p1 & s1 & E2 & _ & He & _).
      assert (length a1 = length a0).
      { destruct (sem_consumes _ _ _ _ Hsem1) as (w & _ & Hw).
        cbn [fst] in Hw.
        assert (length (m_group0 m0) = length w).
        { destruct (sem_consumes _ _ _ _ Hsem1) as (w' & Hw1 & Hw2).
          cbn [fst snd] in Hw1, Hw2. apply List.app_inv_tail in Hw1.
          subst w'. lia. }
        lia. }
      lia. }
    destruct Hlen as [Hs He].
    assert (Htxt : a ++ x :: (ws1 ++ dg8 :: d8') ++ (ws2 ++ d1) ++ post
                   = a0 ++ m_group0 m0 ++ post0).
    { rewrite <- Htext0, Htext, Hb'. reflexivity. }
    destruct (straddled_char _ _ _ _ _ _ Htxt ltac:(lia)) as (k & Hk).
    rewrite Hg0 in Hk. cbn [nth_error] in Hk.
    apply List.nth_error_In in Hk. apply List.in_app_or in Hk.
    destruct Hk as [Hk|Hk].
    + rewrite forallb_forall in Hws0. specialize (Hws0 x Hk).
      destruct Hx as [->| ->]; discriminate.
    + unfold all_digits_09 in Hds0. rewrite forallb_forall in Hds0.
      specialize (Hds0 x Hk). destruct Hx as [->| ->]; discriminate.
Qed.

(** *** The catalog *)

Lemma catalog_candidates_defined :
  forallb candidate_defined PassportPatterns.passport_number = true.
Proof. vm_compute. reflexivity. Qed.

Lemma catalog_head :
  exists others, PassportPatterns.passport_number = pattern_P_digits :: others.
Proof. eexists. reflexivity. Qed.

(** Only [P\s*[0-9]{8}\s*[0-9]?] can yield a candidate that ends with
    a blank. *)
Lemma catalog_clean_ends p :
  In p PassportPatterns.passport_number ->
  candidate_ends_clean p = true \/ p = pattern_P_digits_blank.
Proof.
  unfold PassportPatterns.passport_number. intros Hin.
  repeat (destruct Hin as [<-|Hin];
          [first [left; vm_compute; reflexivity | right; reflexivity]|]).
  destruct Hin.
Qed.

(** Every value that the search over the catalog returns is in the
    passport-number language. *)
Lemma passport_in_patterns_language text c :
  passport_in_patterns PassportPatterns.passport_number text = Ok (Some c) ->
  in_passport_language c = true.
Proof.
  intros Hfound.
  destruct (passport_in_patterns_some _ _ _ Hfound)
    as (pre & p & post & Hsplit & Hnone & Hsome).
  destruct (passport_in_matches_some _ _ _ Hsome) as (m & g & Hm & Hg & -> & Hok).
  assert (Hp : In p PassportPatterns.passport_number)
    by (rewrite Hsplit; apply List.in_or_app; right; now left).
  destruct (catalog_clean_ends p Hp) as [Hclean| ->].
  - destruct (passport_number_ok_sound _ Hok) as (w & tail & Hc & Hlang & [->| ->]).
    + rewrite List.app_nil_r in Hc. now rewrite Hc.
    + exfalso. apply (clean_end_normalize g w); [|exact Hc].
      exact (candidate_clean_end p text m g Hclean Hm Hg).
  - exfalso.
    assert (Hfirst : In pattern_P_digits pre).
    { destruct catalog_head as (others & Hhead). rewrite Hhead in Hsplit.
      destruct pre as [|q pre]; cbn [app] in Hsplit.
      - injection Hsplit as Hq _. discriminate Hq.
      - injection Hsplit as <- _. now left. }
    cbn in Hg. injection Hg as <-.
    destruct (pattern_P_digits_first text m Hm Hok) as (m0 & Hm0 & Hok0).
    pose proof (passport_in_matches_none _ _ (Hnone _ Hfirst) m0 (m_group0 m0)
                  Hm0 eq_refl) as Hrej.
    congruence.
Qed.

Lemma find_app {A : Type} (f : A -> bool) (l1 l2 : list A) :
  List.find f (l1 ++ l2)
  = match List.find f l1 with Some x => Some x | None => List.find f l2 end.
Proof.
  induction l1 as [|x l1 IH]; [reflexivity|]. cbn. now destruct (f x).
Qed.

Lemma passport_in_matches_find r ms :
  (forall m, In m ms -> exists g, group1_or_0 r m = Some g) ->
  passport_in_matches r ms
  = Ok (first_accepted
          (flat_map (fun m => match group1_or_0 r m with
                              | Some g => [normalize_passport g]
                              | None => []
                              end) ms)).
Proof.
  unfold first_accepted.
  induction ms as [|m ms IH]; intros Hdef; [reflexivity|].
  cbn [passport_in_matches flat_map].
  destruct (Hdef m (or_introl eq_refl)) as (g & ->). cbn [app List.find].
  destruct (passport_number_ok (normalize_passport g)); [reflexivity|].
  apply IH. intros m' Hm'. apply Hdef. now right.
Qed.

Lemma passport_in_patterns_find text : forall ps,
  forallb candidate_defined ps = true ->
  passport_in_patterns ps text
  = Ok (first_accepted
          (flat_map (fun p => passport_candidates_of_pattern p text) ps)).
Proof.
  induction ps as [|p ps IH]; intros Hdef; [reflexivity|].
  cbn [forallb] in Hdef. apply andb_true_iff in Hdef. destruct Hdef as [Hp Hps].
  cbn [passport_in_patterns flat_map]. unfold first_accepted.
  rewrite find_app, passport_in_matches_find
    by (intros m Hm; now apply (candidate_is_defined p text m Hp)).
  cbn [mbind res_bind]. unfold first_accepted, passport_candidates_of_pattern.
  destruct (List.find _ _); [reflexivity|]. now apply IH.
Qed.

(** The search over the catalog never raises, and returns the first
    accepted candidate of the text. *)
Lemma passport_in_catalog text :
  passport_in_patterns PassportPatterns.passport_number text
  = Ok (first_accepted (passport_candidates text)).
Proof. apply passport_in_patterns_find, catalog_candidates_defined. Qed.

(** C4.  First match wins across the ordered observation list: when no
    observation before [(source, text)] holds an accepted candidate and
    [text] does, the extractor stores the first accepted candidate of
    [text] (by pattern, then by position), with [source] as its method,
    whatever the later observations contain. *)
Theorem C4_first_match_wins
        table data before source text after candidate methods scores :
  extraction_method data = Some methods ->
  confidence_scores data = Some scores ->
  (forall o, In o before -> first_accepted (passport_candidates (snd o)) = None) ->
  first_accepted (passport_candidates text) = Some candidate ->
  _extract_passport_number table data (before ++ (source, text) :: after)
  = Ok (Doc (<["passport_number" := Some candidate]> (fields data))
            (Some (<["passport_number" :=
                       _calculate_dynamic_confidence table candidate (95 # 100)]>
                     scores))
            (Some (<["passport_number" := source]> methods))
            (numbers data)).
Proof.
  intros Hmeth Hconf Hbefore Hfirst.
  induction before as [|[src txt] before IH]; cbn [app _extract_passport_number].
  - rewrite passport_in_catalog, Hfirst. cbn [mbind res_bind].
    unfold set_method, set_field. cbn [extraction_method]. rewrite Hmeth.
    cbn [mbind res_bind]. unfold set_confidence. cbn [confidence_scores].
    rewrite Hconf. reflexivity.
  - rewrite passport_in_catalog.
    pose proof (Hbefore (src, txt) (or_introl eq_refl)) as Hnone.
    cbn [snd] in Hnone. rewrite Hnone. cbn [mbind res_bind].
    apply IH. intros o Ho. apply Hbefore. now right.
Qed.

Lemma C4_first_match_wins_witness :
  _extract_passport_number [] empty_record
    (C4_observations_before
       ++ (u "original_single_column", u "Passport No: P12345678")
       :: C4_observations_after)
  = Ok (Doc (<["passport_number" := Some (u "P12345678")]> (fields empty_record))
            (Some (<["passport_number" :=
                       _calculate_dynamic_confidence [] (u "P12345678") (95 # 100)]>
                     ∅))
            (Some (<["passport_number" := u "original_single_column"]> ∅))
            (numbers empty_record)).
Proof.
  apply C4_first_match_wins.
  - reflexivity.
  - reflexivity.
  - intros o [<-|[]]. vm_compute. reflexivity.
  - vm_compute. reflexivity.
Defined.




(** The letter O is mapped to zero before the candidate is upper-cased:
    a lower-case o is kept as a letter. *)
Example lower_case_o_is_kept :
  normalize_passport (u "o12345678") = u "O12345678"
  /\ normalize_passport (u "O12345678") = u "012345678".
Proof. split; reflexivity. Qed.

(** The line feed tolerated by [$] is accepted by the validation alone,
    but never reaches the record. *)
Example validation_accepts_trailing_newline :
  passport_number_ok (u "P12345678" ++ [newline]) = true
  /\ in_passport_language (u "P12345678" ++ [newline]) = false.
Proof. split; reflexivity. Qed.

(** ** Confidence model *)

Lemma token_confidences_none value conf texts :
  (forall text, In text texts -> corroborates value text = false) ->
  forall i, token_confidences (split_ws (upper value)) conf i texts = [].
Proof.
  induction texts as [|text texts IH]; intros Hno i; [reflexivity|].
  cbn [token_confidences].
  rewrite IH by (intros t Ht; apply Hno; now right).
  destruct text as [|c text']; [reflexivity|].
  pose proof (Hno (c :: text') (or_introl eq_refl)) as H.
  unfold corroborates in H. now rewrite H.
Qed.

Lemma matched_confidences_none table value :
  uncorroborated table value ->
  matched_confidences table (split_ws (upper value)) = [].
Proof.
  unfold matched_confidences.
  induction table as [|[k dat] table IH]; intros Hno; [reflexivity|].
  cbn [flat_map snd].
  rewrite token_confidences_none by (intros t Ht; eapply Hno; [now left|exact Ht]).
  apply IH. intros k' d' t Hin Ht. eapply Hno; [right; exact Hin|exact Ht].
Qed.

(** C1 (as amended).  For a value that no OCR token of the table
    corroborates, the dynamic confidence is [base_confidence * 0.5] when
    the value is empty or the table is empty, and [base_confidence]
    itself when the table holds tokens but none of them matches. *)
Theorem C1_uncorroborated_confidence table value base_confidence :
  uncorroborated table value ->
  (_calculate_dynamic_confidence table value base_confidence ==
   if is_nil value || is_nil table
   then base_confidence * (5 # 10)
   else base_confidence)%Q.
Proof.
  intros Hno. unfold _calculate_dynamic_confidence.
  destruct value as [|c value]; [reflexivity|].
  destruct table as [|e table]; [reflexivity|].
  rewrite (matched_confidences_none _ _ Hno). reflexivity.
Qed.

Lemma C1_table_uncorroborated : uncorroborated C1_table (u "P12345678").
Proof.
  intros k dat text [H|[]] Ht. injection H as <- <-.
  destruct Ht as [<-|[<-|[]]]; reflexivity.
Defined.

Lemma C1_uncorroborated_confidence_witness :
  (_calculate_dynamic_confidence C1_table (u "P12345678") (95 # 100)
   == 95 # 100)%Q.
Proof.
  exact (C1_uncorroborated_confidence C1_table (u "P12345678") (95 # 100)
           C1_table_uncorroborated).
Defined.

(** The claim as written fails: with a non-empty table that holds no
    matching token the result is [base_confidence], not half of it. *)
Lemma C1_half_base_counterexample :
  ~ (forall table value base_confidence,
        uncorroborated table value ->
        (_calculate_dynamic_confidence table value base_confidence
         == base_confidence * (5 # 10))%Q).
Proof.
  intros H.
  specialize (H C1_table (u "P12345678") (95 # 100)%Q C1_table_uncorroborated).
  vm_compute in H. discriminate H.
Qed.

(** ** MRZ fusion *)

Lemma Qltb_lt a b : Qltb a b = true <-> (a < b)%Q.
Proof.
  unfold Qltb. rewrite negb_true_iff. split.
  - intros H. apply Qnot_le_lt. intros Hle.
    apply Qle_bool_iff in Hle. congruence.
  - intros H. apply not_true_is_false. intros Hle.
    apply Qle_bool_iff in Hle. now apply Qlt_not_le in H.
Qed.

Lemma get_of_view f d1 d2 : view f d1 = view f d2 -> get f d1 = get f d2.
Proof. unfold view, get. intros H. injection H as -> _ _. reflexivity. Qed.

Lemma overrides_of_view mrz_data f d1 d2 :
  view f d1 = view f d2 -> overrides mrz_data d1 f = overrides mrz_data d2 f.
Proof.
  intros H. unfold overrides. rewrite (get_of_view _ _ _ H).
  unfold view in H. injection H as _ -> _. reflexivity.
Qed.

Lemma fuse_field_other mrz_data data entry f :
  snd entry <> f -> view f (fuse_field mrz_data data entry) = view f data.
Proof.
  intros Hne. unfold fuse_field.
  destruct (truthy _); [|reflexivity].
  destruct (overrides _ _ _); [|reflexivity].
  unfold view, confidence_of, method_of; cbn.
  rewrite !lookup_insert_ne by exact Hne.
  destruct (confidence_scores data), (extraction_method data); cbn;
    rewrite ?lookup_empty; reflexivity.
Qed.

Lemma fuse_field_same mrz_data data mrz_field f :
  view f (fuse_field mrz_data data (mrz_field, f)) =
  if truthy (mrz_get mrz_field mrz_data) && overrides mrz_data data f
  then (Some (mrz_get mrz_field mrz_data),
        Some (mrz_confidence_or (8 # 10) mrz_data),
        Some (mrz_method_or (u "mrz") mrz_data))
  else view f data.
Proof.
  unfold fuse_field; cbn [fst snd].
  destruct (truthy _); [|reflexivity].
  destruct (overrides _ _ _); [|reflexivity].
  unfold view, confidence_of, method_of; cbn.
  now rewrite !lookup_insert_eq.
Qed.

Lemma fold_fuse_other mrz_data l : forall data f,
  ~ In f (List.map snd l) ->
  view f (fold_left (fuse_field mrz_data) l data) = view f data.
Proof.
  induction l as [|e l IH]; intros data f Hnin; [reflexivity|].
  cbn [fold_left]. rewrite IH by (intros Hin; apply Hnin; now right).
  apply fuse_field_other. intros Heq. apply Hnin. now left.
Qed.

Lemma fold_fuse_at mrz_data l1 l2 mrz_field f data :
  ~ In f (List.map snd l1) -> ~ In f (List.map snd l2) ->
  view f (fold_left (fuse_field mrz_data) (l1 ++ (mrz_field, f) :: l2) data) =
  if truthy (mrz_get mrz_field mrz_data) && overrides mrz_data data f
  then (Some (mrz_get mrz_field mrz_data),
        Some (mrz_confidence_or (8 # 10) mrz_data),
        Some (mrz_method_or (u "mrz") mrz_data))
  else view f data.
Proof.
  intros H1 H2. rewrite fold_left_app. cbn [fold_left].
  rewrite (fold_fuse_other _ l2) by exact H2.
  rewrite fuse_field_same.
  rewrite (overrides_of_view mrz_data f _ data) by now apply fold_fuse_other.
  destruct (_ && _); [reflexivity|]. now apply fold_fuse_other.
Qed.

Lemma field_mapping_nodup : List.NoDup (List.map snd field_mapping).
Proof.
  unfold field_mapping; cbn.
  repeat (apply List.NoDup_cons; [cbn; intuition discriminate|]).
  apply List.NoDup_nil.
Qed.

Lemma field_mapping_split mrz_field f :
  In (mrz_field, f) field_mapping ->
  exists l1 l2, field_mapping = l1 ++ (mrz_field, f) :: l2
                /\ ~ In f (List.map snd l1) /\ ~ In f (List.map snd l2).
Proof.
  intros Hin. pose proof field_mapping_nodup as Hnd.
  destruct (List.in_split _ _ Hin) as (l1 & l2 & Heq).
  exists l1, l2. split; [exact Heq|].
  rewrite Heq, List.map_app in Hnd. cbn in Hnd.
  apply List.NoDup_remove_2 in Hnd.
  split; intros H; apply Hnd, List.in_or_app; auto.
Qed.

Lemma mapped_field_not_mrz_key f :
  In f mapped_fields -> f <> "mrz_text"%string /\ f <> "mrz_extraction_method"%string.
Proof.
  unfold mapped_fields, field_mapping; cbn.
  intros H; split; intros ->; intuition discriminate.
Qed.

(** The entries written after the loop leave every other key alone. *)
Lemma enhance_view extracted_data mrz_data f :
  f <> "mrz_text"%string -> f <> "mrz_extraction_method"%string ->
  view f (enhance_extraction_with_mrz extracted_data mrz_data) =
  view f (fold_left (fuse_field mrz_data) field_mapping extracted_data).
Proof.
  intros H1 H2. unfold enhance_extraction_with_mrz.
  generalize (fold_left (fuse_field mrz_data) field_mapping extracted_data).
  intros data. unfold view, confidence_of, method_of, set_field, set_number.
  cbn [fields confidence_scores extraction_method numbers].
  rewrite !lookup_insert_ne by congruence. reflexivity.
Qed.

(** C7.  For a mapped field whose MRZ value is non-empty: when the
    record's field is empty or its recorded confidence (0.0 when none is
    recorded) is below the MRZ confidence, the result holds the MRZ value
    with the MRZ confidence and the MRZ method tag; otherwise the field,
    its confidence and its method are those of the draft record. *)
Theorem C7_fusion_override_rule extracted_data mrz_data mrz_field extract_field :
  In (mrz_field, extract_field) field_mapping ->
  truthy (mrz_get mrz_field mrz_data) = true ->
  let result := enhance_extraction_with_mrz extracted_data mrz_data in
  let override :=
    truthy (get extract_field extracted_data) = false
    \/ (default 0 (confidence_of extract_field extracted_data)
        < mrz_confidence_or (8 # 10) mrz_data)%Q in
  (override ->
     get extract_field result = mrz_get mrz_field mrz_data
     /\ confidence_of extract_field result
        = Some (mrz_confidence_or (8 # 10) mrz_data)
     /\ method_of extract_field result
        = Some (mrz_method_or (u "mrz") mrz_data))
  /\ (~ override ->
     fields result !! extract_field = fields extracted_data !! extract_field
     /\ confidence_of extract_field result
        = confidence_of extract_field extracted_data
     /\ method_of extract_field result
        = method_of extract_field extracted_data).
Proof.
  intros Hin Hmrz. cbv zeta.
  set (override :=
         truthy (get extract_field extracted_data) = false
         \/ (default 0 (confidence_of extract_field extracted_data)
             < mrz_confidence_or (8 # 10) mrz_data)%Q).
  destruct (field_mapping_split _ _ Hin) as (l1 & l2 & Hsplit & Hn1 & Hn2).
  assert (Hmapped : In extract_field mapped_fields).
  { unfold mapped_fields. change extract_field with (snd (mrz_field, extract_field)).
    now apply in_map. }
  destruct (mapped_field_not_mrz_key _ Hmapped) as [Hk1 Hk2].
  pose proof (enhance_view extracted_data mrz_data extract_field Hk1 Hk2) as Hview.
  rewrite Hsplit in Hview.
  rewrite (fold_fuse_at _ _ _ _ _ _ Hn1 Hn2), Hmrz in Hview. cbn [andb] in Hview.
  remember (enhance_extraction_with_mrz extracted_data mrz_data) as result.
  assert (Hdec : overrides mrz_data extracted_data extract_field = true <-> override).
  { unfold overrides, override. rewrite orb_true_iff, negb_true_iff, Qltb_lt.
    reflexivity. }
  split; intros Hov.
  - apply Hdec in Hov. rewrite Hov in Hview.
    unfold view in Hview. injection Hview as Hf Hc Hm.
    unfold get. now rewrite Hf.
  - assert (Hno : overrides mrz_data extracted_data extract_field = false).
    { apply not_true_is_false. intros H. apply Hov, Hdec, H. }
    rewrite Hno in Hview. unfold view in Hview. injection Hview as Hf Hc Hm.
    auto.
Qed.

Lemma C7_fusion_override_rule_witness :
  get "sex" (enhance_extraction_with_mrz C7_draft C7_mrz) = Some (u "M")
  /\ confidence_of "sex" (enhance_extraction_with_mrz C7_draft C7_mrz)
     = Some (7 # 10)%Q.
Proof.
  destruct (C7_fusion_override_rule C7_draft C7_mrz "sex" "sex") as [Hov _].
  - cbn. auto 10.
  - reflexivity.
  - destruct Hov as (Hv & Hc & _).
    + left. reflexivity.
    + split; [exact Hv | exact Hc].
Defined.

Example fusion_keeps_higher_confidence :
  get "sex" (enhance_extraction_with_mrz draft_with_sex_F C7_mrz) = Some (u "F")
  /\ confidence_of "sex" (enhance_extraction_with_mrz draft_with_sex_F C7_mrz)
     = Some (9 # 10)%Q.
Proof. split; reflexivity. Qed.

Lemma enhance_mapped_view extracted_data mrz_data mrz_field f :
  In (mrz_field, f) field_mapping ->
  view f (enhance_extraction_with_mrz extracted_data mrz_data) =
  if truthy (mrz_get mrz_field mrz_data) && overrides mrz_data extracted_data f
  then (Some (mrz_get mrz_field mrz_data),
        Some (mrz_confidence_or (8 # 10) mrz_data),
        Some (mrz_method_or (u "mrz") mrz_data))
  else view f extracted_data.
Proof.
  intros Hin.
  destruct (field_mapping_split _ _ Hin) as (l1 & l2 & Hsplit & Hn1 & Hn2).
  assert (Hmapped : In f mapped_fields).
  { unfold mapped_fields. change f with (snd (mrz_field, f)). now apply in_map. }
  destruct (mapped_field_not_mrz_key _ Hmapped) as [Hk1 Hk2].
  rewrite enhance_view by assumption.
  rewrite Hsplit. now apply fold_fuse_at.
Qed.

Lemma fold_fuse_numbers mrz_data l : forall data,
  numbers (fold_left (fuse_field mrz_data) l data) = numbers data.
Proof.
  induction l as [|e l IH]; intros data; [reflexivity|].
  cbn [fold_left]. rewrite IH. unfold fuse_field.
  destruct (truthy _); [|reflexivity].
  destruct (overrides _ _ _); reflexivity.
Qed.

Lemma enhance_nested_maps extracted_data mrz_data k :
  confidence_of k (enhance_extraction_with_mrz extracted_data mrz_data)
  = confidence_of k (fold_left (fuse_field mrz_data) field_mapping extracted_data)
  /\ method_of k (enhance_extraction_with_mrz extracted_data mrz_data)
     = method_of k (fold_left (fuse_field mrz_data) field_mapping extracted_data).
Proof.
  unfold enhance_extraction_with_mrz.
  generalize (fold_left (fuse_field mrz_data) field_mapping extracted_data).
  intros data. split; reflexivity.
Qed.

Lemma enhance_numbers extracted_data mrz_data k :
  k <> "mrz_confidence"%string ->
  numbers (enhance_extraction_with_mrz extracted_data mrz_data) !! k
  = numbers extracted_data !! k.
Proof.
  intros Hk. unfold enhance_extraction_with_mrz.
  generalize (fold_fuse_numbers mrz_data field_mapping extracted_data).
  generalize (fold_left (fuse_field mrz_data) field_mapping extracted_data).
  intros data Hnum. unfold set_field, set_number.
  cbn [fields confidence_scores extraction_method numbers].
  rewrite lookup_insert_ne by congruence. now rewrite Hnum.
Qed.

Lemma enhance_method_key extracted_data mrz_data :
  get "mrz_extraction_method" (enhance_extraction_with_mrz extracted_data mrz_data)
  = Some (mrz_method_or (u "none") mrz_data).
Proof.
  unfold enhance_extraction_with_mrz, get, set_field.
  cbn [fields]. now rewrite lookup_insert_eq.
Qed.

Lemma truthy_Some v : truthy v = true -> exists s, v = Some s.
Proof. destruct v as [s|]; [eauto|discriminate]. Qed.

(** C10.  Fusion leaves a non-null entry non-null (for every key but
    [mrz_text], which it overwrites with the MRZ text).  Outside the
    seven mapped fields it changes no string-valued key except [mrz_text]
    and [mrz_extraction_method], no confidence or method entry, and no
    numeric key except [mrz_confidence]. *)
Theorem C10_fusion_frame extracted_data mrz_data :
  let result := enhance_extraction_with_mrz extracted_data mrz_data in
  (forall k v, k <> "mrz_text"%string ->
     get k extracted_data = Some v -> exists v', get k result = Some v')
  /\ (forall k, ~ In k mapped_fields ->
        k <> "mrz_text"%string -> k <> "mrz_extraction_method"%string ->
        fields result !! k = fields extracted_data !! k)
  /\ (forall k, ~ In k mapped_fields ->
        confidence_of k result = confidence_of k extracted_data
        /\ method_of k result = method_of k extracted_data)
  /\ (forall k, k <> "mrz_confidence"%string ->
        numbers result !! k = numbers extracted_data !! k).
Proof.
  cbv zeta.
  pose proof (enhance_numbers extracted_data mrz_data) as Hnum.
  pose proof (enhance_nested_maps extracted_data mrz_data) as Hnested.
  pose proof (enhance_view extracted_data mrz_data) as Hview.
  pose proof (enhance_mapped_view extracted_data mrz_data) as Hmapped.
  assert (Hframe : forall k, ~ In k mapped_fields ->
            view k (fold_left (fuse_field mrz_data) field_mapping extracted_data)
            = view k extracted_data).
  { intros k Hk. now apply fold_fuse_other. }
  remember (fold_left (fuse_field mrz_data) field_mapping extracted_data) as fused
    eqn:Hfused in *.
  remember (enhance_extraction_with_mrz extracted_data mrz_data) as result
    eqn:Hres in *.
  split; [|split; [|split]].
  - intros k v Hk Hv.
    destruct (in_dec string_dec k mapped_fields) as [Hin|Hnin].
    + unfold mapped_fields in Hin. apply in_map_iff in Hin.
      destruct Hin as ([mf f] & Hf & Hin). cbn in Hf. subst f.
      specialize (Hmapped mf k Hin).
      destruct (truthy (mrz_get mf mrz_data)) eqn:Hmrz; cbn [andb] in Hmapped.
      * destruct (overrides mrz_data extracted_data k).
        -- destruct (truthy_Some _ Hmrz) as [s Hs]. exists s.
           unfold get. unfold view in Hmapped.
           replace (fields result !! k) with (Some (mrz_get mf mrz_data))
             by congruence.
           exact Hs.
        -- rewrite (get_of_view _ _ _ Hmapped). eauto.
      * rewrite (get_of_view _ _ _ Hmapped). eauto.
    + destruct (string_dec k "mrz_extraction_method") as [->|Hk2].
      * subst result. eexists. apply enhance_method_key.
      * rewrite (get_of_view k result extracted_data); [eauto|].
        rewrite Hview by assumption. now apply Hframe.
  - intros k Hnin Hk1 Hk2.
    specialize (Hview k Hk1 Hk2). rewrite Hframe in Hview by assumption.
    unfold view in Hview. congruence.
  - intros k Hnin.
    destruct (Hnested k) as [-> ->].
    specialize (Hframe k Hnin). unfold view in Hframe. split; congruence.
  - exact Hnum.
Qed.

Lemma C10_fusion_frame_witness :
  (exists v', get "sex" (enhance_extraction_with_mrz draft_with_sex_F C7_mrz)
              = Some v')
  /\ fields (enhance_extraction_with_mrz draft_with_sex_F C7_mrz) !! "place_of_issue"
     = fields draft_with_sex_F !! "place_of_issue".
Proof.
  destruct (C10_fusion_frame draft_with_sex_F C7_mrz) as (Hnull & Hfld & _).
  split.
  - apply (Hnull "sex"%string (u "F")); [discriminate | reflexivity].
  - apply Hfld; [cbn; intuition discriminate | discriminate | discriminate].
Defined.

(** ** Place of birth and place of issue *)

Lemma str_eqb_eq a : forall b, str_eqb a b = true <-> a = b.
Proof.
  induction a as [|x a IH]; intros [|y b]; cbn; try (split; [discriminate|congruence]).
  - split; reflexivity.
  - rewrite andb_true_iff, N.eqb_eq, IH.
    split; [intros [-> ->]; reflexivity | intros E; injection E; auto].
Qed.

Lemma str_eqb_refl a : str_eqb a a = true.
Proof. now apply str_eqb_eq. Qed.

Lemma str_eqb_neq a b : a <> b -> str_eqb a b = false.
Proof.
  intros H. apply not_true_is_false. intros E. now apply str_eqb_eq in E.
Qed.

Lemma count_app x l1 l2 : count x (l1 ++ l2) = (count x l1 + count x l2)%nat.
Proof. unfold count. now rewrite List.filter_app, List.length_app. Qed.

Lemma count_notin x l : ~ In x l -> count x l = O.
Proof.
  unfold count. induction l as [|y l IH]; [reflexivity|]. intros H. cbn.
  rewrite str_eqb_neq by (intros ->; apply H; now left).
  apply IH. intros Hin. apply H. now right.
Qed.

Lemma counter_incr_keys x c :
  keys (counter_incr x c) = if existsb (str_eqb x) (keys c) then keys c
                            else keys c ++ [x].
Proof.
  unfold keys. induction c as [|[y n] c IH]; [reflexivity|].
  cbn [counter_incr List.map existsb fst].
  destruct (str_eqb x y); [reflexivity|]. cbn [List.map fst orb].
  rewrite IH. now destruct (existsb _ _).
Qed.

Lemma counter_incr_counted y x c :
  counted y (counter_incr x c)
  = (counted y c + if str_eqb y x then 1 else 0)%nat.
Proof.
  unfold counted. induction c as [|[z n] c IH].
  - cbn. destruct (str_eqb y x); reflexivity.
  - cbn [counter_incr]. destruct (str_eqb x z) eqn:Exz.
    + apply str_eqb_eq in Exz. subst z. cbn [List.find fst snd].
      destruct (str_eqb y x); cbn [snd]; lia.
    + cbn [List.find fst snd]. destruct (str_eqb y z) eqn:Eyz; [|exact IH].
      apply str_eqb_eq in Eyz. subst z.
      destruct (str_eqb y x) eqn:Eyx; [|cbn; lia].
      apply str_eqb_eq in Eyx. subst y. now rewrite str_eqb_refl in Exz.
Qed.

Lemma existsb_str_in x l : existsb (str_eqb x) l = true <-> In x l.
Proof.
  rewrite existsb_exists. split.
  - intros (y & Hy & E). apply str_eqb_eq in E. now subst.
  - intros H. exists x. split; [exact H|apply str_eqb_refl].
Qed.

(** Folding the candidates into a counter: counts add up, keys are
    appended in first-seen order and stay distinct. *)
Lemma counter_fold xs : forall c,
  List.NoDup (keys c) ->
  let c' := fold_left (fun c x => counter_incr x c) xs c in
  (forall y, counted y c' = (counted y c + count y xs)%nat)
  /\ List.NoDup (keys c')
  /\ (exists added, keys c' = keys c ++ added
                    /\ forall y, In y added <-> (In y xs /\ ~ In y (keys c))).
Proof.
  induction xs as [|x xs IH]; intros c Hnd; cbn zeta.
  - cbn [fold_left]. split; [intros y; cbn; lia|]. split; [exact Hnd|].
    exists []. rewrite List.app_nil_r. split; [reflexivity|]. intros y. cbn. tauto.
  - cbn [fold_left].
    assert (Hnd' : List.NoDup (keys (counter_incr x c))).
    { rewrite counter_incr_keys. destruct (existsb _ _) eqn:E; [exact Hnd|].
      apply List.NoDup_app; [exact Hnd | repeat constructor; intros [] |].
      intros y Hy [<-|[]]. apply existsb_str_in in Hy. congruence. }
    destruct (IH _ Hnd') as (Hcnt & Hnodup & added & Hkeys & Hadded).
    split; [|split; [exact Hnodup|]].
    + intros y. rewrite Hcnt, counter_incr_counted.
      unfold count. cbn [List.filter]. destruct (str_eqb y x); cbn [length]; lia.
    + rewrite counter_incr_keys in Hkeys, Hadded.
      destruct (existsb (str_eqb x) (keys c)) eqn:E.
      * exists added. split; [exact Hkeys|]. intros y. rewrite Hadded.
        apply existsb_str_in in E. cbn [In]. split; [tauto|].
        intros [[<-|H] Hn]; tauto.
      * exists (x :: added). rewrite Hkeys, <- List.app_assoc.
        split; [reflexivity|]. intros y. cbn [In]. rewrite Hadded.
        assert (Hx : ~ In x (keys c)).
        { intros H. apply existsb_str_in in H. congruence. }
        rewrite List.in_app_iff. cbn [In].
        destruct (list_eq_dec y x) as [->|Hne]; [tauto|].
        split.
        -- intros [E'|[H Hn]]; [congruence|]. intuition congruence.
        -- intros [[E'|H] Hn]; [congruence|]. right. intuition congruence.
Qed.

(** [max_by] returns the first element whose key is largest. *)
Lemma max_by_spec {A : Type} (key : A -> nat) : forall l best,
  exists l1 l2,
    best :: l = l1 ++ max_by key best l :: l2
    /\ (forall x, In x l1 -> (key x < key (max_by key best l))%nat)
    /\ (forall x, In x l2 -> (key x <= key (max_by key best l))%nat).
Proof.
  induction l as [|y l IH]; intros best.
  - exists [], []. cbn. split; [reflexivity|]. split; intros x [].
  - cbn [max_by]. destruct (Nat.ltb_spec (key best) (key y)) as [Hlt|Hge].
    + destruct (IH y) as (l1 & l2 & E & H1 & H2).
      exists (best :: l1), l2. cbn [app]. rewrite <- E.
      split; [reflexivity|]. split; [|exact H2].
      intros x [<-|Hx]; [|now apply H1].
      destruct l1 as [|z l1]; cbn [app] in E.
      * injection E as E _. rewrite <- E. exact Hlt.
      * injection E as -> _. specialize (H1 z (or_introl eq_refl)). lia.
    + destruct (IH best) as (l1 & l2 & E & H1 & H2).
      destruct l1 as [|z l1]; cbn [app] in E.
      * injection E as E1 E2. subst l2. exists [], (y :: l). cbn [app].
        split; [now rewrite <- E1|]. split; [intros x []|].
        intros x [<-|Hx]; [rewrite <- E1; exact Hge | now apply H2].
      * injection E as <- E2. exists (best :: y :: l1), l2.
        cbn [app]. rewrite <- E2.
        split; [reflexivity|]. split; [|exact H2].
        pose proof (H1 best (or_introl eq_refl)) as Hb.
        intros x [<-|[<-|Hx]]; [exact Hb | lia |].
        apply H1. now right.
Qed.

Lemma counted_in c : forall y k,
  List.NoDup (keys c) -> In (y, k) c -> counted y c = k.
Proof.
  unfold counted, keys. induction c as [|[z n] c IH]; intros y k Hnd Hin; [destruct Hin|].
  cbn [List.map fst] in Hnd. inversion Hnd as [|? ? Hz Hnd']; subst.
  cbn [List.find fst]. destruct Hin as [E|Hin].
  - injection E as -> ->. now rewrite str_eqb_refl.
  - destruct (str_eqb y z) eqn:E; [|now apply IH].
    apply str_eqb_eq in E. subst z. exfalso. apply Hz.
    change y with (fst (y, k)). now apply List.in_map.
Qed.

Lemma nodup_split_unique {A : Type} (x : A) : forall a b a' b',
  List.NoDup (a ++ x :: b) -> a ++ x :: b = a' ++ x :: b' -> a = a'.
Proof.
  induction a as [|y a IH]; intros b [|y' a'] b' Hnd E; cbn [app] in *.
  - reflexivity.
  - injection E as <- E. inversion Hnd as [|? ? Hx _]; subst.
    exfalso. apply Hx. apply List.in_or_app. right. now left.
  - injection E as -> E. inversion Hnd as [|? ? Hx _]; subst.
    exfalso. apply Hx. apply List.in_or_app. right. now left.
  - injection E as <- E. inversion Hnd as [|? ? _ Hnd']; subst.
    f_equal. exact (IH b a' b' Hnd' E).
Qed.

Lemma in_split_first (x : list N) : forall l,
  In x l -> exists l1 l2, l = l1 ++ x :: l2 /\ ~ In x l1.
Proof.
  induction l as [|y l IH]; intros Hin; [destruct Hin|].
  destruct (list_eq_dec y x) as [->|Hne].
  - exists [], l. split; [reflexivity|]. intros [].
  - destruct Hin as [E|Hin]; [congruence|].
    destruct (IH Hin) as (l1 & l2 & -> & Hn). exists (y :: l1), l2.
    split; [reflexivity|]. intros [E|H]; [congruence|now apply Hn].
Qed.

(** The winner of the vote has the largest count, and every candidate
    seen before its first occurrence has a strictly smaller count. *)
Lemma most_common_spec candidates winner :
  most_common candidates = Some winner ->
  (forall c, (count c candidates <= count winner candidates)%nat)
  /\ exists l1 l2,
       candidates = l1 ++ winner :: l2
       /\ forall c, In c l1 -> (count c candidates < count winner candidates)%nat.
Proof.
  unfold most_common, Counter.
  destruct (counter_fold candidates [] (List.NoDup_nil _))
    as (Hcnt & Hnd & added & Hkeys & Hadded).
  cbn [keys List.map app] in Hkeys, Hadded.
  set (C := fold_left (fun c x => counter_incr x c) candidates []) in *.
  assert (Hpair : forall y k, In (y, k) C -> k = count y candidates).
  { intros y k Hin. rewrite <- (counted_in C y k Hnd Hin). now rewrite Hcnt. }
  assert (Hmem : forall y, In y candidates -> exists k, In (y, k) C).
  { intros y Hy.
    assert (Hk : In y (keys C)) by (rewrite Hkeys; apply Hadded; split; [exact Hy|intros []]).
    unfold keys in Hk. apply List.in_map_iff in Hk.
    destruct Hk as ([y' k] & E & Hin). cbn in E. subst y'. eauto. }
  destruct C as [|item items] eqn:HC; [discriminate|].
  intros E. injection E as <-.
  destruct (max_by_spec snd items item) as (L1 & L2 & Hsplit & H1 & H2).
  set (r := max_by snd item items) in *.
  assert (Hr : In r (item :: items))
    by (rewrite Hsplit; apply List.in_or_app; right; now left).
  assert (Hn : snd r = count (fst r) candidates)
    by (apply Hpair; now destruct r).
  split.
  - intros c. destruct (List.in_dec (list_eq_dec) c candidates) as [Hc|Hc].
    + destruct (Hmem c Hc) as (k & Hk). rewrite <- (Hpair c k Hk), <- Hn.
      rewrite Hsplit in Hk. apply List.in_app_or in Hk.
      destruct Hk as [Hk|[Hk|Hk]].
      * specialize (H1 _ Hk). cbn in H1. lia.
      * rewrite Hk. cbn. lia.
      * specialize (H2 _ Hk). cbn in H2. lia.
    + rewrite (count_notin c candidates Hc). lia.
  - assert (Hw : In (fst r) candidates).
    { assert (Hk : In (fst r) (keys (item :: items)))
        by (unfold keys; now apply List.in_map).
      rewrite Hkeys in Hk. now apply Hadded in Hk. }
    destruct (in_split_first _ _ Hw) as (l1 & l2 & Hcs & Hfirst).
    exists l1, l2. split; [exact Hcs|]. intros c Hc.
    (* the keys seen before the winner are those of [l1] *)
    destruct (counter_fold l1 [] (List.NoDup_nil _))
      as (_ & Hnd1 & added1 & Hkeys1 & Hadded1).
    cbn [keys List.map app] in Hkeys1, Hadded1.
    set (C1 := fold_left (fun c x => counter_incr x c) l1 []) in *.
    assert (Hnd1' : List.NoDup (keys (counter_incr (fst r) C1))).
    { rewrite counter_incr_keys. destruct (existsb _ _) eqn:Ex; [exact Hnd1|].
      apply List.NoDup_app; [exact Hnd1 | repeat constructor; intros [] |].
      intros y Hy [<-|[]]. apply existsb_str_in in Hy. congruence. }
    destruct (counter_fold l2 _ Hnd1') as (_ & _ & added2 & Hkeys2 & _).
    cbn zeta in Hkeys2.
    assert (HC' : item :: items
                  = fold_left (fun c x => counter_incr x c) l2
                              (counter_incr (fst r) C1)).
    { rewrite <- HC. unfold C. rewrite Hcs at 1. rewrite fold_left_app. reflexivity. }
    rewrite <- HC' in Hkeys2. rewrite counter_incr_keys in Hkeys2.
    assert (Hnk : existsb (str_eqb (fst r)) (keys C1) = false).
    { apply not_true_is_false. intros Ex. apply existsb_str_in in Ex.
      rewrite Hkeys1 in Ex. apply Hadded1 in Ex. tauto. }
    rewrite Hnk, <- List.app_assoc in Hkeys2. cbn [app] in Hkeys2.
    assert (Hk1 : keys C1 = keys L1).
    { unfold keys in *. rewrite Hsplit, List.map_app in Hkeys2. cbn [List.map] in Hkeys2.
      symmetry. eapply (nodup_split_unique (fst r)); [|exact Hkeys2].
      rewrite <- List.map_cons, <- List.map_app, <- Hsplit. exact Hnd. }
    assert (Hc1 : In c (keys L1)).
    { rewrite <- Hk1, Hkeys1. apply Hadded1. split; [exact Hc|intros []]. }
    unfold keys in Hc1. apply List.in_map_iff in Hc1.
    destruct Hc1 as ([c' k] & E & Hin). cbn in E. subst c'.
    specialize (H1 _ Hin). cbn in H1.
    rewrite <- Hn, <- (Hpair c k); [exact H1|].
    rewrite Hsplit. apply List.in_or_app. now left.
Qed.

Lemma most_common_none candidates :
  most_common candidates = None <-> candidates = [].
Proof.
  split; [|intros ->; reflexivity].
  unfold most_common, Counter. destruct candidates as [|x xs]; [reflexivity|].
  destruct (counter_fold (x :: xs) [] (List.NoDup_nil _))
    as (_ & _ & added & Hkeys & Hadded).
  destruct (fold_left _ _ _) as [|item items]; [|discriminate].
  intros _. cbn [keys List.map app] in Hkeys, Hadded. subst added.
  exfalso. apply (Hadded x). split; [now left|intros []].
Qed.

Lemma group_is_defined icase i r text m :
  defines (S i) r = true -> In m (finditer icase r text) ->
  exists g, group m (S i) = Some g.
Proof.
  intros Hd Hin.
  destruct (finditer_match _ _ _ _ Hin) as (a & post & st & _ & _ & _ & Hst & Hc).
  pose proof (run_defines icase (S i) r Hd _ _ Hst) as Hcap. unfold captured in Hcap.
  cbn [group]. rewrite Hc. destruct (cap_lookup (S i) (caps st)); [eauto|contradiction].
Qed.

Lemma place_pattern_defines_value label : defines 2 (place_pattern label) = true.
Proof.
  unfold place_pattern. cbn [seqs defines Nat.eqb]. now rewrite !orb_true_r.
Qed.

Lemma place_candidates_of_matches_pool ms :
  (forall m, In m ms -> exists g, group m 2 = Some g) ->
  place_candidates_of_matches ms = Ok (flat_map surviving_candidate ms).
Proof.
  induction ms as [|m ms IH]; intros Hdef; [reflexivity|].
  cbn [place_candidates_of_matches flat_map]. unfold surviving_candidate at 1.
  rewrite IH by (intros m' Hm'; apply Hdef; now right).
  destruct (Hdef m (or_introl eq_refl)) as (g & Hg).
  unfold place_candidate. rewrite Hg.
  destruct (_ && _); reflexivity.
Qed.

Lemma place_candidates_of_patterns_pool text : forall labels,
  place_candidates_of_patterns (List.map place_pattern labels) text
  = Ok (votes_of_text labels text).
Proof.
  induction labels as [|l labels IH]; [reflexivity|].
  cbn [List.map place_candidates_of_patterns]. unfold votes_of_text.
  cbn [flat_map]. fold (votes_of_text labels text).
  rewrite place_candidates_of_matches_pool, IH; [reflexivity|].
  intros m Hm. eapply group_is_defined; [apply place_pattern_defines_value|exact Hm].
Qed.

(** The collecting loops of [_extract_place] never raise, and gather
    the votes of all the observations. *)
Lemma place_candidates_pool labels : forall all_texts,
  place_candidates (List.map place_pattern labels) all_texts
  = Ok (place_pool labels all_texts).
Proof.
  induction all_texts as [|[source text] rest IH]; [reflexivity|].
  cbn [place_candidates]. rewrite place_candidates_of_patterns_pool, IH.
  reflexivity.
Qed.

Lemma _extract_place_vote all_texts labels :
  majority_vote (place_pool labels all_texts) (_extract_place all_texts labels).
Proof.
  unfold _extract_place. rewrite place_candidates_pool. cbn [mbind res_bind].
  unfold majority_vote.
  destruct (place_pool labels all_texts) as [|c0 cs] eqn:Hpool; [reflexivity|].
  destruct (most_common (c0 :: cs)) as [winner|] eqn:Hmc.
  - destruct (most_common_spec _ _ Hmc) as (Hmax & l1 & l2 & Hsplit & Hfirst).
    exists winner, l1, l2. auto.
  - apply most_common_none in Hmc. discriminate.
Qed.

Lemma count_flat_map {A : Type} (f : A -> list str) c (l : list A) :
  count c (flat_map f l) = list_sum (List.map (fun x => count c (f x)) l).
Proof.
  induction l as [|x l IH]; [reflexivity|].
  cbn [flat_map List.map list_sum]. now rewrite count_app, IH.
Qed.

(** C6.  The place-of-birth and the place-of-issue extractor return
    the winner of a majority vote over the pool of all the surviving
    candidates of all the observations: nothing when the pool is empty;
    otherwise a candidate with the largest number of votes, and the one
    cast first among those (every candidate cast before the winner's
    first vote has strictly fewer votes).  The votes of a candidate are
    the sum of its votes in each observation.  In particular, three
    observations that cast KHARTOUM, KHARTOUM and RIYADH give KHARTOUM. *)
Theorem C6_place_majority_vote all_texts :
  majority_vote (place_pool place_of_birth_labels all_texts)
                (_extract_place all_texts place_of_birth_labels)
  /\ majority_vote (place_pool place_of_issue_labels all_texts)
                   (_extract_place all_texts place_of_issue_labels)
  /\ (forall labels c,
        count c (place_pool labels all_texts)
        = list_sum (List.map (fun o => count c (votes_of_text labels (snd o)))
                             all_texts))
  /\ place_pool place_of_issue_labels place_votes
     = [u "KHARTOUM"; u "KHARTOUM"; u "RIYADH"]
  /\ _extract_place place_votes place_of_issue_labels
     = Ok (Some (u "KHARTOUM", u "regex_candidate_selection")).
Proof.
  split; [apply _extract_place_vote|].
  split; [apply _extract_place_vote|].
  split; [intros labels c; apply count_flat_map|].
  split; vm_compute; reflexivity.
Qed.

Example place_of_issue_majority :
  (data ← _extract_place_of_issue [] empty_record place_observations;
   Ok (get "place_of_issue" data, method_of "place_of_issue" data))
  = Ok (Some (u "KHARTOUM"), Some (u "regex_candidate_selection")).
Proof. vm_compute. reflexivity. Qed.

(** A tie goes to the candidate seen first. *)
Example place_tie_first_seen :
  most_common [u "RIYADH"; u "KHARTOUM"; u "KHARTOUM"; u "RIYADH"]
  = Some (u "RIYADH").
Proof. reflexivity. Qed.

(** The labels of the two extractors hold no character with a meaning
    of its own in a pattern: interpolated, each stands for itself. *)
Example caller_labels_are_literal :
  forallb literal_label (place_of_birth_labels ++ place_of_issue_labels) = true.
Proof. reflexivity. Qed.

(** The two extractors pass exactly these labels. *)
Example callers_of__extract_place table data all_texts :
  _extract_place_of_birth table data all_texts
  = (result ← _extract_place all_texts place_of_birth_labels;
     match result with
     | Some (place, method) =>
         let data := set_field "place_of_birth" (Some place) data in
         data ← set_method "place_of_birth" method data;
         set_confidence "place_of_birth"
           (_calculate_dynamic_confidence table place (85 # 100)) data
     | None => Ok data
     end)
  /\ _extract_place_of_issue table data all_texts
     = (result ← _extract_place all_texts place_of_issue_labels;
        match result with
        | Some (place, method) =>
            let data := set_field "place_of_issue" (Some place) data in
            data ← set_method "place_of_issue" method data;
            set_confidence "place_of_issue"
              (_calculate_dynamic_confidence table place (80 # 100)) data
        | None => Ok data
        end).
Proof. split; reflexivity. Qed.

(** The order of the observations does not matter to a clear
    majority: RIYADH first, then KHARTOUM twice. *)
Example majority_over_later_observations :
  _extract_place [ (u "original_standard", u "Place of Issue : RIYADH");
                   (u "enhanced_standard", u "Place of Issue: KHARTOUM");
                   (u "binarized_standard", u "place of issue KHARTOUM") ]
                 place_of_issue_labels
  = Ok (Some (u "KHARTOUM", u "regex_candidate_selection")).
Proof. vm_compute. reflexivity. Qed.

(** ** Dates *)

(** *** Order of the matches of a scan *)

Lemma finditer_from_head icase r fuel idx text :
  match finditer_from fuel icase r idx text with
  | [] => True
  | m :: _ => (idx <= m_start m)%nat /\ (idx <= m_end m)%nat
  end.
Proof.
  destruct (finditer_from fuel icase r idx text) as [|m ms] eqn:E; [exact I|].
  assert (Hin : In m (finditer_from fuel icase r idx text)) by (rewrite E; now left).
  destruct (finditer_from_in _ _ _ _ _ _ Hin) as (a & b & _ & Hs & Hm).
  destruct (match_at_spec _ _ _ _ _ Hm) as (_ & _ & _ & _ & He & _).
  lia.
Qed.

Lemma matches_in_order_cons m ms :
  match ms with
  | [] => True
  | b :: _ => (m_end m <= m_start b)%nat
  end ->
  matches_in_order ms -> matches_in_order (m :: ms).
Proof. destruct ms; cbn; auto. Qed.

(** [finditer] reports its matches from left to right, and no match
    starts before the one reported before it has ended. *)
Lemma finditer_from_in_order icase r : forall fuel idx text,
  matches_in_order (finditer_from fuel icase r idx text).
Proof.
  induction fuel as [|fuel IH]; intros idx text; [exact I|].
  cbn [finditer_from].
  destruct (match_at icase r idx text) as [m|] eqn:Hm.
  - destruct (match_at_spec _ _ _ _ _ Hm) as (_ & _ & _ & _ & He & _).
    destruct (Nat.eqb_spec (m_end m) idx) as [Heq|Hne].
    + destruct text as [|c s]; [exact I|].
      apply matches_in_order_cons; [|apply IH].
      pose proof (finditer_from_head icase r fuel (S idx) s) as Hhead.
      destruct (finditer_from fuel icase r (S idx) s); [exact I|]. lia.
    + apply matches_in_order_cons; [|apply IH].
      pose proof (finditer_from_head icase r fuel (m_end m)
                    (skipn (m_end m - idx) text)) as Hhead.
      destruct (finditer_from fuel icase r (m_end m) _); [exact I|]. lia.
  - destruct text as [|c s]; [exact I|]. apply IH.
Qed.

Lemma finditer_in_order icase r text : matches_in_order (finditer icase r text).
Proof. apply finditer_from_in_order. Qed.

(** *** What a match captures *)

Lemma run_seq icase a b st :
  run icase (Seq a b) st = flat_map (run icase b) (run icase a st).
Proof. reflexivity. Qed.

Lemma run_grp icase i a st :
  run icase (Grp i a) st
  = List.map (fun st' => set_cap i (firstn (pos st' - pos st) (rest st)) st')
             (run icase a st).
Proof. reflexivity. Qed.

Lemma run_cls_inv icase cs st st' :
  In st' (run icase (Cls cs) st) ->
  exists c, rest st = c :: rest st' /\ cls_match icase cs c = true
            /\ pos st' = S (pos st) /\ caps st' = caps st.
Proof.
  cbn [run]. destruct st as [p [|c s] cp]; cbn [rest pos caps]; [intros []|].
  destruct (cls_match icase cs c) eqn:Hc; [|intros []].
  intros [<-|[]]. exists c. auto.
Qed.

Lemma run_rep_cls_caps icase cs lo hi st st' :
  In st' (run icase (Rep (Cls cs) lo hi) st) -> caps st' = caps st.
Proof.
  apply (run_rep_preorder icase (fun a b => caps b = caps a) (Cls cs))
    with (n := S (length (rest st))).
  - reflexivity.
  - intros x y z Hxy Hyz. congruence.
  - intros a b Hab. destruct (run_cls_inv _ _ _ _ Hab) as (c & _ & _ & _ & H). exact H.
  - lia.
Qed.

(** A group around a repeated character class captures the characters
    that the repetition consumes. *)
Lemma run_grp_rep_cls icase i cs lo hi st st' :
  In st' (run icase (Grp i (Rep (Cls cs) lo hi)) st) ->
  exists w, rest st = w ++ rest st'
            /\ pos st' = (pos st + length w)%nat
            /\ Forall (fun c => cls_match icase cs c = true) w
            /\ (lo <= length w)%nat /\ within hi (length w)
            /\ caps st' = (i, w) :: caps st.
Proof.
  rewrite run_grp. intros Hin. apply List.in_map_iff in Hin.
  destruct Hin as (st1 & <- & H1).
  pose proof (run_rep_cls_caps _ _ _ _ _ _ H1) as Hcaps.
  pose proof (run_sound _ _ _ _ H1) as Hsem.
  destruct (sem_rep_cls _ _ _ _ _ _ Hsem) as (w & Hw & Hp & Hall & Hlo & Hhi).
  cbn [loc_of fst snd] in Hw, Hp.
  exists w. cbn [set_cap rest pos caps].
  repeat split; auto.
  rewrite Hcaps. f_equal. f_equal.
  rewrite Hp, Hw.
  replace (pos st + length w - pos st)%nat with (length w + 0)%nat by lia.
  rewrite List.firstn_app_2. cbn. apply List.app_nil_r.
Qed.

Lemma date_catalog : PassportPatterns.date = [date_pattern].
Proof. reflexivity. Qed.

Lemma Forall_decimal w :
  Forall (fun c => cls_match false [CDigit] c = true) w <->
  forallb is_decimal w = true.
Proof.
  rewrite forallb_forall, List.Forall_forall.
  split; intros H x Hx; specialize (H x Hx); cbn in *;
    rewrite ?orb_false_r in *; exact H.
Qed.

Lemma dot_class c : cls_match false [CChr 46] c = true <-> c = 46.
Proof. cbn. rewrite orb_false_r. apply N.eqb_eq. Qed.

(** What a run of the date pattern consumes and captures. *)
Lemma date_run idx text st :
  In st (run false date_pattern (MState idx text [])) ->
  exists day month year,
    text = day ++ [46] ++ month ++ [46] ++ year ++ rest st
    /\ pos st = Nat.add idx (length (day ++ [46] ++ month ++ [46] ++ year))
    /\ forallb is_decimal (day ++ month ++ year) = true
    /\ (1 <= length day <= 2)%nat /\ (1 <= length month <= 2)%nat
    /\ length year = 4%nat
    /\ caps st = [(3%nat, year); (2%nat, month); (1%nat, day)].
Proof.
  unfold date_pattern. intros Hin.
  rewrite run_seq in Hin.
  apply in_flat_map_iff in Hin. destruct Hin as (s1 & H1 & Hin).
  rewrite run_seq in Hin.
  apply in_flat_map_iff in Hin. destruct Hin as (s2 & H2 & Hin).
  rewrite run_seq in Hin.
  apply in_flat_map_iff in Hin. destruct Hin as (s3 & H3 & Hin).
  rewrite run_seq in Hin.
  apply in_flat_map_iff in Hin. destruct Hin as (s4 & H4 & H5).
  apply run_grp_rep_cls in H1, H3, H5.
  apply run_cls_inv in H2, H4.
  destruct H1 as (day & R1 & P1 & A1 & L1 & U1 & C1).
  destruct H2 as (c2 & R2 & M2 & P2 & C2).
  destruct H3 as (month & R3 & P3 & A3 & L3 & U3 & C3).
  destruct H4 as (c4 & R4 & M4 & P4 & C4).
  destruct H5 as (year & R5 & P5 & A5 & L5 & U5 & C5).
  apply dot_class in M2, M4. subst c2 c4.
  cbn [rest pos caps within] in *.
  apply Forall_decimal in A1, A3, A5.
  exists day, month, year.
  split; [rewrite R1, R2, R3, R4, R5; cbn [app]; reflexivity|].
  split; [repeat (rewrite List.length_app; cbn [length]); lia|].
  split; [now rewrite !forallb_app, A1, A3, A5|].
  repeat split; try lia.
  rewrite C5, C4, C3, C2, C1. reflexivity.
Qed.

(** The match of the date pattern at an offset, as a written date. *)
Lemma date_match idx text m :
  match_at false date_pattern idx text = Some m ->
  date_shaped (written_of m)
  /\ wd_offset (written_of m) = idx
  /\ m_start m = idx
  /\ m_end m = wd_end (written_of m)
  /\ (exists post, text = wd_text (written_of m) ++ post)
  /\ List.map (fun i => default [] (group m i)) (seq 1 3)
     = [wd_day (written_of m); wd_month (written_of m); wd_year (written_of m)].
Proof.
  unfold match_at.
  destruct (run false date_pattern (MState idx text [])) as [|st l] eqn:Hrun;
    [discriminate|].
  intros Hm. injection Hm as <-.
  assert (Hin : In st (run false date_pattern (MState idx text [])))
    by (rewrite Hrun; now left).
  destruct (date_run _ _ _ Hin)
    as (day & month & year & Ht & Hp & Hd & L1 & L2 & L3 & Hcaps).
  set (m := MkMatch idx (pos st) (firstn (pos st - idx) text) (caps st)).
  assert (Hg : group m 1 = Some day /\ group m 2 = Some month
               /\ group m 3 = Some year).
  { unfold m. cbn [group m_caps]. rewrite Hcaps. repeat split. }
  destruct Hg as (G1 & G2 & G3).
  assert (Hw : written_of m = Written idx day month year).
  { unfold written_of. rewrite G1, G2, G3. reflexivity. }
  rewrite Hw. unfold date_shaped, wd_end, wd_text.
  cbn [wd_offset wd_day wd_month wd_year seq List.map].
  rewrite G1, G2, G3.
  repeat split; auto; try lia.
  exists (rest st). rewrite Ht. now rewrite <- !List.app_assoc.
Qed.

(** *** A text in which a pattern finds nothing *)

Lemma finditer_from_nothing icase r : forall fuel text idx,
  (forall a b i, text = a ++ b -> match_at icase r i b = None) ->
  finditer_from fuel icase r idx text = [].
Proof.
  induction fuel as [|fuel IH]; intros text idx Hnone; [reflexivity|].
  cbn [finditer_from]. rewrite (Hnone [] text idx eq_refl).
  destruct text as [|c s]; [reflexivity|].
  apply IH. intros a b i ->. apply (Hnone (c :: a) b i). reflexivity.
Qed.

Lemma match_at_plus_none icase cs idx text :
  match text with
  | c :: _ => cls_match icase cs c = false
  | [] => True
  end ->
  match_at icase (Rep (Cls cs) 1 None) idx text = None.
Proof.
  intros H. unfold match_at. rewrite run_rep_unfold. cbn [hi_allows Nat.eqb].
  cbn [run rest]. destruct text as [|c s]; [reflexivity|]. now rewrite H.
Qed.

(** [re.sub] leaves alone a text that holds no character of the
    class. *)
Lemma re_sub_plus_nothing icase cs repl text :
  forallb (fun c => negb (cls_match icase cs c)) text = true ->
  re_sub icase (Rep (Cls cs) 1 None) repl text = text.
Proof.
  intros Hall. unfold re_sub, finditer.
  rewrite finditer_from_nothing; [reflexivity|].
  intros a b i ->. apply match_at_plus_none.
  rewrite forallb_app in Hall. apply andb_true_iff in Hall.
  destruct Hall as [_ Hb]. destruct b as [|c b]; [exact I|].
  cbn [forallb] in Hb. apply andb_true_iff in Hb. destruct Hb as [Hc _].
  now apply negb_true_iff in Hc.
Qed.

(** *** Splitting at a separator *)

Lemma split_on_aux_run sep : forall w cur s,
  forallb (fun c => negb (c =? sep)) w = true ->
  split_on_aux sep cur (w ++ s) = split_on_aux sep (rev w ++ cur) s.
Proof.
  induction w as [|c w IH]; intros cur s Hw; [reflexivity|].
  cbn [forallb] in Hw. apply andb_true_iff in Hw. destruct Hw as [Hc Hw].
  apply negb_true_iff in Hc. cbn [app split_on_aux rev]. rewrite Hc.
  rewrite IH by exact Hw. now rewrite <- List.app_assoc.
Qed.

Lemma split_on_three sep a b c :
  forallb (fun x => negb (x =? sep)) (a ++ b ++ c) = true ->
  split_on sep (a ++ [sep] ++ b ++ [sep] ++ c) = [a; b; c].
Proof.
  rewrite !forallb_app, !andb_true_iff. intros (Ha & Hb & Hc).
  unfold split_on.
  rewrite split_on_aux_run by exact Ha. cbn [app split_on_aux].
  rewrite N.eqb_refl, List.app_nil_r, List.rev_involutive.
  rewrite split_on_aux_run by exact Hb. cbn [app split_on_aux].
  rewrite N.eqb_refl, List.app_nil_r, List.rev_involutive.
  rewrite <- (List.app_nil_r c) at 1.
  rewrite split_on_aux_run by exact Hc. cbn [split_on_aux].
  now rewrite List.app_nil_r, List.rev_involutive.
Qed.

(** *** Digits *)


Lemma decimal_listed c : is_decimal c = true -> In c decimal_chars.
Proof.
  unfold is_decimal, decimal_value.
  destruct (List.find _ decimal_zeros) as [z|] eqn:E; [intros _|discriminate].
  apply List.find_some in E. destruct E as [Hz Hc].
  unfold in_range in Hc. apply andb_true_iff in Hc. destruct Hc as [H1 H2].
  apply N.leb_le in H1, H2.
  unfold decimal_chars. apply in_flat_map. exists z. split; [exact Hz|].
  apply in_map_iff. exists (N.to_nat (c - z)). split; [lia|].
  apply in_seq. lia.
Qed.

(** A decimal digit is neither a blank, nor a dot, nor a hyphen. *)
Lemma decimal_is_plain c :
  is_decimal c = true ->
  is_space c = false /\ c <> 46 /\ c <> 45.
Proof.
  intros H. apply decimal_listed in H.
  assert (Hall : forallb (fun c => negb (is_space c) && negb (c =? 46)
                                   && negb (c =? 45)) decimal_chars = true)
    by (vm_compute; reflexivity).
  rewrite forallb_forall in Hall. specialize (Hall c H).
  rewrite !andb_true_iff, !negb_true_iff, !N.eqb_neq in Hall. tauto.
Qed.

(** *** The validation loop on a written date *)

Lemma date_shaped_plain w :
  date_shaped w ->
  forallb (fun c => negb (cls_match false [CSpace; CChr 46] c))
          (wd_day w ++ [45] ++ wd_month w ++ [45] ++ wd_year w) = true
  /\ forallb (fun x => negb (x =? 45)) (wd_day w ++ wd_month w ++ wd_year w) = true.
Proof.
  intros (Hd & _).
  assert (Hplain : forall s, forallb is_decimal s = true ->
            forallb (fun c => negb (cls_match false [CSpace; CChr 46] c)) s = true
            /\ forallb (fun x => negb (x =? 45)) s = true).
  { intros s Hs. rewrite !forallb_forall in *. split; intros c Hc;
      destruct (decimal_is_plain c (Hs c Hc)) as (H1 & H2 & H3).
    - unfold cls_match. cbn [existsb citem_raw]. rewrite H1.
      apply N.eqb_neq in H2. now rewrite H2.
    - apply N.eqb_neq in H3. now rewrite H3. }
  rewrite !forallb_app in Hd. apply andb_true_iff in Hd. destruct Hd as [H1 Hd].
  apply andb_true_iff in Hd. destruct Hd as [H2 H3].
  destruct (Hplain _ H1) as [A1 B1]. destruct (Hplain _ H2) as [A2 B2].
  destruct (Hplain _ H3) as [A3 B3].
  rewrite !forallb_app. cbn [forallb]. rewrite A1, A2, A3, B1, B2, B3.
  split; reflexivity.
Qed.

(** The loop of [_extract_dates] reads the three runs of digits of a
    written date as day, month and year. *)
Lemma valid_date_reading w :
  date_shaped w ->
  valid_date (FTuple [wd_day w; wd_month w; wd_year w]) = reading w.
Proof.
  intros Hw. destruct (date_shaped_plain w Hw) as [Hplain Hsep].
  unfold valid_date, reading. cbn [join].
  change (u "-") with [45]. change (ch "-") with 45.
  change spaces_or_dots with (Rep (Cls [CSpace; CChr 46]) 1 None).
  rewrite re_sub_plus_nothing by exact Hplain.
  rewrite split_on_three by exact Hsep. reflexivity.
Qed.

(** *** The dates of a text *)

Lemma findall_date text :
  findall false date_pattern text
  = List.map (fun m => let w := written_of m in
                       FTuple [wd_day w; wd_month w; wd_year w])
             (finditer false date_pattern text).
Proof.
  unfold findall. apply List.map_ext_in. intros m Hm.
  destruct (finditer_in _ _ _ _ Hm) as (a & b & _ & _ & Hat).
  destruct (date_match _ _ _ Hat) as (_ & _ & _ & _ & _ & Hg).
  change (ngroups date_pattern) with 3%nat. cbv beta iota zeta. now rewrite Hg.
Qed.

Lemma finditer_date_shaped text m :
  In m (finditer false date_pattern text) -> date_shaped (written_of m).
Proof.
  intros Hm. destruct (finditer_in _ _ _ _ Hm) as (a & b & _ & _ & Hat).
  now destruct (date_match _ _ _ Hat) as (H & _).
Qed.

(** The valid dates of the extractor are the valid readings of the
    matches of the date pattern, in the order of the scan. *)
Lemma valid_dates_readings text :
  valid_dates text
  = valid_readings (List.map written_of (finditer false date_pattern text)).
Proof.
  unfold valid_dates, all_dates, valid_readings. rewrite date_catalog.
  cbn [flat_map]. rewrite List.app_nil_r, findall_date.
  assert (Hshape := finditer_date_shaped text).
  induction (finditer false date_pattern text) as [|m ms IH]; [reflexivity|].
  cbn [List.map flat_map]. rewrite valid_date_reading by (apply Hshape; now left).
  f_equal. apply IH. intros m' Hm'. apply Hshape. now right.
Qed.

(** *** The written dates of a text and the scan *)

(** At one offset a text holds at most one written date. *)
Lemma written_unique w w' post post' :
  date_shaped w -> date_shaped w' ->
  wd_text w ++ post = wd_text w' ++ post' ->
  wd_day w = wd_day w' /\ wd_month w = wd_month w' /\ wd_year w = wd_year w'.
Proof.
  intros (Hd & _ & _ & Ly) (Hd' & _ & _ & Ly') E.
  rewrite !forallb_app, !andb_true_iff in Hd, Hd'.
  destruct Hd as (D1 & D2 & D3). destruct Hd' as (D1' & D2' & D3').
  unfold wd_text in E. rewrite <- !List.app_assoc in E. cbn [app] in E.
  assert (Hdot : is_decimal 46 = false) by (vm_compute; reflexivity).
  assert (E1 := blank_run_unique is_decimal _ _ _ _ _ _ D1 D1' Hdot Hdot E).
  rewrite E1 in E. apply List.app_inv_head in E. injection E as E.
  assert (E2 := blank_run_unique is_decimal _ _ _ _ _ _ D2 D2' Hdot Hdot E).
  rewrite E2 in E. apply List.app_inv_head in E. injection E as E.
  repeat split; [exact E1|exact E2|].
  assert (E3 : firstn 4 (wd_year w ++ post) = firstn 4 (wd_year w' ++ post'))
    by now rewrite E.
  rewrite <- Ly in E3 at 1. rewrite <- Ly' in E3.
  now rewrite !List.firstn_app, !Nat.sub_diag, !List.firstn_all, !List.firstn_O,
    !List.app_nil_r in E3.
Qed.

Lemma digits_in_class s :
  forallb is_decimal s = true ->
  Forall (fun c => cls_match false [CDigit] c = true) s.
Proof.
  intros H. apply List.Forall_forall. intros c Hc.
  rewrite forallb_forall in H. unfold cls_match. cbn [existsb citem_raw].
  now rewrite (H c Hc).
Qed.

(** A written date is a match of the date pattern at its offset. *)
Lemma written_sem w idx post :
  date_shaped w ->
  exists q, sem false date_pattern (idx, wd_text w ++ post) q.
Proof.
  intros (Hd & L1 & L2 & L3).
  rewrite !forallb_app, !andb_true_iff in Hd. destruct Hd as (D1 & D2 & D3).
  assert (Hdot : forall i s, sem false (Cls [CChr 46]) (i, 46 :: s) (S i, s)).
  { intros i s. apply sem_cls. reflexivity. }
  unfold wd_text, date_pattern. rewrite <- !List.app_assoc. cbn [app].
  eexists.
  eapply sem_seq.
  { apply sem_grp.
    apply (sem_rep_cls_intro false [CDigit] (wd_day w) 1 (Some 2%nat) idx);
      [now apply digits_in_class|lia|cbn; lia]. }
  eapply sem_seq; [apply Hdot|].
  eapply sem_seq.
  { apply sem_grp.
    apply (sem_rep_cls_intro false [CDigit] (wd_month w) 1 (Some 2%nat));
      [now apply digits_in_class|lia|cbn; lia]. }
  eapply sem_seq; [apply Hdot|].
  apply sem_grp.
  apply (sem_rep_cls_intro false [CDigit] (wd_year w) 4 (Some 4%nat));
    [now apply digits_in_class|lia|cbn; lia].
Qed.

Lemma written_matched w idx post :
  date_shaped w -> wd_offset w = idx ->
  exists m, match_at false date_pattern idx (wd_text w ++ post) = Some m
            /\ written_of m = w.
Proof.
  intros Hw Hoff.
  destruct (written_sem w idx post Hw) as [q Hq].
  destruct (match_at_complete _ _ _ _ _ Hq) as [m Hm].
  exists m. split; [exact Hm|].
  destruct (date_match _ _ _ Hm) as (Hs & Ho & _ & _ & (post' & Ht) & _).
  destruct (written_unique _ _ _ _ Hw Hs Ht) as (E1 & E2 & E3).
  destruct w as [o d mo y], (written_of m) as [o' d' mo' y'].
  cbn in *. congruence.
Qed.

(** Every date that the scan reports is written in the text, at the
    offset reported. *)
Lemma found_dates_written text :
  Forall (written_at text) (found_dates text).
Proof.
  apply List.Forall_forall. intros w Hw. unfold found_dates in Hw.
  apply in_map_iff in Hw. destruct Hw as (m & <- & Hm).
  destruct (finditer_in _ _ _ _ Hm) as (a & b & Ht & Hs & Hat).
  destruct (date_match _ _ _ Hat) as (Hshape & Ho & _ & _ & (post & Hb) & _).
  split; [exact Hshape|]. exists a, post. split; [now rewrite Ht, Hb|].
  now rewrite Ho.
Qed.

(** The scan reports the dates from left to right, without overlap. *)
Lemma found_dates_in_order text : in_text_order (found_dates text).
Proof.
  unfold found_dates.
  assert (Hord := finditer_in_order false date_pattern text).
  assert (Hend : forall m, In m (finditer false date_pattern text) ->
                   m_start m = wd_offset (written_of m)
                   /\ m_end m = wd_end (written_of m)).
  { intros m Hm. destruct (finditer_in _ _ _ _ Hm) as (a & b & _ & _ & Hat).
    destruct (date_match _ _ _ Hat) as (_ & Ho & Hs & He & _).
    split; [now rewrite Ho|exact He]. }
  induction (finditer false date_pattern text) as [|m ms IH]; [exact I|].
  destruct ms as [|m' ms]; [exact I|].
  destruct Hord as [Hle Hord]. cbn [List.map in_text_order]. split.
  - destruct (Hend m (or_introl eq_refl)) as [_ <-].
    destruct (Hend m' (or_intror (or_introl eq_refl))) as [<- _]. exact Hle.
  - apply IH; [exact Hord|]. intros x Hx. apply Hend. now right.
Qed.

(** The scan misses a written date only when it begins inside a date
    reported before it. *)
Lemma found_dates_complete text w :
  written_at text w ->
  exists f, In f (found_dates text)
            /\ (f = w \/ (wd_offset f < wd_offset w < wd_end f)%nat).
Proof.
  intros (Hshape & pre & post & Ht & Hpre).
  destruct (written_matched w (length pre) post Hshape (eq_sym Hpre))
    as (m' & Hat & Hw).
  destruct (finditer_cover _ _ _ _ _ Hat) as (m & Hm & Hcase).
  rewrite <- Ht in Hm.
  exists (written_of m). split; [unfold found_dates; now apply in_map|].
  destruct Hcase as [->|Hin]; [now left|right].
  destruct (finditer_in _ _ _ _ Hm) as (a & b & _ & _ & Hat').
  destruct (date_match _ _ _ Hat') as (_ & Ho & Hs & He & _).
  rewrite <- He, Ho, <- Hs, <- Hpre. exact Hin.
Qed.

(** The fields that [_extract_dates] sets, by the position of the dates
    in the list that its loop builds. *)
Lemma _extract_dates_fields table data text scores :
  confidence_scores data = Some scores ->
  exists result,
    _extract_dates table data text = Ok result
    /\ fields result !! "date_of_birth"
       = match valid_dates text with
         | first :: _ => Some (Some first)
         | [] => fields data !! "date_of_birth"
         end
    /\ fields result !! "date_of_issue"
       = match valid_dates text with
         | _ :: second :: _ => Some (Some second)
         | _ => fields data !! "date_of_issue"
         end
    /\ fields result !! "date_of_expiry"
       = if (3 <=? length (valid_dates text))%nat
         then Some (Some (List.last (valid_dates text) []))
         else fields data !! "date_of_expiry".
Proof.
  intros Hconf. unfold _extract_dates.
  destruct text as [|c text].
  - eexists. split; [reflexivity|]. cbn. auto.
  - destruct (valid_dates (c :: text)) as [|d1 [|d2 [|d3 rest]]];
      unfold set_confidence, set_field; cbn [confidence_scores];
      rewrite ?Hconf;
      cbn [mbind res_bind confidence_scores length Nat.ltb Nat.leb];
      (eexists; split; [reflexivity|]); cbn [fields];
      repeat first [rewrite lookup_insert_eq
                   |rewrite lookup_insert_ne by discriminate];
      auto.
Qed.

(** *** A text has one scan *)

Lemma wd_offset_lt_end w : (wd_offset w < wd_end w)%nat.
Proof.
  unfold wd_end, wd_text. rewrite !List.length_app. cbn [length]. lia.
Qed.

(** Two dates written at the same offset of a text are the same. *)
Lemma written_at_unique text w w' :
  written_at text w -> written_at text w' ->
  wd_offset w = wd_offset w' -> w = w'.
Proof.
  intros (Hw & pre & post & Ht & Hl) (Hw' & pre' & post' & Ht' & Hl') Ho.
  assert (Hpre : pre = pre' /\ wd_text w ++ post = wd_text w' ++ post').
  { rewrite Ht in Ht'. apply List.app_eq_app in Ht'.
    destruct Ht' as (l & [[E1 E2]|[E1 E2]]);
      (assert (l = []) by (apply List.length_zero_iff_nil;
         apply (f_equal (@length _)) in E1; rewrite List.length_app in E1; lia));
      subst l; rewrite List.app_nil_r in E1; cbn [app] in E2; subst; auto. }
  destruct Hpre as [_ E].
  destruct (written_unique _ _ _ _ Hw Hw' E) as (E1 & E2 & E3).
  destruct w, w'. cbn in *. congruence.
Qed.

Lemma in_text_order_later a l x :
  in_text_order (a :: l) -> In x l -> (wd_end a <= wd_offset x)%nat.
Proof.
  revert a. induction l as [|b l IH]; intros a Hord Hx; [destruct Hx|].
  destruct Hord as [Hab Hord]. destruct Hx as [<-|Hx]; [exact Hab|].
  specialize (IH b Hord Hx). pose proof (wd_offset_lt_end b). lia.
Qed.

Lemma in_text_order_tail a l : in_text_order (a :: l) -> in_text_order l.
Proof. destruct l; [intros; exact I|intros [_ H]; exact H]. Qed.


Lemma head_not_later text f l g l' :
  Forall (written_at text) (f :: l) -> Forall (written_at text) (g :: l') ->
  in_text_order (g :: l') ->
  covered_by (f :: l) (g :: l') ->
  (wd_offset g <= wd_offset f)%nat.
Proof.
  intros Hf Hg Hord Hcov.
  destruct (Hcov f (or_introl eq_refl)) as (x & Hx & Hcase).
  assert (Hgx : (wd_offset g <= wd_offset x)%nat).
  { destruct Hx as [<-|Hx]; [lia|].
    pose proof (in_text_order_later _ _ _ Hord Hx).
    pose proof (wd_offset_lt_end g). lia. }
  destruct Hcase as [<-|Hin]; lia.
Qed.

Lemma covered_by_tails f l l' :
  in_text_order (f :: l) -> in_text_order (f :: l') ->
  covered_by (f :: l) (f :: l') -> covered_by l l'.
Proof.
  intros Hord Hord' Hcov w Hw.
  pose proof (in_text_order_later _ _ _ Hord Hw) as Hlate.
  destruct (Hcov w (or_intror Hw)) as (x & [<-|Hx] & Hcase).
  - pose proof (wd_offset_lt_end f).
    destruct Hcase as [<-|Hin]; lia.
  - exists x. auto.
Qed.

Lemma mutual_cover_eq text : forall l l',
  Forall (written_at text) l -> Forall (written_at text) l' ->
  in_text_order l -> in_text_order l' ->
  covered_by l l' -> covered_by l' l -> l = l'.
Proof.
  induction l as [|f l IH]; intros [|g l'] Hl Hl' Ho Ho' Hc Hc'.
  - reflexivity.
  - destruct (Hc' g (or_introl eq_refl)) as (x & [] & _).
  - destruct (Hc f (or_introl eq_refl)) as (x & [] & _).
  - assert (f = g).
    { apply (written_at_unique text).
      - now inversion Hl.
      - now inversion Hl'.
      - pose proof (head_not_later text f l g l' Hl Hl' Ho' Hc).
        pose proof (head_not_later text g l' f l Hl' Hl Ho Hc'). lia. }
    subst g. f_equal.
    apply IH.
    + now inversion Hl.
    + now inversion Hl'.
    + now apply in_text_order_tail in Ho.
    + now apply in_text_order_tail in Ho'.
    + now apply (covered_by_tails f).
    + now apply (covered_by_tails f).
Qed.

(** A text has one scan. *)
Lemma scan_of_unique text found found' :
  scan_of text found -> scan_of text found' -> found = found'.
Proof.
  intros (Hw & Ho & Hc) (Hw' & Ho' & Hc').
  apply (mutual_cover_eq text); auto.
  - intros w Hin. apply Hc'. rewrite List.Forall_forall in Hw. now apply Hw.
  - intros w Hin. apply Hc. rewrite List.Forall_forall in Hw'. now apply Hw'.
Qed.

(** The scan of the extractor is a scan of the text. *)
Lemma found_dates_scan text : scan_of text (found_dates text).
Proof.
  split; [apply found_dates_written|].
  split; [apply found_dates_in_order|apply found_dates_complete].
Qed.

(** C3 (as amended).  The dates that the extractor finds are the scan
    of the text, and there is one such list: dates written in the text,
    each at its offset, following one another from left to right without
    overlap, a written date being left out only when it begins inside a
    date of the list.  Of these, the valid ones (day 1 to 31, month 1 to
    12, year 1900 to 2100) are assigned by position, in this order of
    occurrence in the text: the first to [date_of_birth], the second to
    [date_of_issue], and the last to [date_of_expiry] as soon as three
    valid dates occur in the text, repeated dates included; a field for
    which there is no date keeps its entry. *)
Theorem C3_dates_by_position table data text scores :
  confidence_scores data = Some scores ->
  exists found result,
    scan_of text found
    /\ (forall found', scan_of text found' -> found' = found)
    /\ _extract_dates table data text = Ok result
    /\ fields result !! "date_of_birth"
       = match valid_readings found with
         | first :: _ => Some (Some first)
         | [] => fields data !! "date_of_birth"
         end
    /\ fields result !! "date_of_issue"
       = match valid_readings found with
         | _ :: second :: _ => Some (Some second)
         | _ => fields data !! "date_of_issue"
         end
    /\ fields result !! "date_of_expiry"
       = if (3 <=? length (valid_readings found))%nat
         then Some (Some (List.last (valid_readings found) []))
         else fields data !! "date_of_expiry".
Proof.
  intros Hconf.
  destruct (_extract_dates_fields table data text scores Hconf)
    as (result & Hres & Hbirth & Hissue & Hexpiry).
  rewrite valid_dates_readings in Hbirth, Hissue, Hexpiry.
  fold (found_dates text) in Hbirth, Hissue, Hexpiry.
  exists (found_dates text), result.
  split; [apply found_dates_scan|].
  split; [intros found' Hscan;
          apply (scan_of_unique text); [exact Hscan|apply found_dates_scan]|].
  auto.
Qed.

(** On a page that prints the expiry first, the birth second and the
    issue last, the fields follow the page, not the calendar. *)
Lemma C3_dates_by_position_witness :
  exists found result,
    List.map (fun w => (wd_offset w, reading w)) found
    = [ (7%nat, Some (u "28-02-2030")); (24%nat, Some (u "15-06-1985"));
        (41%nat, Some (u "01-03-2020")) ]
    /\ _extract_dates [] empty_record dates_out_of_order = Ok result
    /\ fields result !! "date_of_birth" = Some (Some (u "28-02-2030"))
    /\ fields result !! "date_of_issue" = Some (Some (u "15-06-1985"))
    /\ fields result !! "date_of_expiry" = Some (Some (u "01-03-2020")).
Proof.
  destruct (C3_dates_by_position [] empty_record dates_out_of_order ∅ eq_refl)
    as (found & result & Hscan & Hone & Hres & Hbirth & Hissue & Hexpiry).
  assert (Hfound : found_dates dates_out_of_order = found)
    by apply Hone, found_dates_scan.
  subst found.
  assert (E : valid_readings (found_dates dates_out_of_order)
              = [u "28-02-2030"; u "15-06-1985"; u "01-03-2020"])
    by (vm_compute; reflexivity).
  rewrite E in Hbirth, Hissue, Hexpiry.
  exists (found_dates dates_out_of_order), result.
  split; [vm_compute; reflexivity|auto].
Defined.

(** The claim as written fails: one date printed three times fills
    [date_of_expiry] although the text holds a single distinct date. *)
Lemma C3_distinct_dates_counterexample :
  ~ (forall text result,
        _extract_dates [] empty_record text = Ok result ->
        (length (distinct (valid_dates text)) < 3)%nat ->
        get "date_of_expiry" result = None).
Proof.
  intros H.
  set (text := u "01.01.2000 01.01.2000 01.01.2000").
  destruct (_extract_dates [] empty_record text) as [result|e] eqn:Hres.
  - specialize (H text result Hres).
    assert (Hfew : (length (distinct (valid_dates text)) < 3)%nat)
      by (vm_compute; lia).
    specialize (H Hfew).
    vm_compute in Hres. injection Hres as <-.
    vm_compute in H. discriminate H.
  - vm_compute in Hres. discriminate Hres.
Qed.

(** ** Confidence and provenance of the extracted fields *)

(** C8 (evaluated at the failing input).  On this observation the
    extractors populate [national_id], [date_of_birth], [nationality],
    [country_code] and [passport_type]; none of them gets a method tag,
    [country_code] and [passport_type] get no confidence either, and the
    confidence recorded for [nationality] is the constant 0.98.  Each
    line reads: field, value, recorded confidence, recorded method. *)
Theorem C8_missing_method_tags :
  (result ← _smart_field_extraction [] C8_observations;
   Ok (List.map (fun k => (k, get k result, confidence_of k result,
                           method_of k result))
                ["national_id"; "date_of_birth"; "nationality";
                 "country_code"; "passport_type"]%string))
  = Ok [ ("national_id"%string, Some (u "242-9135-0472"),
          Some (45 # 100)%Q, None);
         ("date_of_birth"%string, Some (u "15-06-1985"),
          Some (425 # 1000)%Q, None);
         ("nationality"%string, Some (u "SUDANESE"), Some (98 # 100)%Q, None);
         ("country_code"%string, Some (u "SDN"), None, None);
         ("passport_type"%string, Some (u "PC"), None, None) ].
Proof. vm_compute. reflexivity. Qed.

(** The extractors that do record a method tag. *)
Example sibling_extractors_record_a_method :
  (data ← _smart_field_extraction []
            [(u "original_standard", u "Passport No: P12345678 Sex: M ذكر")];
   Ok (method_of "passport_number" data, method_of "sex" data))
  = Ok (Some (u "original_standard"), Some (u "regex_search")).
Proof. vm_compute. reflexivity. Qed.

(** ** No input *)

(** C9.  With an empty image map, whatever the OCR engine, the MRZ
    resolver and the token table are, [extract] returns a record in which
    the twelve fields are null and [extraction_score] is 0. *)
Theorem C9_empty_input
        (Image : Type)
        (_multi_pass_extraction : OcrTable -> Image -> list (str * str) * OcrTable)
        (extract_mrz_data : Image -> MRZRecord) (table : OcrTable) :
  exists result,
    extract Image _multi_pass_extraction extract_mrz_data table [] = Ok result
    /\ Forall (fun k => fields result !! k = Some None) field_names
    /\ exists score, numbers result !! "extraction_score" = Some score
                     /\ (score == 0)%Q.
Proof.
  eexists. split; [reflexivity|]. split.
  - repeat constructor.
  - eexists. split; reflexivity.
Qed.

(** ** The date parser *)

Lemma first_format_reads_all :
  forallb (fun day =>
             forallb (fun month =>
                        forallb (fun year => first_format_reads day month year)
                                years) months) days = true.
Proof. vm_compute. reflexivity. Qed.

Lemma in_range_list lo len z :
  (Z.of_nat lo <= z < Z.of_nat lo + Z.of_nat len)%Z ->
  In z (List.map Z.of_nat (seq lo len)).
Proof.
  intros H. apply List.in_map_iff. exists (Z.to_nat z).
  split; [lia|]. apply List.in_seq. lia.
Qed.

Lemma first_format_reads_in_range day month year :
  (1 <= day <= 31)%Z -> (1 <= month <= 12)%Z -> (1900 <= year <= 2100)%Z ->
  first_format_reads day month year = true.
Proof.
  intros Hd Hm Hy. pose proof first_format_reads_all as H.
  rewrite forallb_forall in H.
  specialize (H day (in_range_list 1 31 day ltac:(lia))).
  rewrite forallb_forall in H.
  specialize (H month (in_range_list 1 12 month ltac:(lia))).
  rewrite forallb_forall in H.
  exact (H year (in_range_list 1900 201 year ltac:(lia))).
Qed.

Lemma try_formats_cons validate_date pattern format_type others date_str :
  try_formats validate_date ((pattern, format_type) :: others) date_str
  = match re_match false pattern date_str with
    | Some m =>
        match group m 1 ≫= py_int, group m 2 ≫= py_int,
              group m 3 ≫= py_int with
        | Some g1, Some g2, Some g3 =>
            let '(day, month, year) :=
              match format_type with
              | DD_MM_YYYY => (g1, g2, g3)
              | MM_DD_YYYY => (g2, g1, g3)
              | YYYY_MM_DD => (g3, g2, g1)
              end in
            match validate_date with
            | Raise e => Raise e
            | Ok validate =>
                if validate day month year then Ok (Some (day, month, year))
                else try_formats validate_date others date_str
            end
        | _, _, _ => try_formats validate_date others date_str
        end
    | None => try_formats validate_date others date_str
    end.
Proof. reflexivity. Qed.

(** What the parser does on a formatted date, for either state of the
    [validate_date] attribute. *)
Lemma parse_formatted_date validate_date day month year :
  first_format_reads day month year = true ->
  parse_date_string_with validate_date (format_date day month year)
  = match validate_date with
    | Raise e => Raise e
    | Ok validate =>
        if validate day month year then Ok (Some (day, month, year))
        else try_formats validate_date (List.tl formats_to_try)
                         (cleaned (format_date day month year))
    end.
Proof.
  unfold first_format_reads, parse_date_string_with.
  fold (cleaned (format_date day month year)).
  generalize (cleaned (format_date day month year)). intros s.
  unfold formats_to_try. rewrite try_formats_cons. cbn [List.tl].
  destruct (re_match false dmy_pattern s) as [m|]; [|discriminate].
  destruct (group m 1 ≫= py_int) as [g1|]; [|discriminate].
  destruct (group m 2 ≫= py_int) as [g2|]; [|discriminate].
  destruct (group m 3 ≫= py_int) as [g3|]; [|discriminate].
  intros H. apply andb_true_iff in H. destruct H as [H H3].
  apply andb_true_iff in H. destruct H as [H1 H2].
  apply Z.eqb_eq in H1, H2, H3. subst. reflexivity.
Qed.

(** With a [validate_date] that accepts the triples in range, formatting
    then parsing is the identity. *)
Lemma date_round_trip_with_validator validate day month year :
  (1 <= day <= 31)%Z -> (1 <= month <= 12)%Z -> (1900 <= year <= 2100)%Z ->
  validate day month year = true ->
  parse_date_string_with (Ok validate) (format_date day month year)
  = Ok (Some (day, month, year)).
Proof.
  intros Hd Hm Hy Hv.
  rewrite parse_formatted_date by now apply first_format_reads_in_range.
  now rewrite Hv.
Qed.

(** C2 (evaluated on the code).  [PassportPatterns] defines no
    [validate_date]: for every triple in range the first format matches
    the formatted date, the call [self.validate_date(...)] raises
    [AttributeError], and no triple is returned. *)
Theorem C2_parse_raises_attribute_error day month year :
  (1 <= day <= 31)%Z -> (1 <= month <= 12)%Z -> (1900 <= year <= 2100)%Z ->
  parse_date_string (format_date day month year)
  = Raise (AttributeError "validate_date").
Proof.
  intros Hd Hm Hy. unfold parse_date_string.
  rewrite parse_formatted_date by now apply first_format_reads_in_range.
  reflexivity.
Qed.

Lemma C2_parse_raises_attribute_error_witness :
  parse_date_string (u "15-06-1985") = Raise (AttributeError "validate_date").
Proof.
  apply (C2_parse_raises_attribute_error 15 6 1985); lia.
Defined.

(** * Further properties of the engine *)

(** *** Substitution of single characters *)


Lemma sub_build_shift repl ms a b idx :
  match ms with
  | [] => True
  | m :: _ => (idx + length a <= m_start m)%nat /\ (idx + length a <= m_end m)%nat
  end ->
  sub_build repl ms idx (a ++ b) = a ++ sub_build repl ms (idx + length a) b.
Proof.
  destruct ms as [|m ms]; cbn [sub_build]; [reflexivity|].
  intros [Hs He].
  replace (m_start m - idx)%nat with (length a + (m_start m - (idx + length a)))%nat by lia.
  replace (m_end m - idx)%nat with (length a + (m_end m - (idx + length a)))%nat by lia.
  rewrite List.firstn_app_2, List.skipn_app, List.skipn_all2 by lia.
  replace (length a + (m_end m - (idx + length a)) - length a)%nat
    with (m_end m - (idx + length a))%nat by lia.
  cbn [app]. now rewrite <- List.app_assoc.
Qed.

Lemma re_sub_class_from icase cs repl : forall text fuel idx,
  (length text < fuel)%nat ->
  sub_build repl (finditer_from fuel icase (Cls cs) idx text) idx text
  = flat_map (sub_char icase cs repl) text.
Proof.
  induction text as [|c s IH]; intros fuel idx Hfuel;
    (destruct fuel as [|fuel]; [cbn in Hfuel; lia|]).
  - reflexivity.
  - cbn [length] in Hfuel. cbn [finditer_from flat_map].
    unfold match_at, sub_char at 1. cbn [run rest pos caps].
    destruct (cls_match icase cs c).
    + cbn [m_end m_start pos sub_build].
      destruct (Nat.eqb_spec (S idx) idx) as [Hbad|_]; [lia|].
      replace (S idx - idx)%nat with 1%nat by lia.
      rewrite Nat.sub_diag. cbn [firstn skipn app].
      f_equal. apply IH. lia.
    + pose proof (finditer_from_head icase (Cls cs) fuel (S idx) s) as Hhead.
      rewrite (sub_build_shift repl _ [c] s idx).
      * cbn [length app]. rewrite Nat.add_1_r. f_equal. apply IH. lia.
      * cbn [length]. rewrite Nat.add_1_r. exact Hhead.
Qed.

(** [re.sub] with a one-character class rewrites the text character by
    character. *)
Lemma re_sub_class icase cs repl s :
  re_sub icase (Cls cs) repl s = flat_map (sub_char icase cs repl) s.
Proof. apply re_sub_class_from. lia. Qed.

(** ** National number *)

Lemma national_id_format_eq :
  national_id_format =
  Seq Bol
    (Seq (Rep (Cls [CDigit]) 3 (Some 3%nat))
       (Seq (Cls [CChr 45])
          (Seq (Rep (Cls [CDigit]) 4 (Some 4%nat))
             (Seq (Cls [CChr 45])
                (Seq (Rep (Cls [CDigit]) 4 (Some 5%nat)) Eol))))).
Proof. reflexivity. Qed.

Lemma Forall_decimals w :
  Forall (fun c => cls_match false [CDigit] c = true) w ->
  forallb is_decimal w = true.
Proof.
  intros H. apply forallb_forall. intros x Hx.
  rewrite List.Forall_forall in H. specialize (H x Hx).
  cbn in H. now rewrite orb_false_r in H.
Qed.

Lemma hyphen_class c : cls_match false [CChr 45] c = true -> c = 45.
Proof. cbn. rewrite orb_false_r. apply N.eqb_eq. Qed.

(** What the validation of a national number accepts. *)
Lemma national_id_ok_sound c :
  national_id_ok c = true ->
  exists w tail, c = w ++ tail /\ national_id_form w
                 /\ (tail = [] \/ tail = [newline]).
Proof.
  unfold national_id_ok, re_match.
  destruct (match_at false national_id_format 0 c) as [m|] eqn:Hm;
    [intros _|discriminate].
  destruct (match_at_spec _ _ _ _ _ Hm) as (post & st & Hc & _ & _ & Hsem & _).
  rewrite national_id_format_eq in Hsem. inv_sem.
  match goal with H : sem _ Eol _ _ |- _ =>
    apply sem_eol_inv in H; destruct H as (Hs & _ & Htail)
  end.
  repeat match goal with
         | H : cls_match false [CChr 45] _ = true |- _ => apply hyphen_class in H
         | H : Forall _ _ |- _ => apply Forall_decimals in H
         end.
  subst.
  match goal with
  | H : _ = ?a ++ 45 :: ?b ++ 45 :: ?c ++ post |- _ =>
      exists (a ++ 45 :: b ++ 45 :: c), post; split;
      [rewrite H; now norm_app|split; [|exact Htail]];
      exists a, b, c
  end.
  split; [reflexivity|].
  rewrite !forallb_app.
  repeat match goal with H : forallb _ _ = true |- _ => rewrite H; clear H end.
  repeat split; lia.
Qed.

Lemma sub_char_no_blank g :
  Forall (fun c => is_space c = false)
         (flat_map (sub_char false [CSpace; CChr (ch ".")] (u "-")) g).
Proof.
  induction g as [|c g IH]; cbn [flat_map]; [constructor|].
  apply List.Forall_app. split; [|exact IH].
  unfold sub_char. destruct (cls_match false _ c) eqn:E.
  - repeat constructor.
  - constructor; [|constructor]. cbn in E.
    now destruct (is_space c).
Qed.

Lemma national_id_in_matches_some r ms c :
  national_id_in_matches r ms = Ok (Some c) ->
  exists g, c = re_sub false space_or_dot (u "-") g /\ national_id_ok c = true.
Proof.
  induction ms as [|m ms IH]; cbn [national_id_in_matches]; [discriminate|].
  destruct (group1_or_0 r m) as [g|]; [|discriminate].
  destruct (national_id_ok (re_sub false space_or_dot (u "-") g)) eqn:Hok.
  - intros E. injection E as <-. eauto.
  - exact IH.
Qed.

Lemma national_id_in_patterns_some text c : forall ps,
  national_id_in_patterns ps text = Ok (Some c) ->
  exists g, c = re_sub false space_or_dot (u "-") g /\ national_id_ok c = true.
Proof.
  induction ps as [|p ps IH]; cbn [national_id_in_patterns]; [discriminate|].
  destruct (national_id_in_matches p (finditer false p text)) as [[c'|]|e] eqn:E;
    cbn [mbind res_bind].
  - intros E'. injection E' as <-. eapply national_id_in_matches_some, E.
  - exact IH.
  - discriminate.
Qed.

(** A stored candidate holds no blank, so the line feed that [$]
    tolerates cannot be part of it. *)
Lemma national_id_candidate_form g :
  national_id_ok (re_sub false space_or_dot (u "-") g) = true ->
  national_id_form (re_sub false space_or_dot (u "-") g).
Proof.
  intros Hok. destruct (national_id_ok_sound _ Hok) as (w & tail & Hc & Hform & Htail).
  destruct Htail as [->| ->].
  - rewrite List.app_nil_r in Hc. now rewrite Hc.
  - exfalso. change space_or_dot with (Cls [CSpace; CChr (ch ".")]) in Hc.
    rewrite re_sub_class in Hc.
    pose proof (sub_char_no_blank g) as Hnb. rewrite Hc in Hnb.
    apply List.Forall_app in Hnb. destruct Hnb as [_ Hnb].
    inversion Hnb as [|? ? Hx _]. discriminate Hx.
Qed.

(** ** Range of the confidence model *)

Lemma token_confidences_positive value_words conf : forall texts i,
  Forall (fun z => (0 < z)%Z) (token_confidences value_words conf i texts).
Proof.
  induction texts as [|text texts IH]; intros i; cbn [token_confidences];
    [constructor|].
  destruct text as [|c text]; [apply IH|].
  destruct (str_in _ _); [|apply IH].
  destruct (nth_error conf i) as [[z|]|]; try apply IH.
  destruct (Z.ltb_spec 0 z); [constructor; [assumption|apply IH]|apply IH].
Qed.

Lemma matched_confidences_positive table value_words :
  Forall (fun z => (0 < z)%Z) (matched_confidences table value_words).
Proof.
  unfold matched_confidences. induction table as [|kd table IH]; cbn [flat_map];
    [constructor|].
  apply List.Forall_app. split; [apply token_confidences_positive|exact IH].
Qed.

Lemma sumZ_nonneg l : Forall (fun z => (0 < z)%Z) l -> (0 <= sumZ l)%Z.
Proof.
  induction 1 as [|z l Hz _ IH]; cbn [sumZ fold_right]; [lia|].
  unfold sumZ in IH. lia.
Qed.

Lemma round_half_even_nonneg q : (0 <= q)%Q -> (0 <= round_half_even q)%Z.
Proof.
  intros Hq. unfold Qle in Hq. cbn in Hq. rewrite Z.mul_1_r in Hq.
  unfold round_half_even.
  assert (Hf : (0 <= Qnum q / Z.pos (Qden q))%Z) by (apply Z.div_pos; lia).
  destruct (_ <? _)%Z; [exact Hf|].
  destruct (_ <? _)%Z; [lia|]. destruct (Z.even _); lia.
Qed.

Lemma round2_nonneg q : (0 <= q)%Q -> (0 <= round2 q)%Q.
Proof.
  intros Hq. unfold round2.
  assert (H : (0 <= round_half_even (q * 100))%Z).
  { apply round_half_even_nonneg. apply Qmult_le_0_compat; [exact Hq|discriminate]. }
  unfold Qle. cbn. lia.
Qed.

Lemma min_one_unit q : (0 <= q)%Q -> unit_interval (min_one q).
Proof.
  intros Hq. unfold min_one, Qltb.
  destruct (Qle_bool 1 q) eqn:E; cbn [negb].
  - split; [discriminate|apply Qle_refl].
  - split; [exact Hq|].
    destruct (Qlt_le_dec q 1) as [Hlt|Hge]; [now apply Qlt_le_weak|].
    apply Qle_bool_iff in Hge. congruence.
Qed.

Lemma dynamic_confidence_bounds table extracted_value base_confidence :
  unit_interval base_confidence ->
  unit_interval (_calculate_dynamic_confidence table extracted_value base_confidence).
Proof.
  intros [H0 H1].
  assert (Hhalf : unit_interval (base_confidence * (5 # 10))).
  { split.
    - apply Qmult_le_0_compat; [exact H0|discriminate].
    - apply Qle_trans with (1 * (5 # 10))%Q; [|discriminate].
      apply Qmult_le_compat_r; [exact H1|discriminate]. }
  unfold _calculate_dynamic_confidence.
  destruct extracted_value as [|c v]; [exact Hhalf|].
  destruct table as [|kd table]; [exact Hhalf|].
  set (ws := split_ws _). set (tb := kd :: table).
  pose proof (matched_confidences_positive tb ws) as Hpos.
  destruct (matched_confidences tb ws) as [|z zs] eqn:E; [split; assumption|].
  apply min_one_unit, round2_nonneg.
  apply sumZ_nonneg in Hpos.
  assert (Hsum : (0 <= inject_Z (sumZ (z :: zs)))%Q)
    by (unfold Qle; cbn [inject_Z Qnum Qden]; lia).
  assert (Hlen : (0 <= / inject_Z (Z.of_nat (length (z :: zs))))%Q).
  { apply Qinv_le_0_compat. unfold Qle; cbn [inject_Z Qnum Qden]. lia. }
  rewrite <- (Qplus_0_r 0).
  apply Qplus_le_compat.
  - apply Qmult_le_0_compat; [|discriminate].
    unfold Qdiv. apply Qmult_le_0_compat; [|discriminate].
    apply Qmult_le_0_compat; assumption.
  - apply Qmult_le_0_compat; [exact H0|discriminate].
Qed.

(** X1.  For a base confidence between 0 and 1 the dynamic confidence
    lies between 0 and 1, whatever the value and the token table. *)
Theorem dynamic_confidence_in_unit_interval table extracted_value base_confidence :
  unit_interval base_confidence ->
  unit_interval (_calculate_dynamic_confidence table extracted_value base_confidence).
Proof. apply dynamic_confidence_bounds. Qed.

Lemma dynamic_confidence_in_unit_interval_witness :
  unit_interval
    (_calculate_dynamic_confidence C1_table (u "SUDAN REPUBLIC") (85 # 100)).
Proof.
  apply dynamic_confidence_in_unit_interval. split; discriminate.
Defined.

(** ** Assignments to a draft record *)

Lemma writes_trans ok d1 d2 d3 :
  writes ok d1 d2 -> writes ok d2 d3 -> writes ok d1 d3.
Proof.
  intros H12 H23.
  induction H23 as [d|d d' k v _ IH Hk Hv|d d' d'' k v q _ IH Hk Hget Hv Hq E
                    |d d' d'' k v m _ IH Hk Hget Hv E].
  - assumption.
  - apply writes_field; auto.
  - apply (writes_confidence ok d1 d' d'' k v q); auto.
  - apply (writes_method ok d1 d' d'' k v m); auto.
Qed.

Lemma writes_weaken (ok ok' : string -> str -> Prop) d d' :
  (forall k v, ok k v -> ok' k v) -> writes ok d d' -> writes ok' d d'.
Proof.
  intros Hsub H.
  induction H as [d|d d' k v _ IH Hk Hv|d d' d'' k v q _ IH Hk Hget Hv Hq E
                  |d d' d'' k v m _ IH Hk Hget Hv E].
  - constructor.
  - apply writes_field; auto.
  - apply (writes_confidence ok' d d' d'' k v q); auto.
  - apply (writes_method ok' d d' d'' k v m); auto.
Qed.

Lemma set_confidence_ok k q d d' :
  set_confidence k q d = Ok d' ->
  exists s, confidence_scores d = Some s
            /\ d' = Doc (fields d) (Some (<[k := q]> s)) (extraction_method d)
                        (numbers d).
Proof.
  unfold set_confidence. destruct (confidence_scores d) as [s|]; [|discriminate].
  intros E. injection E as <-. eauto.
Qed.

Lemma set_method_ok k m d d' :
  set_method k m d = Ok d' ->
  exists ms, extraction_method d = Some ms
             /\ d' = Doc (fields d) (confidence_scores d) (Some (<[k := m]> ms))
                         (numbers d).
Proof.
  unfold set_method. destruct (extraction_method d) as [ms|]; [|discriminate].
  intros E. injection E as <-. eauto.
Qed.

Lemma writes_tables ok d d' : writes ok d d' -> has_tables d -> has_tables d'.
Proof.
  unfold has_tables.
  induction 1 as [d|d d' k v _ IH _ _|d d' d'' k v q _ IH _ _ _ _ E
                  |d d' d'' k v m _ IH _ _ _ E]; intros Hd.
  - exact Hd.
  - exact (IH Hd).
  - destruct (set_confidence_ok _ _ _ _ E) as (s & _ & ->). cbn.
    split; [discriminate|apply (IH Hd)].
  - destruct (set_method_ok _ _ _ _ E) as (ms & _ & ->). cbn.
    split; [apply (IH Hd)|discriminate].
Qed.



Lemma writes_numbers ok d d' : writes ok d d' -> numbers d' = numbers d.
Proof.
  induction 1 as [d|d d' k v _ IH _ _|d d' d'' k v q _ IH _ _ _ _ E
                  |d d' d'' k v m _ IH _ _ _ E].
  - reflexivity.
  - exact IH.
  - destruct (set_confidence_ok _ _ _ _ E) as (s & _ & ->). exact IH.
  - destruct (set_method_ok _ _ _ _ E) as (ms & _ & ->). exact IH.
Qed.

Lemma get_set_field k k' v d :
  get k' (set_field k v d) = if decide (k = k') then v else get k' d.
Proof.
  unfold get, set_field. cbn [fields].
  destruct (decide (k = k')) as [->|Hne].
  - now rewrite lookup_insert_eq.
  - now rewrite lookup_insert_ne.
Qed.

Lemma truthy_nonempty v : v <> [] -> truthy (Some v) = true.
Proof. destruct v; [congruence|reflexivity]. Qed.

(** The value of a field is the one it had, or one that was assigned. *)
Lemma writes_value ok d d' k :
  writes ok d d' ->
  get k d' = get k d \/ exists v, get k d' = Some v /\ ok k v.
Proof.
  induction 1 as [d|d d' k' v _ IH Hin _|d d' d'' k' v q _ IH _ _ _ _ E
                  |d d' d'' k' v m _ IH _ _ _ E].
  - now left.
  - rewrite get_set_field. destruct (decide (k' = k)) as [->|_]; [right; eauto|exact IH].
  - destruct (set_confidence_ok _ _ _ _ E) as (s & _ & ->). exact IH.
  - destruct (set_method_ok _ _ _ _ E) as (ms & _ & ->). exact IH.
Qed.

(** A field that holds a value keeps holding one. *)
Lemma writes_truthy ok d d' k :
  writes ok d d' -> truthy (get k d) = true -> truthy (get k d') = true.
Proof.
  induction 1 as [d|d d' k' v _ IH _ Hv|d d' d'' k' v q _ IH _ _ _ _ E
                  |d d' d'' k' v m _ IH _ _ _ E]; intros Hk.
  - exact Hk.
  - rewrite get_set_field. destruct (decide (k' = k)); [now apply truthy_nonempty|auto].
  - destruct (set_confidence_ok _ _ _ _ E) as (s & _ & ->). now apply IH.
  - destruct (set_method_ok _ _ _ _ E) as (ms & _ & ->). now apply IH.
Qed.

Lemma writes_scores_sound ok d d' :
  writes ok d d' -> scores_sound d -> scores_sound d'.
Proof.
  induction 1 as [d|d d' k v _ IH _ Hv|d d' d'' k v q _ IH _ Hget Hv Hq E
                  |d d' d'' k v m _ IH _ Hget Hv E]; intros Hd.
  - exact Hd.
  - destruct (IH Hd) as [Hc Hm]. split.
    + intros k' q Hq. change (confidence_of k' d' = Some q) in Hq.
      destruct (Hc k' q Hq) as [Ht Hu]. split; [|exact Hu].
      rewrite get_set_field. destruct (decide (k = k')); [now apply truthy_nonempty|auto].
    + intros k' m Hm'. change (method_of k' d' = Some m) in Hm'.
      rewrite get_set_field. destruct (decide (k = k')); [now apply truthy_nonempty|eauto].
  - destruct (IH Hd) as [Hc Hm].
    destruct (set_confidence_ok _ _ _ _ E) as (s & Hs & ->). split.
    + intros k' q'. unfold confidence_of. cbn [confidence_scores].
      change (get k' (Doc (fields d') (Some (<[k:=q]> s)) (extraction_method d')
                          (numbers d'))) with (get k' d').
      destruct (decide (k = k')) as [<-|Hne].
      * rewrite lookup_insert_eq. intros E'. injection E' as <-.
        rewrite Hget. split; [now apply truthy_nonempty|exact Hq].
      * rewrite lookup_insert_ne by exact Hne. intros E'. apply Hc.
        unfold confidence_of. now rewrite Hs.
    + intros k' m'. apply Hm.
  - destruct (IH Hd) as [Hc Hm].
    destruct (set_method_ok _ _ _ _ E) as (ms & Hs & ->). split.
    + intros k' q'. apply Hc.
    + intros k' m'. unfold method_of. cbn [extraction_method].
      change (get k' (Doc (fields d') (confidence_scores d') (Some (<[k:=m]> ms))
                          (numbers d'))) with (get k' d').
      destruct (decide (k = k')) as [<-|Hne].
      * rewrite lookup_insert_eq. intros _. rewrite Hget. now apply truthy_nonempty.
      * rewrite lookup_insert_ne by exact Hne. intros E'. apply (Hm k' m').
        unfold method_of. now rewrite Hs.
Qed.

(** The three ways in which an extractor stores a value. *)
Lemma writes_stored ok k v d :
  ok k v -> v <> [] ->
  writes ok d (set_field k (Some v) d)
  /\ get k (set_field k (Some v) d) = Some v.
Proof.
  intros Hk Hv. split; [apply writes_field; [constructor|exact Hk|exact Hv]|].
  now rewrite get_set_field, decide_True by reflexivity.
Qed.

Lemma store_with_method ok k v m q d :
  has_tables d -> ok k v -> v <> [] -> unit_interval q ->
  exists d',
    (d1 ← set_method k m (set_field k (Some v) d); set_confidence k q d1) = Ok d'
    /\ writes ok d d'.
Proof.
  intros [Hc Hm] Hk Hv Hq. destruct (writes_stored ok k v d Hk Hv) as [W0 T0].
  destruct d as [f [s|] [ms|] n]; cbn in Hc, Hm; try congruence.
  set (d0 := set_field k (Some v) (Doc f (Some s) (Some ms) n)) in *.
  set (d1 := Doc (<[k := Some v]> f) (Some s) (Some (<[k := m]> ms)) n).
  set (d2 := Doc (<[k := Some v]> f) (Some (<[k := q]> s)) (Some (<[k := m]> ms)) n).
  assert (E1 : set_method k m d0 = Ok d1) by reflexivity.
  assert (E2 : set_confidence k q d1 = Ok d2) by reflexivity.
  exists d2. rewrite E1. cbn [mbind res_bind]. split; [exact E2|].
  apply (writes_confidence ok _ d1 d2 k v q); auto.
  apply (writes_method ok _ d0 d1 k v m); auto.
Qed.

Lemma store_then_method ok k v m q d :
  has_tables d -> ok k v -> v <> [] -> unit_interval q ->
  exists d',
    (d1 ← set_confidence k q (set_field k (Some v) d); set_method k m d1) = Ok d'
    /\ writes ok d d'.
Proof.
  intros [Hc Hm] Hk Hv Hq. destruct (writes_stored ok k v d Hk Hv) as [W0 T0].
  destruct d as [f [s|] [ms|] n]; cbn in Hc, Hm; try congruence.
  set (d0 := set_field k (Some v) (Doc f (Some s) (Some ms) n)) in *.
  set (d1 := Doc (<[k := Some v]> f) (Some (<[k := q]> s)) (Some ms) n).
  set (d2 := Doc (<[k := Some v]> f) (Some (<[k := q]> s)) (Some (<[k := m]> ms)) n).
  assert (E1 : set_confidence k q d0 = Ok d1) by reflexivity.
  assert (E2 : set_method k m d1 = Ok d2) by reflexivity.
  exists d2. rewrite E1. cbn [mbind res_bind]. split; [exact E2|].
  apply (writes_method ok _ d1 d2 k v m); auto.
  apply (writes_confidence ok _ d0 d1 k v q); auto.
Qed.

Lemma store_without_method ok k v q d :
  has_tables d -> ok k v -> v <> [] -> unit_interval q ->
  exists d',
    set_confidence k q (set_field k (Some v) d) = Ok d'
    /\ writes ok d d'.
Proof.
  intros [Hc Hm] Hk Hv Hq. destruct (writes_stored ok k v d Hk Hv) as [W0 T0].
  destruct d as [f [s|] [ms|] n]; cbn in Hc, Hm; try congruence.
  set (d0 := set_field k (Some v) (Doc f (Some s) (Some ms) n)) in *.
  set (d1 := Doc (<[k := Some v]> f) (Some (<[k := q]> s)) (Some ms) n).
  assert (E1 : set_confidence k q d0 = Ok d1) by reflexivity.
  exists d1. split; [exact E1|].
  apply (writes_confidence ok _ d0 d1 k v q); auto.
Qed.

(** ** The extractors, one by one *)

Ltac unit_constant := split; discriminate.

Ltac nothing_written := eexists; split; [reflexivity|constructor].

Lemma passport_number_writes table d all_texts :
  has_tables d ->
  exists d', _extract_passport_number table d all_texts = Ok d'
             /\ writes passport_number_value d d'.
Proof.
  intros Hd. induction all_texts as [|[source text] rest IH];
    cbn [_extract_passport_number]; [nothing_written|].
  pose proof (passport_in_patterns_language text) as Hlang.
  rewrite passport_in_catalog in *. cbn [mbind res_bind].
  destruct (first_accepted (passport_candidates text)) as [c|] eqn:Hc; [|exact IH].
  specialize (Hlang c eq_refl).
  apply (store_with_method passport_number_value); auto.
  - now split.
  - intros ->. discriminate Hlang.
  - apply dynamic_confidence_bounds. unit_constant.
Qed.

Lemma candidate_is_defined_at icase r text m :
  candidate_defined r = true -> In m (finditer icase r text) ->
  exists g, group1_or_0 r m = Some g.
Proof.
  unfold candidate_defined, group1_or_0. intros Hd Hin.
  destruct (ngroups r) as [|n]; [cbn; eauto|]. cbn in Hd |- *.
  destruct (finditer_match _ _ _ _ Hin) as (a & post & st & _ & _ & _ & Hst & Hc).
  pose proof (run_defines icase 1 r Hd _ _ Hst) as Hcap. unfold captured in Hcap.
  rewrite Hc. destruct (cap_lookup 1 (caps st)); [eauto|contradiction].
Qed.

Lemma national_id_in_matches_total r ms :
  (forall m, In m ms -> exists g, group1_or_0 r m = Some g) ->
  exists c, national_id_in_matches r ms = Ok c.
Proof.
  induction ms as [|m ms IH]; intros Hdef; [eexists; reflexivity|].
  cbn [national_id_in_matches].
  destruct (Hdef m (or_introl eq_refl)) as (g & ->).
  destruct (national_id_ok _); [eexists; reflexivity|].
  apply IH. intros m' Hm'. apply Hdef. now right.
Qed.

Lemma national_id_in_patterns_total text : forall ps,
  forallb candidate_defined ps = true ->
  exists c, national_id_in_patterns ps text = Ok c.
Proof.
  induction ps as [|p ps IH]; intros Hdef; [eexists; reflexivity|].
  cbn [forallb] in Hdef. apply andb_true_iff in Hdef. destruct Hdef as [Hp Hps].
  cbn [national_id_in_patterns].
  destruct (national_id_in_matches_total p (finditer false p text)) as (c & ->).
  { intros m Hm. now apply (candidate_is_defined_at false p text m Hp). }
  cbn [mbind res_bind]. destruct c; [eexists; reflexivity|now apply IH].
Qed.

Lemma national_id_catalog_defined :
  forallb candidate_defined PassportPatterns.national_id = true.
Proof. vm_compute. reflexivity. Qed.

Lemma national_id_form_nonempty v : national_id_form v -> v <> [].
Proof.
  intros (a & b & c & -> & _ & Ha & _). destruct a; [discriminate|discriminate].
Qed.

Lemma national_id_writes table d text :
  has_tables d ->
  exists d', _extract_national_id table d text = Ok d'
             /\ writes national_id_value d d'.
Proof.
  intros Hd. unfold _extract_national_id.
  destruct text as [|c0 text]; [nothing_written|].
  destruct (national_id_in_patterns_total (c0 :: text) _ national_id_catalog_defined)
    as ([c|] & E); rewrite E; cbn [mbind res_bind]; [|nothing_written].
  destruct (national_id_in_patterns_some _ _ _ E) as (g & -> & Hok).
  pose proof (national_id_candidate_form g Hok) as Hform.
  apply (store_without_method national_id_value); auto.
  - now split.
  - now apply national_id_form_nonempty.
  - apply dynamic_confidence_bounds. unit_constant.
Qed.

Lemma valid_date_canonical date_parts s :
  valid_date date_parts = Some s -> canonical_date 1900 2100 s.
Proof.
  unfold valid_date.
  destruct (split_on _ _) as [|p0 [|p1 [|p2 [|]]]]; try discriminate.
  destruct (py_int p0) as [day|]; [|discriminate].
  destruct (py_int p1) as [month|]; [|discriminate].
  destruct (py_int p2) as [year|]; [|discriminate].
  destruct (_ && _)%bool eqn:E; [|discriminate].
  intros H. injection H as <-. exists day, month, year.
  rewrite !andb_true_iff, !Z.leb_le in E. split; [reflexivity|lia].
Qed.

Lemma valid_dates_canonical text s :
  In s (valid_dates text) -> canonical_date 1900 2100 s.
Proof.
  unfold valid_dates. rewrite in_flat_map_iff. intros (parts & _ & Hs).
  destruct (valid_date parts) as [s'|] eqn:E; [|destruct Hs].
  destruct Hs as [<-|[]]. exact (valid_date_canonical _ _ E).
Qed.

Lemma format_date_nonempty day month year : format_date day month year <> [].
Proof.
  unfold format_date. destruct (fmt_02d (Z.to_N day)); discriminate.
Qed.

Lemma canonical_date_nonempty ylo yhi s : canonical_date ylo yhi s -> s <> [].
Proof. intros (d & m & y & -> & _). apply format_date_nonempty. Qed.

Lemma dates_writes table d text :
  has_tables d ->
  exists d', _extract_dates table d text = Ok d' /\ writes date_value d d'.
Proof.
  intros Hd. unfold _extract_dates.
  destruct text as [|c0 text]; [nothing_written|].
  pose proof (valid_dates_canonical (c0 :: text)) as Hcanon.
  destruct (valid_dates (c0 :: text)) as [|first rest].
  { cbn [mbind res_bind]. nothing_written. }
  assert (H1 : canonical_date 1900 2100 first) by (apply Hcanon; now left).
  destruct (store_without_method date_value "date_of_birth" first
              (_calculate_dynamic_confidence table first (85 # 100)) d)
    as (d1 & E1 & W1); auto.
  { split; [now left|exact H1]. }
  { exact (canonical_date_nonempty _ _ _ H1). }
  { apply dynamic_confidence_bounds. unit_constant. }
  rewrite E1. cbn [mbind res_bind].
  destruct rest as [|second rest]; [eauto|].
  pose proof (writes_tables _ _ _ W1 Hd) as Hd1.
  assert (H2 : canonical_date 1900 2100 second) by (apply Hcanon; right; now left).
  destruct (store_without_method date_value "date_of_issue" second
              (_calculate_dynamic_confidence table second (8 # 10)) d1)
    as (d2 & E2 & W2); auto.
  { split; [right; now left|exact H2]. }
  { exact (canonical_date_nonempty _ _ _ H2). }
  { apply dynamic_confidence_bounds. unit_constant. }
  rewrite E2. cbn [mbind res_bind].
  pose proof (writes_trans _ _ _ _ W1 W2) as W12.
  destruct (1 <? length (second :: rest))%nat; [|eauto].
  pose proof (writes_tables _ _ _ W12 Hd) as Hd2.
  set (final := List.last (second :: rest) []).
  assert (Hfinal : In final (first :: second :: rest)).
  { right. unfold final.
    destruct (List.exists_last (l := second :: rest)) as (l' & x & E); [discriminate|].
    rewrite E, List.last_last. apply List.in_or_app. right. now left. }
  assert (H3 : canonical_date 1900 2100 final) by (apply Hcanon, Hfinal).
  destruct (store_without_method date_value "date_of_expiry" final
              (_calculate_dynamic_confidence table final (85 # 100)) d2)
    as (d3 & E3 & W3); auto.
  { split; [right; right; now left|exact H3]. }
  { exact (canonical_date_nonempty _ _ _ H3). }
  { apply dynamic_confidence_bounds. unit_constant. }
  exists d3. split; [exact E3|]. exact (writes_trans _ _ _ _ W12 W3).
Qed.

Lemma name_candidates_ok all_texts c :
  In c (name_candidates all_texts) -> name_ok (fst c) = true.
Proof.
  unfold name_candidates. rewrite in_flat_map_iff. intros (o & _ & Hc).
  unfold name_candidates_of_text in Hc. rewrite in_flat_map_iff in Hc.
  destruct Hc as (pattern & _ & Hc). rewrite in_flat_map_iff in Hc.
  destruct Hc as (item & _ & Hc).
  destruct (name_ok _) eqn:E; [|destruct Hc].
  destruct Hc as [<-|[]]. exact E.
Qed.

Lemma name_ok_nonempty name : name_ok name = true -> name <> [].
Proof.
  unfold name_ok, in_closed_range. intros H ->.
  apply andb_true_iff in H. destruct H as [_ H]. discriminate H.
Qed.

Lemma name_writes table d all_texts :
  has_tables d ->
  exists d', _extract_name table d all_texts = Ok d'
             /\ writes (name_value all_texts) d d'.
Proof.
  intros Hd. unfold _extract_name.
  pose proof (name_candidates_ok all_texts) as Hok.
  destruct (name_candidates all_texts) as [|c cs] eqn:Hcands; [nothing_written|].
  destruct (max_by_spec (fun x : str * str => length (fst x)) cs c)
    as (l1 & l2 & E & H1 & H2).
  set (longest := max_by _ c cs) in *.
  assert (Hin : In longest (c :: cs))
    by (rewrite E; apply List.in_or_app; right; now left).
  apply (store_with_method (name_value all_texts)); auto.
  - unfold name_value. rewrite Hcands.
    split; [reflexivity|]. split; [apply Hok, Hin|]. split.
    + exists (snd longest). rewrite <- surjective_pairing. exact Hin.
    + intros x Hx. rewrite E in Hx. apply List.in_app_or in Hx.
      destruct Hx as [Hx|[<-|Hx]]; [apply Nat.lt_le_incl, (H1 x Hx)|lia|exact (H2 x Hx)].
  - apply name_ok_nonempty, Hok, Hin.
  - apply dynamic_confidence_bounds. unit_constant.
Qed.

Lemma sex_in_patterns_value text v : forall ps,
  sex_in_patterns ps text = Some v -> v = u "M" \/ v = u "F".
Proof.
  induction ps as [|p ps IH]; cbn [sex_in_patterns]; [discriminate|].
  destruct (re_search true p text) as [m|]; [|exact IH].
  destruct (group1_or_0 p m) as [[|c g]|]; try exact IH.
  destruct (str_in [upper_char c] [u "M"; u "F"]) eqn:E; [|exact IH].
  intros H. injection H as <-.
  apply existsb_str_in in E. destruct E as [E|[E|[]]]; auto.
Qed.

Lemma sex_writes table d text :
  has_tables d ->
  exists d', _extract_sex table d text = Ok d' /\ writes sex_value d d'.
Proof.
  intros Hd. unfold _extract_sex.
  destruct text as [|c0 text]; [nothing_written|].
  destruct (sex_in_patterns PassportPatterns.sex (c0 :: text)) as [v|] eqn:E;
    [|nothing_written].
  pose proof (sex_in_patterns_value _ _ _ E) as Hv.
  apply (store_then_method sex_value); auto.
  - now split.
  - destruct Hv as [-> | ->]; discriminate.
  - apply dynamic_confidence_bounds. unit_constant.
Qed.

Lemma place_candidates_of_matches_ok ms : forall cs c,
  place_candidates_of_matches ms = Ok cs -> In c cs -> place_ok c = true.
Proof.
  induction ms as [|m ms IH]; intros cs c; cbn [place_candidates_of_matches].
  - intros E. injection E as <-. intros [].
  - unfold place_candidate at 1. destruct (group m 2) as [g|]; [|discriminate].
    set (x := upper _). fold (place_ok x).
    destruct (place_candidates_of_matches ms) as [cs'|e];
      [|destruct (place_ok x); discriminate].
    destruct (place_ok x) eqn:Hx; cbn [mbind res_bind];
      intros E; injection E as <-.
    + intros [<-|Hc]; [exact Hx|now apply (IH cs')].
    + now apply IH.
Qed.

Lemma place_candidates_of_patterns_ok text : forall ps cs c,
  place_candidates_of_patterns ps text = Ok cs -> In c cs -> place_ok c = true.
Proof.
  induction ps as [|p ps IH]; intros cs c; cbn [place_candidates_of_patterns].
  - intros E. injection E as <-. intros [].
  - destruct (place_candidates_of_matches _) as [cs1|] eqn:E1; [|discriminate].
    cbn [mbind res_bind].
    destruct (place_candidates_of_patterns ps text) as [cs2|]; [|discriminate].
    cbn [mbind res_bind]. intros E. injection E as <-. intros Hc.
    apply List.in_app_or in Hc. destruct Hc as [Hc|Hc].
    + exact (place_candidates_of_matches_ok _ _ _ E1 Hc).
    + now apply (IH cs2).
Qed.

Lemma place_candidates_ok ps : forall all_texts cs c,
  place_candidates ps all_texts = Ok cs -> In c cs -> place_ok c = true.
Proof.
  induction all_texts as [|[source text] rest IH]; intros cs c;
    cbn [place_candidates].
  - intros E. injection E as <-. intros [].
  - destruct (place_candidates_of_patterns ps text) as [cs1|] eqn:E1; [|discriminate].
    cbn [mbind res_bind].
    destruct (place_candidates ps rest) as [cs2|]; [|discriminate].
    cbn [mbind res_bind]. intros E. injection E as <-. intros Hc.
    apply List.in_app_or in Hc. destruct Hc as [Hc|Hc].
    + exact (place_candidates_of_patterns_ok _ _ _ _ E1 Hc).
    + now apply (IH cs2).
Qed.

(** The place extractor never raises, and what it returns passed the
    filter. *)
Lemma _extract_place_result all_texts labels :
  _extract_place all_texts labels = Ok None
  \/ exists c, _extract_place all_texts labels
               = Ok (Some (c, u "regex_candidate_selection"))
               /\ place_ok c = true.
Proof.
  unfold _extract_place.
  pose proof (place_candidates_pool labels all_texts) as E.
  set (cs := place_pool labels all_texts) in E. rewrite E.
  cbn [mbind res_bind].
  destruct (most_common cs) as [w|] eqn:Hw; [right|now left].
  exists w. split; [reflexivity|].
  destruct (most_common_spec _ _ Hw) as (_ & l1 & l2 & Hsplit & _).
  apply (place_candidates_ok _ _ _ _ E). rewrite Hsplit.
  apply List.in_or_app. right. now left.
Qed.

Lemma place_ok_nonempty c : place_ok c = true -> c <> [].
Proof. intros H ->. discriminate H. Qed.

Lemma place_of_birth_writes table d all_texts :
  has_tables d ->
  exists d', _extract_place_of_birth table d all_texts = Ok d'
             /\ writes place_value d d'.
Proof.
  intros Hd. unfold _extract_place_of_birth.
  destruct (_extract_place_result all_texts [u "Place of Birth"; u "مكان الميلاد"])
    as [E|(c & E & Hc)]; rewrite E; cbn [mbind res_bind]; [nothing_written|].
  apply (store_with_method place_value); auto.
  - split; [now left|exact Hc].
  - now apply place_ok_nonempty.
  - apply dynamic_confidence_bounds. unit_constant.
Qed.

Lemma place_of_issue_writes table d all_texts :
  has_tables d ->
  exists d', _extract_place_of_issue table d all_texts = Ok d'
             /\ writes place_value d d'.
Proof.
  intros Hd. unfold _extract_place_of_issue.
  destruct (_extract_place_result all_texts
              [u "Place of Issue"; u "Authority"; u "مكان الإصدار"; u "جهة الإصدار"])
    as [E|(c & E & Hc)]; rewrite E; cbn [mbind res_bind]; [nothing_written|].
  apply (store_with_method place_value); auto.
  - split; [now right|exact Hc].
  - now apply place_ok_nonempty.
  - apply dynamic_confidence_bounds. unit_constant.
Qed.

(** [_extract_nationality] leaves the record alone or stores its three
    constants together. *)
Lemma nationality_result d text :
  has_tables d ->
  exists d',
    _extract_nationality d text = Ok d'
    /\ (d' = d
        \/ (get "nationality" d' = Some (u "SUDANESE")
            /\ get "country_code" d' = Some (u "SDN")
            /\ get "passport_type" d' = Some (u "PC"))).
Proof.
  intros [Hc _]. unfold _extract_nationality.
  destruct text as [|c0 text]; [eauto|].
  destruct (existsb _ _); [|eauto].
  unfold set_confidence. cbn [set_field confidence_scores].
  destruct (confidence_scores d); [|congruence].
  eexists. split; [reflexivity|]. right. unfold get, set_field. cbn [fields].
  repeat split;
    repeat first [rewrite lookup_insert_eq | rewrite lookup_insert_ne by discriminate];
    reflexivity.
Qed.

Lemma nationality_writes d text :
  has_tables d ->
  exists d', _extract_nationality d text = Ok d'
             /\ writes nationality_value d d'.
Proof.
  intros Hd. unfold _extract_nationality.
  destruct text as [|c0 text]; [nothing_written|].
  destruct (existsb _ _); [|nothing_written].
  destruct Hd as [Hc Hm]. destruct d as [f [s|] [ms|] n]; cbn in Hc, Hm; try congruence.
  eexists. split; [reflexivity|].
  set (d0 := Doc f (Some s) (Some ms) n).
  set (d1 := set_field "nationality" (Some (u "SUDANESE")) d0).
  set (d2 := set_field "country_code" (Some (u "SDN")) d1).
  set (d3 := set_field "passport_type" (Some (u "PC")) d2).
  assert (W1 : writes nationality_value d0 d1).
  { apply writes_field; [constructor| |discriminate]. left. now split. }
  assert (W2 : writes nationality_value d0 d2).
  { apply writes_field; [exact W1| |discriminate]. right. left. now split. }
  assert (W3 : writes nationality_value d0 d3).
  { apply writes_field; [exact W2| |discriminate]. right. right. now split. }
  apply (writes_confidence nationality_value d0 d3 _ "nationality"
           (u "SUDANESE") (98 # 100)); auto.
  - left. now split.
  - unfold d3, d2, d1. rewrite !get_set_field. reflexivity.
  - unit_constant.
Qed.

(** ** The draft record *)

Lemma empty_record_tables : has_tables empty_record.
Proof. split; discriminate. Qed.

Lemma empty_record_sound : scores_sound empty_record.
Proof. split; intros k x H; discriminate H. Qed.

Lemma get_empty_record k : get k empty_record = None.
Proof.
  unfold get. destruct (fields empty_record !! k) as [v|] eqn:E; [|reflexivity].
  unfold empty_record in E. cbn [fields] in E.
  apply elem_of_list_to_map_2 in E. apply list_elem_of_In in E.
  apply List.in_map_iff in E. destruct E as (x & E & _). congruence.
Qed.

(** Decide a statement [ok k v] for a literal key [k]. *)
Ltac key_cases H :=
  repeat match type of H with
         | _ \/ _ => destruct H as [H|H]
         | _ /\ _ =>
             let K := fresh "K" in
             destruct H as [K H];
             try solve [exfalso; cbn [In date_keys] in K; intuition discriminate]
         end.

(** The run of [_smart_field_extraction]: the seven extractors that
    read the text, then the nationality. *)
Lemma draft_steps table all_texts :
  exists before draft,
    writes (text_value all_texts) empty_record before
    /\ _extract_nationality before (combined_text all_texts) = Ok draft
    /\ writes nationality_value before draft
    /\ _smart_field_extraction table all_texts = Ok draft.
Proof.
  unfold _smart_field_extraction. fold (combined_text all_texts).
  set (text := combined_text all_texts).
  set (ok := text_value all_texts).
  pose proof empty_record_tables as T0.
  destruct (passport_number_writes table empty_record all_texts T0) as (d1 & E1 & W1).
  apply (writes_weaken _ ok) in W1; [|unfold ok, text_value; tauto].
  pose proof (writes_tables _ _ _ W1 T0) as T1.
  destruct (national_id_writes table d1 text T1) as (d2 & E2 & W2).
  apply (writes_weaken _ ok) in W2; [|unfold ok, text_value; tauto].
  pose proof (writes_tables _ _ _ W2 T1) as T2.
  destruct (dates_writes table d2 text T2) as (d3 & E3 & W3).
  apply (writes_weaken _ ok) in W3; [|unfold ok, text_value; tauto].
  pose proof (writes_tables _ _ _ W3 T2) as T3.
  destruct (name_writes table d3 all_texts T3) as (d4 & E4 & W4).
  apply (writes_weaken _ ok) in W4; [|unfold ok, text_value; tauto].
  pose proof (writes_tables _ _ _ W4 T3) as T4.
  destruct (sex_writes table d4 text T4) as (d5 & E5 & W5).
  apply (writes_weaken _ ok) in W5; [|unfold ok, text_value; tauto].
  pose proof (writes_tables _ _ _ W5 T4) as T5.
  destruct (place_of_birth_writes table d5 all_texts T5) as (d6 & E6 & W6).
  apply (writes_weaken _ ok) in W6; [|unfold ok, text_value; tauto].
  pose proof (writes_tables _ _ _ W6 T5) as T6.
  destruct (place_of_issue_writes table d6 all_texts T6) as (d7 & E7 & W7).
  apply (writes_weaken _ ok) in W7; [|unfold ok, text_value; tauto].
  pose proof (writes_tables _ _ _ W7 T6) as T7.
  destruct (nationality_writes d7 text T7) as (d8 & E8 & W8).
  exists d7, d8.
  rewrite E1; cbn [mbind res_bind]. rewrite E2; cbn [mbind res_bind].
  rewrite E3; cbn [mbind res_bind]. rewrite E4; cbn [mbind res_bind].
  rewrite E5; cbn [mbind res_bind]. rewrite E6; cbn [mbind res_bind].
  rewrite E7; cbn [mbind res_bind].
  repeat split; auto.
  repeat (eapply writes_trans; [|eassumption]). constructor.
Qed.

(** The field extraction never raises, and every value of the draft
    record is one that its extractor accepts. *)
Lemma draft_record table all_texts :
  exists draft,
    _smart_field_extraction table all_texts = Ok draft
    /\ writes (draft_value all_texts) empty_record draft.
Proof.
  destruct (draft_steps table all_texts) as (before & draft & W & _ & Wn & E).
  exists draft. split; [exact E|].
  apply writes_trans with before.
  - eapply writes_weaken; [|exact W]. unfold draft_value. tauto.
  - eapply writes_weaken; [|exact Wn]. unfold draft_value. tauto.
Qed.

Lemma draft_field table all_texts :
  exists draft,
    _smart_field_extraction table all_texts = Ok draft
    /\ forall k v, get k draft = Some v -> draft_value all_texts k v.
Proof.
  destruct (draft_record table all_texts) as (draft & E & W).
  exists draft. split; [exact E|]. intros k v Hv.
  destruct (writes_value _ _ _ k W) as [H|(v' & H & Hok)].
  - rewrite get_empty_record in H. congruence.
  - congruence.
Qed.

(** X2.  Confidence and provenance of the draft record: the field
    extraction returns a record in which every confidence lies between
    0 and 1 and belongs to a field that holds a value, and so does every
    method tag. *)
Theorem draft_scores_are_sound table all_texts :
  exists draft,
    _smart_field_extraction table all_texts = Ok draft /\ scores_sound draft.
Proof.
  destruct (draft_record table all_texts) as (draft & E & W).
  exists draft. split; [exact E|].
  exact (writes_scores_sound _ _ _ W empty_record_sound).
Qed.

(** X3.  The sex read from the text is M or F, or the field is null. *)
Theorem draft_sex_is_M_or_F table all_texts :
  exists draft,
    _smart_field_extraction table all_texts = Ok draft
    /\ (get "sex" draft = None \/ get "sex" draft = Some (u "M")
        \/ get "sex" draft = Some (u "F")).
Proof.
  destruct (draft_field table all_texts) as (draft & E & Hdraft).
  exists draft. split; [exact E|].
  destruct (get "sex" draft) as [v|] eqn:Hv; [right|now left].
  specialize (Hdraft _ _ Hv). unfold draft_value, text_value, passport_number_value,
    national_id_value, date_value, name_value, sex_value, place_value,
    nationality_value in Hdraft.
  key_cases Hdraft; subst; auto.
Qed.

(** X4.  The national number of the draft record has the form
    DDD-DDDD-DDDD or DDD-DDDD-DDDDD: blanks and dots between the groups
    have become hyphens, and nothing else surrounds the digits. *)
Theorem draft_national_id_is_hyphenated table all_texts :
  exists draft,
    _smart_field_extraction table all_texts = Ok draft
    /\ forall v, get "national_id" draft = Some v -> national_id_form v.
Proof.
  destruct (draft_field table all_texts) as (draft & E & Hdraft).
  exists draft. split; [exact E|]. intros v Hv.
  specialize (Hdraft _ _ Hv). unfold draft_value, text_value, passport_number_value,
    national_id_value, date_value, name_value, sex_value, place_value,
    nationality_value in Hdraft.
  key_cases Hdraft; auto.
Qed.

(** X5.  The three dates of the draft record are written [DD-MM-YYYY],
    with a day from 1 to 31, a month from 1 to 12 and a year from 1900
    to 2100. *)
Theorem draft_dates_are_canonical table all_texts :
  exists draft,
    _smart_field_extraction table all_texts = Ok draft
    /\ forall k v, In k date_keys -> get k draft = Some v ->
                   canonical_date 1900 2100 v.
Proof.
  destruct (draft_field table all_texts) as (draft & E & Hdraft).
  exists draft. split; [exact E|]. intros k v Hk Hv.
  specialize (Hdraft _ _ Hv). unfold draft_value, text_value, passport_number_value,
    national_id_value, date_value, name_value, sex_value, place_value,
    nationality_value in Hdraft.
  cbn [In date_keys] in Hk.
  destruct Hk as [<-|[<-|[<-|[]]]]; key_cases Hdraft; auto.
Qed.

(** X6.  The name of the draft record is a candidate that passed the
    filter (10 to 60 characters, none of the words that are not names),
    and no candidate is longer. *)
Theorem draft_name_is_longest_candidate table all_texts :
  exists draft,
    _smart_field_extraction table all_texts = Ok draft
    /\ forall v, get "full_name" draft = Some v ->
         name_ok v = true
         /\ (exists source, In (v, source) (name_candidates all_texts))
         /\ (forall c, In c (name_candidates all_texts) ->
                       (length (fst c) <= length v)%nat).
Proof.
  destruct (draft_field table all_texts) as (draft & E & Hdraft).
  exists draft. split; [exact E|]. intros v Hv.
  specialize (Hdraft _ _ Hv). unfold draft_value, text_value, passport_number_value,
    national_id_value, date_value, name_value, sex_value, place_value,
    nationality_value in Hdraft.
  key_cases Hdraft; auto.
Qed.

(** X7.  A place of the draft record passed the filter: it has 4 to 24
    characters and is none of the words that are not names. *)
Theorem draft_places_pass_the_filter table all_texts :
  exists draft,
    _smart_field_extraction table all_texts = Ok draft
    /\ forall k v, k = "place_of_birth"%string \/ k = "place_of_issue"%string ->
                   get k draft = Some v -> place_ok v = true.
Proof.
  destruct (draft_field table all_texts) as (draft & E & Hdraft).
  exists draft. split; [exact E|]. intros k v Hk Hv.
  specialize (Hdraft _ _ Hv). unfold draft_value, text_value, passport_number_value,
    national_id_value, date_value, name_value, sex_value, place_value,
    nationality_value in Hdraft.
  destruct Hk as [-> | ->]; key_cases Hdraft; auto.
Qed.



(** ** The score *)

Lemma count_present_le keys d : (count_present keys d <= length keys)%nat.
Proof. unfold count_present. apply List.filter_length_le. Qed.

(** The ten values of the score, by the number of fields that are
    present, and the two thresholds that the callers apply to it. *)
Lemma score_by_count d :
  let n := count_present important_fields d in
  (n <= 9)%nat
  /\ (0 <= _calculate_score d)%Q /\ (_calculate_score d <= 100)%Q
  /\ ((_calculate_score d == 0)%Q <-> n = 0%nat)
  /\ ((_calculate_score d == 100)%Q <-> n = 9%nat)
  /\ ((70 < _calculate_score d)%Q <-> (7 <= n)%nat)
  /\ ((_calculate_score d < 70)%Q <-> (n <= 6)%nat).
Proof.
  intros n. pose proof (count_present_le important_fields d) as Hle.
  fold n in Hle. change (length important_fields) with 9%nat in Hle.
  unfold _calculate_score. fold n. change (length important_fields) with 9%nat.
  split; [exact Hle|].
  assert (Hn : In n (seq 0 10)) by (apply List.in_seq; lia).
  clearbody n. cbn [seq In] in Hn.
  repeat (destruct Hn as [<-|Hn]; [vm_compute; repeat split; intros; try lia; try discriminate|]).
  destruct Hn.
Qed.

(** X9.  The score counts the nine important fields: it lies between 0
    and 100, is 0 exactly when none of them is present and 100 exactly
    when all nine are. *)
Theorem score_range_and_extremes data :
  (0 <= _calculate_score data)%Q /\ (_calculate_score data <= 100)%Q
  /\ ((_calculate_score data == 0)%Q
      <-> count_present important_fields data = 0%nat)
  /\ ((_calculate_score data == 100)%Q
      <-> count_present important_fields data = 9%nat).
Proof.
  destruct (score_by_count data) as (_ & H0 & H100 & Hz & Hf & _). auto.
Qed.

(** X10.  The thresholds of the callers: the score exceeds 70 exactly
    when at least seven of the nine important fields are present, and is
    below 70 exactly when at most six are; it is never 70. *)
Theorem score_threshold_is_seven_fields data :
  ((70 < _calculate_score data)%Q
   <-> (7 <= count_present important_fields data)%nat)
  /\ ((_calculate_score data < 70)%Q
      <-> (count_present important_fields data <= 6)%nat).
Proof.
  destruct (score_by_count data) as (_ & _ & _ & _ & _ & H1 & H2). auto.
Qed.

(** ** Fusion and the score *)

Lemma mapped_field_entry f :
  In f mapped_fields -> exists mrz_field, In (mrz_field, f) field_mapping.
Proof.
  unfold mapped_fields. intros H. apply List.in_map_iff in H.
  destruct H as ([mk ek] & <- & H). eauto.
Qed.

(** A field that holds a value holds one after the fusion. *)
Lemma enhance_keeps_values extracted_data mrz_data k :
  k <> "mrz_text"%string -> k <> "mrz_extraction_method"%string ->
  truthy (get k extracted_data) = true ->
  truthy (get k (enhance_extraction_with_mrz extracted_data mrz_data)) = true.
Proof.
  intros H1 H2 Hk.
  destruct (List.in_dec String.string_dec k mapped_fields) as [Hin|Hnin].
  - destruct (mapped_field_entry _ Hin) as (mk & Hentry).
    pose proof (enhance_mapped_view extracted_data mrz_data mk k Hentry) as Hview.
    remember (enhance_extraction_with_mrz extracted_data mrz_data) as result
      eqn:Hresult in *. clear Hresult.
    destruct (truthy (mrz_get mk mrz_data)) eqn:Hmrz; cbn [andb] in Hview.
    + destruct (overrides mrz_data extracted_data k).
      * unfold view in Hview. injection Hview as Hf _ _.
        unfold get. now rewrite Hf.
      * now rewrite (get_of_view _ _ _ Hview).
    + now rewrite (get_of_view _ _ _ Hview).
  - rewrite (get_of_view k _ extracted_data); [exact Hk|].
    rewrite enhance_view by assumption. now apply fold_fuse_other.
Qed.

Lemma count_present_mono keys d d' :
  (forall k, In k keys -> truthy (get k d) = true -> truthy (get k d') = true) ->
  (count_present keys d <= count_present keys d')%nat.
Proof.
  unfold count_present. induction keys as [|k keys IH]; intros H; [reflexivity|].
  cbn [List.filter].
  assert (IH' : (length (List.filter (fun k => truthy (get k d)) keys)
                 <= length (List.filter (fun k => truthy (get k d')) keys))%nat)
    by (apply IH; intros k' Hk'; apply H; now right).
  destruct (truthy (get k d)) eqn:E.
  - rewrite (H k (or_introl eq_refl) E). cbn [length]. lia.
  - destruct (truthy (get k d')); cbn [length]; lia.
Qed.

Lemma score_mono d d' :
  (count_present important_fields d <= count_present important_fields d')%nat ->
  (_calculate_score d <= _calculate_score d')%Q.
Proof.
  pose proof (count_present_le important_fields d') as Hle.
  change (length important_fields) with 9%nat in Hle.
  unfold _calculate_score. change (length important_fields) with 9%nat.
  generalize dependent (count_present important_fields d').
  generalize (count_present important_fields d).
  intros n n' Hn' Hnn'.
  assert (Hn : In n (seq 0 10)) by (apply List.in_seq; lia).
  assert (Hm : In n' (seq 0 10)) by (apply List.in_seq; lia).
  cbn [seq In] in Hn, Hm.
  repeat (destruct Hn as [<-|Hn]);
    try (destruct Hn);
    repeat (destruct Hm as [<-|Hm]); try (destruct Hm);
    try lia; vm_compute; discriminate.
Qed.

(** X11.  The fusion with the MRZ never lowers the score. *)
Theorem fusion_never_lowers_the_score extracted_data mrz_data :
  (_calculate_score extracted_data
   <= _calculate_score (enhance_extraction_with_mrz extracted_data mrz_data))%Q.
Proof.
  apply score_mono, count_present_mono. intros k Hk.
  apply enhance_keeps_values; intros ->; cbn in Hk; intuition discriminate.
Qed.

(** ** Fusing twice *)

Lemma Qltb_irrefl q : Qltb q q = false.
Proof.
  unfold Qltb. apply negb_false_iff, Qle_bool_iff, Qle_refl.
Qed.

(** After the fusion no mapped field is overridden again. *)
Lemma enhance_settles extracted_data mrz_data mrz_field f :
  In (mrz_field, f) field_mapping ->
  truthy (mrz_get mrz_field mrz_data) = true ->
  overrides mrz_data (enhance_extraction_with_mrz extracted_data mrz_data) f = false.
Proof.
  intros Hentry Hmrz.
  pose proof (enhance_mapped_view extracted_data mrz_data mrz_field f Hentry) as Hview.
  remember (enhance_extraction_with_mrz extracted_data mrz_data) as result
    eqn:Hresult in *. clear Hresult.
  rewrite Hmrz in Hview. cbn [andb] in Hview.
  destruct (overrides mrz_data extracted_data f) eqn:Hov.
  - unfold view in Hview. injection Hview as Hf Hc _.
    unfold overrides, get. rewrite Hf, Hc, Hmrz. cbn [negb orb default].
    apply Qltb_irrefl.
  - now rewrite (overrides_of_view mrz_data f _ _ Hview).
Qed.

Lemma fold_fuse_settled mrz_data data : forall l,
  (forall mrz_field f, In (mrz_field, f) l ->
     truthy (mrz_get mrz_field mrz_data) = true ->
     overrides mrz_data data f = false) ->
  fold_left (fuse_field mrz_data) l data = data.
Proof.
  induction l as [|[mk ek] l IH]; intros H; [reflexivity|].
  cbn [fold_left].
  assert (E : fuse_field mrz_data data (mk, ek) = data).
  { unfold fuse_field. cbn [fst snd].
    destruct (truthy (mrz_get mk mrz_data)) eqn:Hmrz; [|reflexivity].
    now rewrite (H mk ek (or_introl eq_refl) Hmrz). }
  rewrite E. apply IH. intros mk' ek' Hin. apply H. now right.
Qed.

(** X12.  Fusing the same MRZ record a second time changes nothing. *)
Theorem fusion_is_idempotent extracted_data mrz_data :
  enhance_extraction_with_mrz
    (enhance_extraction_with_mrz extracted_data mrz_data) mrz_data
  = enhance_extraction_with_mrz extracted_data mrz_data.
Proof.
  pose proof (fun mk f => enhance_settles extracted_data mrz_data mk f) as Hsettled.
  pose proof (fold_fuse_numbers mrz_data field_mapping extracted_data) as Hnum.
  assert (Hshape : exists data,
             enhance_extraction_with_mrz extracted_data mrz_data
             = set_field "mrz_extraction_method"
                 (Some (mrz_method_or (u "none") mrz_data))
                 (set_number "mrz_confidence" (mrz_confidence_or 0 mrz_data)
                    (set_field "mrz_text" (mrz_get "mrz_text" mrz_data) data)))
    by (eexists; reflexivity).
  destruct Hshape as (data & Hshape).
  remember (enhance_extraction_with_mrz extracted_data mrz_data) as result
    eqn:Hresult in *. clear Hresult.
  unfold enhance_extraction_with_mrz.
  rewrite (fold_fuse_settled mrz_data result field_mapping Hsettled).
  rewrite Hshape. unfold set_field, set_number.
  cbn [fields confidence_scores extraction_method numbers].
  f_equal.
  - rewrite (insert_insert_ne _ "mrz_text" "mrz_extraction_method") by discriminate.
    now rewrite !insert_insert_eq.
  - now rewrite insert_insert_eq.
Qed.

(** ** The engine *)

Lemma count_present_set_field keys k v d :
  ~ In k keys -> count_present keys (set_field k v d) = count_present keys d.
Proof.
  unfold count_present. intros Hk. f_equal. apply List.filter_ext_in.
  intros k' Hk'. rewrite get_set_field.
  destruct (decide (k = k')) as [->|_]; [contradiction|reflexivity].
Qed.

Lemma count_present_set_number keys k q d :
  count_present keys (set_number k q d) = count_present keys d.
Proof. reflexivity. Qed.

(** X13.  Whatever the images, the token table and the results of the
    OCR passes and of the MRZ resolver are, the engine returns a record,
    and the score and the summary that it stores are those of the record
    it returns: the two entries added last do not count. *)
Theorem extract_returns_a_scored_record
        (Image : Type) _multi_pass_extraction extract_mrz_data
        table (preprocessed_images : list (str * Image)) :
  exists result,
    extract Image _multi_pass_extraction extract_mrz_data table preprocessed_images
    = Ok result
    /\ numbers result !! "extraction_score"%string = Some (_calculate_score result)
    /\ get "extraction_summary" result = Some (_generate_summary result).
Proof.
  unfold extract.
  destruct (collect_texts Image _multi_pass_extraction table preprocessed_images)
    as [all_extracted_texts table'].
  destruct (draft_record table' all_extracted_texts) as (draft & -> & _).
  cbn [mbind res_bind].
  match goal with
  | |- context [set_number _ (_calculate_score ?d) ?d] => generalize d
  end.
  intros data. eexists. split; [reflexivity|].
  unfold _calculate_score, _generate_summary.
  rewrite !count_present_set_field, !count_present_set_number
    by (cbn; intuition discriminate).
  split.
  - unfold set_field, set_number. cbn [numbers]. now rewrite lookup_insert_eq.
  - now rewrite get_set_field, decide_True.
Qed.



(** ** Dates of the MRZ *)

Lemma decimal_value_bound c d : decimal_value c = Some d -> d <= 9.
Proof.
  unfold decimal_value.
  destruct (List.find _ decimal_zeros) as [z|] eqn:E; [|discriminate].
  apply List.find_some in E. destruct E as [_ E].
  unfold in_range in E. apply andb_true_iff in E. destruct E as [E1 E2].
  apply N.leb_le in E1, E2. intros H. injection H as <-. lia.
Qed.

Lemma int_tail_bound : forall k s acc n after,
  (length s <= k)%nat -> int_tail acc s = Some (n, after) ->
  n + 1 <= (acc + 1) * 10 ^ N.of_nat (length s).
Proof.
  induction k as [|k IH]; intros s acc n after Hk.
  - destruct s; [|cbn in Hk; lia]. cbn. intros H. injection H as <- _. lia.
  - destruct s as [|c s]; [cbn; intros H; injection H as <- _; lia|].
    cbn [int_tail length]. rewrite Nat2N.inj_succ, N.pow_succ_r'.
    assert (Hpow : 1 <= 10 ^ N.of_nat (length s))
      by (apply (N.pow_le_mono_r 10 0); lia).
    destruct (decimal_value c) as [d|] eqn:Hd.
    + intros H. apply IH in H; [|cbn in Hk; lia].
      apply decimal_value_bound in Hd. nia.
    + destruct (c =? 95); [|intros H; injection H as <- _; nia].
      destruct s as [|c' s']; [discriminate|].
      destruct (decimal_value c') as [d|] eqn:Hd'; [|discriminate].
      intros H. apply IH in H; [|cbn in Hk |- *; lia].
      apply decimal_value_bound in Hd'.
      cbn [length] in *. rewrite Nat2N.inj_succ, N.pow_succ_r' in *. nia.
Qed.

Lemma int_magnitude_bound s n :
  int_magnitude s = Some n -> n < 10 ^ N.of_nat (length s).
Proof.
  unfold int_magnitude. destruct s as [|c s]; [discriminate|].
  destruct (decimal_value c) as [d|] eqn:Hd; [|discriminate].
  destruct (int_tail d s) as [[m after]|] eqn:Ht; [|discriminate].
  destruct (forallb _ _); [|discriminate]. intros H. injection H as <-.
  apply (int_tail_bound (length s)) in Ht; [|lia].
  apply decimal_value_bound in Hd.
  cbn [length]. rewrite Nat2N.inj_succ, N.pow_succ_r'. nia.
Qed.

Lemma skip_int_space_length s : (length (skip_int_space s) <= length s)%nat.
Proof.
  induction s as [|c s IH]; [reflexivity|]. cbn [skip_int_space].
  destruct (is_int_space c); cbn [length]; lia.
Qed.

(** A string of two characters converts to a number from -9 to 99. *)
Lemma int_of_two_chars s z :
  (length s <= 2)%nat -> int_of_str s = Some z -> (-9 <= z <= 99)%Z.
Proof.
  intros Hlen. unfold int_of_str.
  pose proof (skip_int_space_length s) as Hskip.
  assert (Hmag : forall t n, (length t <= 2)%nat -> int_magnitude t = Some n ->
                             n < 100).
  { intros t n Ht Hn. apply int_magnitude_bound in Hn.
    assert (10 ^ N.of_nat (length t) <= 10 ^ 2) by (apply N.pow_le_mono_r; lia).
    change (10 ^ 2) with 100 in *. lia. }
  assert (Hmag1 : forall t n, (length t <= 1)%nat -> int_magnitude t = Some n ->
                              n < 10).
  { intros t n Ht Hn. apply int_magnitude_bound in Hn.
    assert (10 ^ N.of_nat (length t) <= 10 ^ 1) by (apply N.pow_le_mono_r; lia).
    change (10 ^ 1) with 10 in *. lia. }
  destruct (skip_int_space s) as [|c t] eqn:E; [discriminate|].
  cbn [length] in Hskip.
  assert (Hpos : forall n, int_magnitude (c :: t) = Some n -> (-9 <= Z.of_N n <= 99)%Z).
  { intros n Hn. apply Hmag in Hn; [lia|cbn [length]; lia]. }
  assert (Hsign : forall n, int_magnitude t = Some n -> (0 <= Z.of_N n <= 9)%Z).
  { intros n Hn. apply Hmag1 in Hn; [lia|lia]. }
  destruct (c =? 43); [|destruct (c =? 45)].
  - destruct (int_magnitude t) as [n|] eqn:Hn; [|discriminate].
    intros H. injection H as <-. specialize (Hsign n eq_refl). lia.
  - destruct (int_magnitude t) as [n|] eqn:Hn; [|discriminate].
    intros H. injection H as <-. specialize (Hsign n eq_refl). lia.
  - destruct (int_magnitude (c :: t)) as [n|]; [|discriminate].
    intros H. injection H as <-. now apply Hpos.
Qed.

Lemma slice_length i j s : (length (slice i j s) <= j - i)%nat.
Proof. unfold slice. rewrite List.length_firstn. lia. Qed.

Lemma _format_date_canonical date_str out :
  _format_date date_str = Some out -> canonical_date 1930 2029 out.
Proof.
  unfold _format_date. destruct (negb _); [discriminate|].
  destruct (int_of_str (slice 0 2 date_str)) as [yy|] eqn:Hyy; [|discriminate].
  destruct (int_of_str (slice 2 4 date_str)) as [mm|]; [|discriminate].
  destruct (int_of_str (slice 4 6 date_str)) as [dd|]; [|discriminate].
  destruct (_ && _)%bool eqn:E; [|discriminate].
  intros H. injection H as <-.
  rewrite !andb_true_iff, !Z.leb_le in E.
  apply int_of_two_chars in Hyy; [|apply (slice_length 0 2)].
  eexists dd, mm, _. split; [reflexivity|].
  destruct (Z.ltb_spec yy 30); lia.
Qed.

(** X14.  Whatever the six characters are, a date that [_format_date]
    returns is written [DD-MM-YYYY] with a day from 1 to 31, a month from
    1 to 12 and a year from 1930 to 2029. *)
Theorem mrz_date_is_canonical date_str out :
  _format_date date_str = Some out -> canonical_date 1930 2029 out.
Proof. apply _format_date_canonical. Qed.

Lemma mrz_date_is_canonical_witness :
  canonical_date 1930 2029 (u "15-06-1985").
Proof. apply (mrz_date_is_canonical (u "850615")). vm_compute. reflexivity. Defined.

Lemma two_digits n :
  n < 100 ->
  length (fmt_02d n) = 2%nat /\ int_of_str (fmt_02d n) = Some (Z.of_N n).
Proof.
  intros Hn.
  set (check := fun n => Nat.eqb (length (fmt_02d n)) 2
                         && match int_of_str (fmt_02d n) with
                            | Some z => (z =? Z.of_N n)%Z
                            | None => false
                            end).
  assert (Hall : forallb check (List.map N.of_nat (seq 0 100)) = true)
    by (vm_compute; reflexivity).
  rewrite forallb_forall in Hall.
  assert (Hin : In n (List.map N.of_nat (seq 0 100))).
  { apply List.in_map_iff. exists (N.to_nat n). split; [lia|]. apply List.in_seq. lia. }
  specialize (Hall n Hin). unfold check in Hall.
  apply andb_true_iff in Hall. destruct Hall as [H1 H2].
  apply Nat.eqb_eq in H1. split; [exact H1|].
  destruct (int_of_str (fmt_02d n)) as [z|]; [|discriminate].
  apply Z.eqb_eq in H2. now subst z.
Qed.

Lemma slices_of_three (a b c : str) :
  length a = 2%nat -> length b = 2%nat -> length c = 2%nat ->
  length (a ++ b ++ c) = 6%nat
  /\ slice 0 2 (a ++ b ++ c) = a /\ slice 2 4 (a ++ b ++ c) = b
  /\ slice 4 6 (a ++ b ++ c) = c.
Proof.
  destruct a as [|a0 [|a1 [|]]]; try discriminate.
  destruct b as [|b0 [|b1 [|]]]; try discriminate.
  destruct c as [|c0 [|c1 [|]]]; try discriminate.
  intros _ _ _. repeat split.
Qed.

Lemma _format_date_window day month year :
  (1 <= day <= 31)%Z -> (1 <= month <= 12)%Z -> (0 <= year)%Z ->
  _format_date (mrz_date day month year)
  = Some (format_date day month (century_window year)).
Proof.
  intros Hd Hm Hy. unfold mrz_date, _format_date.
  assert (Hyy : (0 <= year mod 100 < 100)%Z) by (apply Z.mod_pos_bound; lia).
  destruct (two_digits (Z.to_N (year mod 100))) as [Ly Iy]; [lia|].
  destruct (two_digits (Z.to_N month)) as [Lm Im]; [lia|].
  destruct (two_digits (Z.to_N day)) as [Ld Id]; [lia|].
  destruct (slices_of_three _ _ _ Ly Lm Ld) as (-> & -> & -> & ->).
  cbn [Nat.eqb negb]. rewrite Iy, Im, Id, !Z2N.id by lia.
  replace ((1 <=? month) && (month <=? 12) && (1 <=? day) && (day <=? 31))%Z
    with true by (symmetry; rewrite !andb_true_iff, !Z.leb_le; lia).
  reflexivity.
Qed.

(** X15.  Reading back the six digits [YYMMDD] of a date gives the same
    day and month, and the year of the window 1930 to 2029 that has the
    same two digits: the date itself when its year lies in the window. *)
Theorem mrz_date_round_trip day month year :
  (1 <= day <= 31)%Z -> (1 <= month <= 12)%Z -> (0 <= year)%Z ->
  _format_date (mrz_date day month year)
  = Some (format_date day month (century_window year))
  /\ ((1930 <= year <= 2029)%Z -> century_window year = year).
Proof.
  intros Hd Hm Hy. split; [now apply _format_date_window|].
  intros Hwin. unfold century_window.
  destruct (Z.le_gt_cases 2000 year).
  - replace (year mod 100)%Z with (year - 2000)%Z
      by (apply (Z.mod_unique_pos year 100 20); lia).
    destruct (Z.ltb_spec (year - 2000) 30); lia.
  - replace (year mod 100)%Z with (year - 1900)%Z
      by (apply (Z.mod_unique_pos year 100 19); lia).
    destruct (Z.ltb_spec (year - 1900) 30); lia.
Qed.

Lemma mrz_date_round_trip_witness :
  _format_date (mrz_date 1 3 2031)
  = Some (format_date 1 3 (century_window 2031))
  /\ ((1930 <= 2031 <= 2029)%Z -> century_window 2031 = 2031%Z).
Proof. apply mrz_date_round_trip; lia. Defined.

(** An expiry in 2031 is read as a date of 1931. *)
Example expiry_after_2029_reads_as_20th_century :
  _format_date (u "310301") = Some (u "01-03-1931").
Proof. vm_compute. reflexivity. Qed.



(** ** Reading the MRZ *)

Lemma parsed_ok_empty : parsed_ok ∅.
Proof. intros k v H. rewrite lookup_empty in H. discriminate. Qed.

Lemma parsed_ok_insert parsed k v :
  parsed_ok parsed -> parsed_value k v -> parsed_ok (<[k := v]> parsed).
Proof.
  intros Hok Hv k' v' H.
  destruct (decide (k = k')) as [<-|Hne].
  - rewrite lookup_insert_eq in H. now injection H as <-.
  - rewrite lookup_insert_ne in H by exact Hne. now apply Hok.
Qed.

Lemma lstrip_incl c s : In c (lstrip s) -> In c s.
Proof.
  induction s as [|x s IH]; cbn [lstrip]; [auto|].
  destruct (is_space x); [intros H; right; auto|auto].
Qed.

Lemma strip_incl c s : In c (strip s) -> In c s.
Proof.
  unfold strip, rstrip. intros H.
  apply List.in_rev, lstrip_incl, List.in_rev, lstrip_incl in H. exact H.
Qed.

Lemma replace_char_removes a b s : ~ In a b -> ~ In a (replace_char a b s).
Proof.
  intros Hb. unfold replace_char. rewrite List.in_flat_map.
  intros (x & Hs & Hx). destruct (N.eqb_spec x a) as [E|Hne]; [now apply Hb|].
  destruct Hx as [<-|[]]. now apply Hne.
Qed.

Lemma replace_char_length a s : (length (replace_char a [] s) <= length s)%nat.
Proof.
  induction s as [|x s IH]; [reflexivity|].
  unfold replace_char in *. cbn [flat_map]. rewrite List.length_app.
  destruct (x =? a); cbn [length] in *; lia.
Qed.

(** The group of the country pattern holds three capital letters. *)
Lemma mrz_country_group line1 country_match :
  re_match false mrz_country line1 = Some country_match ->
  exists c, group country_match 1 = Some c
            /\ length c = 3%nat /\ forallb is_upper_AZ c = true.
Proof.
  unfold re_match. intros Hm.
  destruct (match_at_spec _ _ _ _ _ Hm) as (post & st & _ & _ & _ & _ & Hst & Hcaps).
  pose proof (run_defines false 1 mrz_country eq_refl _ _ Hst) as Hdef.
  unfold captured in Hdef. cbn [group]. rewrite Hcaps.
  destruct (cap_lookup 1 (caps st)) as [g|] eqn:Hg; [|contradiction].
  exists g. split; [reflexivity|].
  destruct (run_captures false 1 [Rep (Cls [CRng 65 90]) 3 (Some 3%nat)] mrz_country
              (incl_refl _) _ _ Hst g Hg) as [Hbad|(a & p & q & Ha & Hsem & Hw)];
    [discriminate|].
  destruct Ha as [<-|[]].
  apply sem_rep_cls in Hsem. destruct Hsem as (w & Hw' & _ & Hall & Hlo & Hhi).
  rewrite Hw' in Hw. apply List.app_inv_tail in Hw. subst w.
  cbn [within] in Hhi. split; [lia|].
  apply forallb_forall. intros x Hx. rewrite List.Forall_forall in Hall.
  specialize (Hall x Hx). unfold cls_match in Hall. cbn [existsb citem_raw] in Hall.
  now rewrite orb_false_r in Hall.
Qed.

Lemma parse_mrz_line1_ok line1 parsed :
  parsed_ok parsed -> parsed_ok (parse_mrz_line1 line1 parsed).
Proof.
  intros Hok. unfold parse_mrz_line1.
  destruct (starts_with _ line1); [|exact Hok].
  assert (Hok' : parsed_ok
            match re_match false mrz_country line1 with
            | Some country_match =>
                <["issuing_country" := group country_match 1]> parsed
            | None => parsed
            end).
  { destruct (re_match false mrz_country line1) as [m|] eqn:Hm; [|exact Hok].
    apply parsed_ok_insert; [exact Hok|]. left. split; [reflexivity|].
    destruct (mrz_country_group _ _ Hm) as (c & -> & Hc). eauto. }
  destruct (split_on2 60 60 (skipn 5 line1)) as [|p0 [|p1 parts]]; try exact Hok'.
  apply parsed_ok_insert; [exact Hok'|]. right. left. split; [reflexivity|].
  eexists. split; [reflexivity|].
  intros Hin. apply strip_incl in Hin.
  assert (Hno : forall p, ~ In 60 (strip (replace_char 60 (u " ") p))).
  { intros p H. apply strip_incl in H. revert H. apply replace_char_removes.
    intros [E|[]]. discriminate E. }
  apply List.in_app_or in Hin. destruct Hin as [Hin|Hin]; [now apply Hno in Hin|].
  apply List.in_app_or in Hin. destruct Hin as [Hin|Hin]; [|now apply Hno in Hin].
  destruct Hin as [E|[]]. discriminate E.
Qed.

Lemma parsed_date date_str :
  _format_date date_str = None
  \/ exists d, _format_date date_str = Some d /\ canonical_date 1930 2029 d.
Proof.
  destruct (_format_date date_str) as [d|] eqn:E; [right|now left].
  exists d. split; [reflexivity|]. now apply (_format_date_canonical date_str).
Qed.

Lemma parsed_ok_date parsed k date_str :
  k = "date_of_birth"%string \/ k = "date_of_expiry"%string ->
  parsed_ok parsed -> parsed_ok (<[k := _format_date date_str]> parsed).
Proof.
  intros Hk Hok. apply parsed_ok_insert; [exact Hok|].
  do 3 right. left. split; [exact Hk|].
  destruct (parsed_date date_str) as [->|(d & -> & Hd)]; eauto.
Qed.

Lemma parse_mrz_line2_ok line2 parsed :
  parsed_ok parsed -> parsed_ok (parse_mrz_line2 line2 parsed).
Proof.
  intros Hok. unfold parse_mrz_line2.
  destruct (44 <=? length line2)%nat; [|exact Hok].
  set (doc_num := replace_char 60 [] (slice 0 9 line2)).
  set (p1 := match doc_num with
             | [] => parsed
             | _ :: _ => <["passport_number" := Some doc_num]> parsed
             end).
  assert (H1 : parsed_ok p1).
  { unfold p1. destruct doc_num as [|c n] eqn:E; [exact Hok|].
    apply parsed_ok_insert; [exact Hok|]. do 2 right. left.
    split; [reflexivity|]. exists (c :: n). split; [reflexivity|].
    split; [discriminate|]. rewrite <- E. unfold doc_num. split.
    - pose proof (replace_char_length 60 (slice 0 9 line2)).
      pose proof (slice_length 0 9 line2). lia.
    - apply replace_char_removes. intros []. }
  clearbody p1.
  set (p2 := if date_is_given (slice 13 19 line2)
             then <["date_of_birth" := _format_date (slice 13 19 line2)]> p1
             else p1).
  assert (H2 : parsed_ok p2).
  { unfold p2. destruct (date_is_given _); [|exact H1].
    apply parsed_ok_date; auto. }
  clearbody p2.
  set (p3 := if str_in (slice 20 21 line2) [u "M"; u "F"]
             then <["sex" := Some (slice 20 21 line2)]> p2 else p2).
  assert (H3 : parsed_ok p3).
  { unfold p3. destruct (str_in _ _) eqn:E; [|exact H2].
    apply parsed_ok_insert; [exact H2|]. do 4 right. split; [reflexivity|].
    unfold str_in in E. apply existsb_str_in in E.
    destruct E as [<-|[<-|[]]]; auto. }
  clearbody p3.
  destruct (date_is_given _); [|exact H3].
  apply parsed_ok_date; auto.
Qed.

Lemma _parse_mrz_text_ok mrz_text : parsed_ok (_parse_mrz_text mrz_text).
Proof.
  unfold _parse_mrz_text.
  destruct (split_on newline mrz_text) as [|line1 [|line2 lines]];
    try apply parsed_ok_empty.
  apply parse_mrz_line2_ok, parse_mrz_line1_ok, parsed_ok_empty.
Qed.

(** X16.  Whatever the text is, an entry of the record that
    [_parse_mrz_text] returns is the issuing country, as three capital
    letters; the names, without a filler; the document number, not empty,
    of at most nine characters and without a filler; a date, null or of
    the window 1930 to 2029; or the sex, M or F.  No other key is set. *)
Theorem parsed_mrz_values mrz_text k v :
  _parse_mrz_text mrz_text !! k = Some v -> parsed_value k v.
Proof. apply _parse_mrz_text_ok. Qed.

Lemma parsed_mrz_values_witness :
  parsed_value "date_of_expiry" (Some (u "01-03-1931")).
Proof.
  apply (parsed_mrz_values mrz_sample). vm_compute. reflexivity.
Defined.

(** The sample, read. *)
Example mrz_sample_parsed :
  List.map (fun k => _parse_mrz_text mrz_sample !! k)
           ["issuing_country"; "names"; "passport_number"; "date_of_birth";
            "sex"; "date_of_expiry"; "nationality"]%string
  = [ Some (Some (u "SDN")); Some (Some (u "AHMED MOHAMED ELTAYEB"));
      Some (Some (u "P01234567")); Some (Some (u "15-06-1985"));
      Some (Some (u "M")); Some (Some (u "01-03-1931")); None ].
Proof. vm_compute. reflexivity. Qed.

(** ** The fallback and the nationality *)

Lemma parsed_no_nationality mrz_text :
  _parse_mrz_text mrz_text !! "nationality"%string = None.
Proof.
  destruct (_parse_mrz_text mrz_text !! "nationality"%string) as [v|] eqn:E;
    [|reflexivity].
  apply _parse_mrz_text_ok in E.
  destruct E as [[E _]|[[E _]|[[E _]|[[[E|E] _]|[E _]]]]]; discriminate E.
Qed.

Lemma fallback_nationality mrz_text :
  mrz_get "nationality" (fallback_with_text mrz_text empty_mrz_data) = None.
Proof.
  unfold fallback_with_text. destruct (truthy mrz_text); [|reflexivity].
  unfold mrz_get. cbn [mrz_fields].
  rewrite lookup_union_r by apply parsed_no_nationality.
  rewrite lookup_insert_ne by discriminate. reflexivity.
Qed.

Lemma filled_fields_without_nationality mrz_data :
  mrz_get "nationality" mrz_data = None -> (filled_fields mrz_data <= 5)%nat.
Proof.
  intros H. unfold filled_fields, mrz_confidence_fields. cbn [List.filter].
  rewrite H. cbn [truthy].
  repeat match goal with
         | |- context [if ?b then _ else _] => destruct b
         end; cbn [length]; lia.
Qed.

(** X17.  The fallback never reads the nationality from the MRZ: it is
    null in the record of the fallback, whatever the text; so at most
    five of the six fields that the confidence counts are filled, and
    the fusion leaves the nationality of the draft record, its confidence
    and its method as they were. *)
Theorem fallback_leaves_nationality mrz_text extracted_data :
  mrz_get "nationality" (fallback_with_text mrz_text empty_mrz_data) = None
  /\ (filled_fields (fallback_with_text mrz_text empty_mrz_data) <= 5)%nat
  /\ view "nationality"
          (enhance_extraction_with_mrz extracted_data
             (fallback_with_text mrz_text empty_mrz_data))
     = view "nationality" extracted_data.
Proof.
  pose proof (fallback_nationality mrz_text) as Hnull.
  split; [exact Hnull|].
  split; [now apply filled_fields_without_nationality|].
  rewrite (enhance_mapped_view _ _ "nationality")
    by (unfold field_mapping; cbn; auto).
  now rewrite Hnull.
Qed.

(** ** Range of the MRZ confidence *)

Lemma filled_ratio_range mrz_data :
  (0 <= inject_Z (Z.of_nat (filled_fields mrz_data))
        / inject_Z (Z.of_nat (length mrz_confidence_fields)))%Q.
Proof.
  unfold Qdiv. apply Qmult_le_0_compat.
  - unfold Qle. cbn [inject_Z Qnum Qden]. lia.
  - apply Qinv_le_0_compat. discriminate.
Qed.

Lemma min_one_le q b : (b <= 1)%Q -> (b <= q)%Q -> (b <= min_one q)%Q.
Proof.
  intros H1 Hq. unfold min_one. destruct (Qltb q 1); assumption.
Qed.

Lemma min_one_saturates q : (1 <= q)%Q -> (min_one q == 1)%Q.
Proof.
  intros Hq. unfold min_one, Qltb.
  apply Qle_bool_iff in Hq. rewrite Hq. reflexivity.
Qed.

(** X18.  The confidence of an MRZ record lies between 0 and 1; it is at
    least 0.2 when the record holds the text of the MRZ, and 1 when,
    besides, five of the six fields are filled. *)
Theorem mrz_confidence_range mrz_data :
  unit_interval (_calculate_mrz_confidence mrz_data)
  /\ (truthy (mrz_get "mrz_text" mrz_data) = true ->
      (2 # 10 <= _calculate_mrz_confidence mrz_data)%Q)
  /\ (truthy (mrz_get "mrz_text" mrz_data) = true ->
      (5 <= filled_fields mrz_data)%nat ->
      (_calculate_mrz_confidence mrz_data == 1)%Q).
Proof.
  pose proof (filled_ratio_range mrz_data) as Hratio.
  unfold _calculate_mrz_confidence.
  set (ratio := (inject_Z (Z.of_nat (filled_fields mrz_data))
                 / inject_Z (Z.of_nat (length mrz_confidence_fields)))%Q) in *.
  set (bonus := match mrz_method mrz_data with
                | Some method => if str_eqb method (u "fastmrz") then (1 # 10)%Q else 0%Q
                | None => 0%Q
                end).
  assert (Hbonus : (0 <= bonus)%Q).
  { unfold bonus. destruct (mrz_method mrz_data) as [m|]; [|discriminate].
    destruct (str_eqb m _); discriminate. }
  assert (Hfast : forall b,
            (match mrz_method mrz_data with
             | Some method => if str_eqb method (u "fastmrz") then (b + (1 # 10))%Q else b
             | None => b
             end == b + bonus)%Q).
  { intros b. unfold bonus. destruct (mrz_method mrz_data) as [m|];
      [destruct (str_eqb m _)|]; ring. }
  split; [|split].
  - apply min_one_unit. rewrite Hfast.
    destruct (truthy _).
    + rewrite <- (Qplus_0_r 0). apply Qplus_le_compat; [|exact Hbonus].
      rewrite <- (Qplus_0_r 0). apply Qplus_le_compat; [exact Hratio|discriminate].
    + rewrite <- (Qplus_0_r 0). apply Qplus_le_compat; assumption.
  - intros ->. apply min_one_le; [discriminate|]. rewrite Hfast.
    rewrite <- (Qplus_0_r (2 # 10)). apply Qplus_le_compat; [|exact Hbonus].
    rewrite <- (Qplus_0_l (2 # 10)) at 1.
    apply Qplus_le_compat; [exact Hratio|apply Qle_refl].
  - intros -> Hfive. apply min_one_saturates. rewrite Hfast.
    rewrite <- (Qplus_0_r 1). apply Qplus_le_compat; [|exact Hbonus].
    apply Qle_trans with ((5 # 6) + (2 # 10))%Q; [discriminate|].
    apply Qplus_le_compat; [|apply Qle_refl].
    unfold ratio. change (length mrz_confidence_fields) with 6%nat.
    assert (Hz : (5 <= Z.of_nat (filled_fields mrz_data))%Z) by lia.
    revert Hz. generalize (Z.of_nat (filled_fields mrz_data)). intros z Hz.
    unfold Qdiv. change (/ inject_Z (Z.of_nat 6))%Q with (1 # 6)%Q.
    unfold Qle. cbn. lia.
Qed.

(** ** Positions in the second line *)

Lemma parse_mrz_line1_keys line1 parsed k :
  k <> "issuing_country"%string -> k <> "names"%string ->
  parse_mrz_line1 line1 parsed !! k = parsed !! k.
Proof.
  intros H1 H2. unfold parse_mrz_line1.
  destruct (starts_with _ line1); [|reflexivity].
  assert (E : match re_match false mrz_country line1 with
              | Some country_match =>
                  <["issuing_country" := group country_match 1]> parsed
              | None => parsed
              end !! k = parsed !! k).
  { destruct (re_match false mrz_country line1); [|reflexivity].
    now rewrite lookup_insert_ne. }
  destruct (split_on2 60 60 (skipn 5 line1)) as [|p0 [|p1 parts]]; try exact E.
  now rewrite lookup_insert_ne.
Qed.

Lemma mrz_line2_slices number check1 nationality birth check2 sex expiry rest :
  mrz_line2_shaped number check1 nationality birth check2 sex expiry rest ->
  let line2 := mrz_line2 number check1 nationality birth check2 sex expiry rest in
  (44 <=? length line2)%nat = true
  /\ slice 0 9 line2 = number /\ slice 13 19 line2 = birth
  /\ slice 20 21 line2 = sex /\ slice 21 27 line2 = expiry.
Proof.
  intros (L1 & L2 & L3 & L4 & L5 & L6 & L7 & L8). cbv zeta. unfold mrz_line2.
  split.
  - apply Nat.leb_le. rewrite !List.length_app. lia.
  - destruct number as [|n0 [|n1 [|n2 [|n3 [|n4 [|n5 [|n6 [|n7 [|n8 [|]]]]]]]]]];
      try discriminate L1.
    destruct check1 as [|c1 [|]]; try discriminate L2.
    destruct nationality as [|a0 [|a1 [|a2 [|]]]]; try discriminate L3.
    destruct birth as [|b0 [|b1 [|b2 [|b3 [|b4 [|b5 [|]]]]]]]; try discriminate L4.
    destruct check2 as [|c2 [|]]; try discriminate L5.
    destruct sex as [|s0 [|]]; try discriminate L6.
    destruct expiry as [|e0 [|e1 [|e2 [|e3 [|e4 [|e5 [|]]]]]]]; try discriminate L7.
    repeat split.
Qed.

Lemma split_two_lines line1 line2 tail :
  ~ In newline line1 -> ~ In newline line2 ->
  tail = [] \/ (exists more, tail = newline :: more) ->
  exists lines, split_on newline (line1 ++ [newline] ++ line2 ++ tail)
                = line1 :: line2 :: lines.
Proof.
  intros H1 H2 Htail.
  assert (Hfree : forall w, ~ In newline w ->
            forallb (fun c => negb (c =? newline)) w = true).
  { intros w Hw. apply forallb_forall. intros c Hc.
    apply negb_true_iff, N.eqb_neq. intros ->. now apply Hw. }
  unfold split_on. rewrite split_on_aux_run by now apply Hfree.
  cbn [app split_on_aux]. rewrite N.eqb_refl, List.app_nil_r, List.rev_involutive.
  rewrite split_on_aux_run by now apply Hfree.
  rewrite List.app_nil_r.
  destruct Htail as [->|(more & ->)]; cbn [split_on_aux].
  - exists []. now rewrite List.rev_involutive.
  - rewrite N.eqb_refl, List.rev_involutive. eauto.
Qed.

Lemma fmt_02d_digits n :
  n < 100 -> exists a b, fmt_02d n = [a; b] /\ a <> 60.
Proof.
  intros Hn.
  set (check := fun n => match fmt_02d n with
                         | [a; b] => negb (a =? 60)
                         | _ => false
                         end).
  assert (Hall : forallb check (List.map N.of_nat (seq 0 100)) = true)
    by (vm_compute; reflexivity).
  rewrite forallb_forall in Hall.
  assert (Hin : In n (List.map N.of_nat (seq 0 100))).
  { apply List.in_map_iff. exists (N.to_nat n). split; [lia|]. apply List.in_seq. lia. }
  specialize (Hall n Hin). unfold check in Hall.
  destruct (fmt_02d n) as [|a [|b [|]]]; try discriminate Hall.
  exists a, b. split; [reflexivity|].
  now apply negb_true_iff, N.eqb_neq in Hall.
Qed.

Lemma mrz_date_given day month year :
  (1 <= day <= 31)%Z -> (1 <= month <= 12)%Z -> (0 <= year)%Z ->
  length (mrz_date day month year) = 6%nat
  /\ date_is_given (mrz_date day month year) = true.
Proof.
  intros Hd Hm Hy. unfold mrz_date.
  assert (Hyy : (0 <= year mod 100 < 100)%Z) by (apply Z.mod_pos_bound; lia).
  destruct (fmt_02d_digits (Z.to_N (year mod 100))) as (y0 & y1 & -> & Hy0); [lia|].
  destruct (fmt_02d_digits (Z.to_N month)) as (m0 & m1 & -> & _); [lia|].
  destruct (fmt_02d_digits (Z.to_N day)) as (d0 & d1 & -> & _); [lia|].
  split; [reflexivity|].
  unfold date_is_given. cbn [app str_eqb negb andb].
  change (u "<<<<<<") with [60; 60; 60; 60; 60; 60]. cbn [str_eqb].
  apply N.eqb_neq in Hy0. now rewrite Hy0.
Qed.

Lemma no_newline w :
  forallb (fun c => negb (c =? newline)) w = true -> ~ In newline w.
Proof.
  intros H Hin. rewrite forallb_forall in H. specialize (H _ Hin).
  now rewrite N.eqb_refl in H.
Qed.

(** X19.  A second line written for a holder is read back: the document
    number without its fillers, the sex, and the two dates, each with
    its day, its month and the year of the window 1930 to 2029 that has
    the same last two digits; the first line and the lines that follow
    do not matter. *)
Theorem mrz_second_line_round_trip
        mrz_text line1 number check1 nationality birth check2 sex expiry rest tail
        birth_day birth_month birth_year expiry_day expiry_month expiry_year :
  mrz_text
  = line1 ++ [newline]
      ++ mrz_line2 number check1 nationality birth check2 sex expiry rest ++ tail ->
  birth = mrz_date birth_day birth_month birth_year ->
  expiry = mrz_date expiry_day expiry_month expiry_year ->
  mrz_line2_shaped number check1 nationality birth check2 sex expiry rest ->
  ~ In newline line1 ->
  ~ In newline (mrz_line2 number check1 nationality birth check2 sex expiry rest) ->
  tail = [] \/ (exists more, tail = newline :: more) ->
  replace_char 60 [] number <> [] ->
  sex = u "M" \/ sex = u "F" ->
  (1 <= birth_day <= 31)%Z -> (1 <= birth_month <= 12)%Z -> (0 <= birth_year)%Z ->
  (1 <= expiry_day <= 31)%Z -> (1 <= expiry_month <= 12)%Z -> (0 <= expiry_year)%Z ->
  _parse_mrz_text mrz_text !! "passport_number"%string
  = Some (Some (replace_char 60 [] number))
  /\ _parse_mrz_text mrz_text !! "sex"%string = Some (Some sex)
  /\ _parse_mrz_text mrz_text !! "date_of_birth"%string
     = Some (Some (format_date birth_day birth_month (century_window birth_year)))
  /\ _parse_mrz_text mrz_text !! "date_of_expiry"%string
     = Some (Some (format_date expiry_day expiry_month
                               (century_window expiry_year))).
Proof.
  intros -> Hbirth Hexpiry Hshape Hl1 Hl2 Htail Hnum Hsex Hbd Hbm Hby Hed Hem Hey.
  destruct (split_two_lines _ _ _ Hl1 Hl2 Htail) as (lines & Hsplit).
  unfold _parse_mrz_text. rewrite Hsplit.
  destruct (mrz_line2_slices _ _ _ _ _ _ _ _ Hshape) as (Hlen & S1 & S2 & S3 & S4).
  unfold parse_mrz_line2. rewrite Hlen, S1, S2, S3, S4.
  subst birth expiry.
  destruct (mrz_date_given _ _ _ Hbd Hbm Hby) as [_ ->].
  destruct (mrz_date_given _ _ _ Hed Hem Hey) as [_ ->].
  rewrite !_format_date_window by assumption.
  assert (Hin : str_in sex [u "M"; u "F"] = true).
  { apply existsb_str_in. destruct Hsex as [->| ->]; cbn; auto. }
  rewrite Hin.
  destruct (replace_char 60 [] number) as [|c n] eqn:E; [contradiction|].
  repeat split;
    repeat first [rewrite lookup_insert_eq
                 |rewrite lookup_insert_ne by discriminate];
    reflexivity.
Qed.

(** On the sample an expiry in 2031 is read back as a date of 1931. *)
Lemma mrz_second_line_round_trip_witness :
  _parse_mrz_text mrz_sample !! "passport_number"%string = Some (Some (u "P01234567"))
  /\ _parse_mrz_text mrz_sample !! "sex"%string = Some (Some (u "M"))
  /\ _parse_mrz_text mrz_sample !! "date_of_birth"%string
     = Some (Some (u "15-06-1985"))
  /\ _parse_mrz_text mrz_sample !! "date_of_expiry"%string
     = Some (Some (u "01-03-1931")).
Proof.
  apply (mrz_second_line_round_trip
           mrz_sample (u "P<SDNELTAYEB<<AHMED<MOHAMED<<<<<<<<<<<<<<<<<")
           (u "P01234567") (u "4") (u "SDN") (u "850615") (u "9") (u "M")
           (u "310301") (u "0<<<<<<<<<<<<<<04") []
           15 6 1985 1 3 2031);
    try lia; try (vm_compute; reflexivity).
  - repeat split; vm_compute; lia.
  - apply no_newline. vm_compute. reflexivity.
  - apply no_newline. vm_compute. reflexivity.
  - now left.
  - vm_compute. discriminate.
  - now left.
Defined.
